(** * EmailDistributor (announcer/distributors/mail.py)

    A shallow embedding of the e-mail distributor of the TracAnnouncer
    plugin and the properties of its recipient classification, format
    catalog, message assembly, decorator chain and delivery.

    Conventions of the embedding.
    - The module mixes forms of two versions of the language: it imports
      [queue] and tests [isinstance(x, str)] as Python 3 does, and uses
      [dict.iteritems], [hashlib.md5] over a text, an ordering comparison
      between a list and an integer and [except UnicodeDecodeError]
      around [encode] as Python 2 does.  The version is therefore a
      parameter of the embedding ([python], a field of the externals), and
      every primitive whose meaning differs between the versions is
      defined for both; the properties hold for either version unless
      they name one.
    - A [dict] is an association list kept in insertion order, a [set] is a
      duplicate-free list kept in insertion order; the order of iteration
      is therefore fixed in the model where Python leaves it open.
    - Calls of [self.log] are not modelled.
    - External collaborators (formatters, resolvers, the preference store,
      the crypto engine, the regular expression engine, the e-mail library,
      the sender) are fields of records; the calls whose number or order
      matters are recorded in a trace.  The sender may raise, and the
      e-mail library may refuse a body. *)

From Stdlib Require Import String Ascii List Bool Arith Lia DecimalString.
From stdpp Require Import base option list gmap strings.

Local Open Scope string_scope.
Local Open Scope list_scope.

(** ** Python values *)

Module Py.

(** Truth value of a string.  [None] and the empty string are both false
    and neither is ever stored or inspected further by the distributor;
    a value that is a string or [None] is embedded as a string, with the
    empty string standing for both. *)
Definition truthy (s : string) : bool := negb (s =? "")%string.

(** [needle in haystack] for strings. *)
Fixpoint contains (needle haystack : string) : bool :=
  (String.prefix needle haystack ||
  match haystack with
  | EmptyString => false
  | String _ rest => contains needle rest
  end)%bool.

(** [', '.join(l)] and friends. *)
Fixpoint join (sep : string) (l : list string) : string :=
  match l with
  | [] => ""
  | [x] => x
  | x :: rest => x +:+ sep +:+ join sep rest
  end.

Definition lower_ascii (c : ascii) : ascii :=
  let n := nat_of_ascii c in
  if ((65 <=? n)%nat && (n <=? 90)%nat)%bool then ascii_of_nat (n + 32) else c.

(** [s.lower()] on the ASCII range. *)
Fixpoint lower (s : string) : string :=
  match s with
  | EmptyString => EmptyString
  | String c rest => String (lower_ascii c) (lower rest)
  end.

(** The version of the language. *)
Inductive version := Python2 | Python3.

(** The two string types of the language: texts (a sequence of code
    points; [unicode] in Python 2, [str] in Python 3) and byte strings
    ([str] in Python 2, [bytes] in Python 3). *)
Inductive text :=
| Unicode (code_points : list nat)
| Str (bytes : list nat).

Definition text_truthy (t : text) : bool :=
  match t with
  | Unicode [] | Str [] => false
  | _ => true
  end.

Definition all_ascii (l : list nat) : bool := forallb (fun c => (c <? 128)%nat) l.

Inductive exn :=
| TracError (msg : string)
| UnicodeEncodeError
| UnicodeDecodeError
| AttributeError (what : string)
| TypeError (what : string).

Inductive result (A : Type) :=
| Return (a : A)
| Raise (e : exn).
Arguments Return {A} a.
Arguments Raise {A} e.

(** [t.encode('ascii')].  A text with a code point outside ASCII cannot
    be encoded.  In Python 2 a byte string is first decoded with the
    default (ASCII) codec, which fails on a byte outside ASCII with the
    *decode* error; in Python 3 a byte string has no [encode]. *)
Definition encode_ascii (v : version) (t : text) : result text :=
  match t with
  | Unicode cps =>
      if all_ascii cps then Return (Str cps) else Raise UnicodeEncodeError
  | Str bs =>
      match v with
      | Python2 =>
          if all_ascii bs then Return (Str bs) else Raise UnicodeDecodeError
      | Python3 => Raise (AttributeError "encode")
      end
  end.

(** The UTF-8 bytes of a code point; a surrogate has none. *)
Definition utf8_bytes (c : nat) : option (list nat) :=
  if (c <? 128)%nat then Some [c]
  else if (c <? 32 * 64)%nat then Some [192 + c / 64; 128 + c mod 64]
  else if ((27 * (32 * 64) <=? c) && (c <? 28 * (32 * 64)))%nat%bool then None
  else if (c <? 16 * (64 * 64))%nat then
    Some [224 + c / (64 * 64); 128 + (c / 64) mod 64; 128 + c mod 64]
  else
    Some [240 + c / (64 * (64 * 64)); 128 + (c / (64 * 64)) mod 64;
          128 + (c / 64) mod 64; 128 + c mod 64].

Fixpoint utf8 (cps : list nat) : option (list nat) :=
  match cps with
  | [] => Some []
  | c :: rest =>
      match utf8_bytes c, utf8 rest with
      | Some bs, Some more => Some (bs ++ more)
      | _, _ => None
      end
  end.

(** [if isinstance(t, str): t = t.encode('utf-8')].  In Python 2 [str] is
    the type of byte strings: the implicit ASCII decode comes first, and
    the bytes are unchanged when it succeeds; a text is left alone.  In
    Python 3 [str] is the type of texts: the text is encoded; a byte
    string is left alone. *)
Definition encode_utf8_if_str (v : version) (t : text) : result text :=
  match v, t with
  | Python2, Unicode _ => Return t
  | Python2, Str bs =>
      if all_ascii bs then Return (Str bs) else Raise UnicodeDecodeError
  | Python3, Unicode cps =>
      match utf8 cps with
      | Some bs => Return (Str bs)
      | None => Raise UnicodeEncodeError
      end
  | Python3, Str _ => Return t
  end.

(** [l > n] for a list [l] and an integer [n].  Python 2 orders objects
    of different types by type, numbers first, so a list is greater than
    every integer, whatever it contains; Python 3 refuses the comparison.
    In neither version does the answer depend on the length of the
    list. *)
Definition list_gt_int {A} (v : version) (l : list A) (n : nat) : result bool :=
  match v with
  | Python2 => Return true
  | Python3 =>
      Raise (TypeError "'>' not supported between instances of 'list' and 'int'")
  end.

(** [d.iteritems()]: a method of Python 2 only. *)
Definition iteritems {V} (v : version) (d : list (string * V))
    : result (list (string * V)) :=
  match v with
  | Python2 => Return d
  | Python3 => Raise (AttributeError "iteritems")
  end.

(** Whether a string has only ASCII characters. *)
Fixpoint string_is_ascii (s : string) : bool :=
  match s with
  | EmptyString => true
  | String c rest => ((nat_of_ascii c <? 128)%nat && string_is_ascii rest)%bool
  end.

(** [dict] with string keys, in insertion order. *)
Section Dict.
Context {V : Type}.

Definition dict := list (string * V).

Fixpoint dict_get (d : dict) (k : string) : option V :=
  match d with
  | [] => None
  | (k', v) :: rest => if (k' =? k)%string then Some v else dict_get rest k
  end.

(** [d[k] = v] *)
Fixpoint dict_set (d : dict) (k : string) (v : V) : dict :=
  match d with
  | [] => [(k, v)]
  | (k', v') :: rest =>
      if (k' =? k)%string then (k', v) :: rest
      else (k', v') :: dict_set rest k v
  end.

(** [k in d] *)
Definition dict_in (d : dict) (k : string) : bool :=
  match dict_get d k with Some _ => true | None => false end.

Definition dict_values (d : dict) : list V := map snd d.
Definition dict_keys (d : dict) : list string := map fst d.
End Dict.
Arguments dict V : clear implicits.

(** [list.pop()]: removes and returns the last item. *)
Definition pop {A} (l : list A) : option (A * list A) :=
  match rev l with
  | [] => None
  | x :: r => Some (x, rev r)
  end.

End Py.
Import Py.

(** ** Interfaces of the collaborators *)

(** The announcement event; only its realm is read by the distributor. *)
Record AnnouncementEvent := {
  realm : string;
  payload : string
}.

(** [IAnnouncementFormatter]. *)
Record IAnnouncementFormatter := {
  formatter_name : string;
  styles : string -> string -> list string;
  alternative_style_for : string -> string -> string -> string;
  format : string -> string -> string -> AnnouncementEvent -> text
}.

(** ** The format catalog *)

(** [EmailDistributor.formats]: every style advertised by a formatter is
    bound to it, in registration order, by plain assignment. *)
Definition formats (formatters : list IAnnouncementFormatter)
    (transport realm : string) : dict IAnnouncementFormatter :=
  fold_left
    (fun formats f =>
       fold_left (fun formats style => dict_set formats style f)
                 (styles f transport realm) formats)
    formatters [].

(** [IEmailAddressResolver]: the address for a session, or nothing. *)
Record IEmailAddressResolver := {
  resolver_name : string;
  get_address_for_session : string -> option bool -> string
}.

(** A row of the subscription table; [format] is the only column read. *)
Record Subscription := {
  subscription_format : string
}.

(** [email.charset.Charset], reduced to the attributes set by
    [_init_pref_encoding]. *)
Inductive encoding := QP | BASE64.

Record Charset := {
  input_charset : string;
  header_encoding : option encoding;
  body_encoding : option encoding;
  output_charset : string
}.

(** [MIMEText(body, subtype)] with its charset set. *)
Record MIMEText := {
  body : text;
  subtype : string;
  charset : Charset
}.

(** What is attached to the root message: a text part, or a
    [MIMEMultipart(subtype)] holding text parts. *)
Inductive MIMEPart :=
| PartText (t : MIMEText)
| PartMultipart (subtype : string) (children : list MIMEText).

(** The root message, a [MIMEMultipart('related')]. *)
Record Message := {
  headers : dict string;
  preamble : string;
  parts : list MIMEPart
}.

(** [IAnnouncementEmailDecorator].  The interface leaves the chaining to
    the callee: it "should call the next decorator by popping decorators
    and calling the popped decorator".  A decorator is embedded as the
    change it makes to the message and whether it goes on with the chain
    afterwards. *)
Record IAnnouncementEmailDecorator := {
  decorator_name : string;
  decorate : AnnouncementEvent -> Message -> Message;
  calls_next : bool
}.

(** What the distributor uses from outside the component. *)
Record Externals := {
  (** the version of the language the module runs on *)
  python : version;
  (** [announcer.api._], the translation function *)
  gettext : string -> string;
  (** [re.compile(pattern).search(s) is not None] *)
  re_search : string -> string -> bool;
  (** [Subscription.find_by_sid_and_distributor(env, sid, authenticated,
      distributor)] *)
  find_by_sid_and_distributor : string -> bool -> string -> list Subscription;
  (** [CryptoTxt]: the key identifiers matching an address, and the three
      operations on a body *)
  get_pubkey_ids : string -> list string;
  sign : text -> option string -> text;
  encrypt : text -> list string -> text;
  sign_encrypt : text -> list string -> option string -> text;
  (** [email.utils.formataddr] and [email.utils.formatdate] *)
  formataddr : string -> string -> string;
  formatdate : string;
  (** what [_message_id] reads: the project URL (a text, as every value of
      the configuration), [time.time()] as an integer, the number drawn
      by [random.randint(0, 32000)], and the MD5 digest of a byte string
      in hexadecimal *)
  project_url : string;
  modtime : N;
  rand : N;
  md5_hexdigest : string -> string;
  project_name : string;
  (** [MIMEText(body, subtype)]: the exception with which the e-mail
      library refuses a body, if it does *)
  MIMEText_refuses : text -> string -> option exn;
  (** [Message.as_string()] *)
  as_string : Message -> string;
  (** [email_sender.send(from_addr, recipients, message)]: the sender
      returns, or raises on a transport failure *)
  email_sender_send : string -> list string -> string -> result unit
}.

(** ** The component *)

(** The options of the [announcer] section. *)
Record Options := {
  enabled : bool;
  email_from : string;
  from_name : string;
  reply_to : string;
  mime_encoding : string;
  use_public_cc : bool;
  to : string;
  use_threaded_delivery : bool;
  default_email_format : string;
  rcpt_allow_regexp : string;
  rcpt_local_regexp : string;
  crypto : string;
  gpg_binary : string;
  gpg_home : string;
  private_key : option string
}.

Definition to_default : string := "undisclosed-recipients: ;".

(** A location of the store of list objects. *)
Definition loc := nat.

(** [EmailDistributor]: extension points, options, and the charset set up
    at construction.  [decorators] is the registered list, an object of
    the store. *)
Record EmailDistributor := {
  formatters : list IAnnouncementFormatter;
  decorators : loc;
  resolvers : list IEmailAddressResolver;
  options :> Options;
  _charset : Charset
}.

(** [_init_pref_encoding] *)
Definition _init_pref_encoding (E : Externals) (mime_encoding : string)
    : result Charset :=
  let pref := lower mime_encoding in
  if (pref =? "base64")%string then
    Return {| input_charset := "utf-8"; header_encoding := Some BASE64;
              body_encoding := Some BASE64; output_charset := "utf-8" |}
  else if ((pref =? "qp") || (pref =? "quoted-printable"))%string then
    Return {| input_charset := "utf-8"; header_encoding := Some QP;
              body_encoding := Some QP; output_charset := "utf-8" |}
  else if (pref =? "none")%string then
    Return {| input_charset := "utf-8"; header_encoding := None;
              body_encoding := None; output_charset := "ascii" |}
  else
    Raise (TracError (gettext E "Invalid email encoding setting: " +:+ pref)).

(** [__init__] *)
Definition __init__ (E : Externals) (fs : list IAnnouncementFormatter)
    (ds : loc) (rs : list IEmailAddressResolver) (o : Options)
    : result EmailDistributor :=
  match _init_pref_encoding E (mime_encoding o) with
  | Return cs =>
      Return {| formatters := fs; decorators := ds; resolvers := rs;
                options := o; _charset := cs |}
  | Raise e => Raise e
  end.

(** ** Classification of the recipients *)

(** A recipient: name (session id), authenticated flag, address. *)
Definition recipient : Type := string * option bool * string.

Definition rcpt_address (r : recipient) : string := snd r.

(** [s.add(x)] on a set *)
Definition set_add (s : list recipient) (x : recipient) : list recipient :=
  if decide (x ∈ s) then s else s ++ [x].

(** [d.setdefault(k, set()).add(x)] *)
Definition setdefault_add (d : dict (list recipient)) (k : string)
    (x : recipient) : dict (list recipient) :=
  match dict_get d k with
  | Some s => dict_set d k (set_add s x)
  | None => dict_set d k (set_add [] x)
  end.

Definition _get_default_format (self : EmailDistributor) : string :=
  default_email_format self.

(** [_get_preferred_format]; an unknown authentication state counts as
    not authenticated. *)
Definition _get_preferred_format (E : Externals) (self : EmailDistributor)
    (realm sid : string) (authenticated : option bool) : string :=
  let authenticated := match authenticated with Some a => a | None => false end in
  match find_by_sid_and_distributor E sid authenticated "email" with
  | chosen :: _ => subscription_format chosen
  | [] => _get_default_format self
  end.

(** The search for an alternative (lines 245-250): [fmt] is overwritten by
    every formatter asked, and the loop stops at the first true answer. *)
Fixpoint find_alternative (fs : list IAnnouncementFormatter)
    (transport realm old_fmt fmt : string) : string :=
  match fs with
  | [] => fmt
  | f :: rest =>
      let fmt := alternative_style_for f transport realm old_fmt in
      if truthy fmt then fmt else find_alternative rest transport realm old_fmt fmt
  end.

(** The resolver chain (lines 258-261). *)
Fixpoint resolve (rs : list IEmailAddressResolver) (name : string)
    (authed : option bool) (address : string) : string :=
  match rs with
  | [] => address
  | resolver :: rest =>
      let address := get_address_for_session resolver name authed in
      if truthy address then address else resolve rest name authed address
  end.

(** The three accumulators of the loop. *)
Record groups := {
  msgdict : dict (list recipient);
  msgdict_encrypt : dict (list recipient);
  msg_pubkey_ids : list string
}.

Definition no_groups : groups :=
  {| msgdict := []; msgdict_encrypt := []; msg_pubkey_ids := [] |}.

(** [self.crypto in ['encrypt', 'sign,encrypt']] *)
Definition crypto_encrypts (self : EmailDistributor) : bool :=
  ((crypto self =? "encrypt") || (crypto self =? "sign,encrypt"))%string.

(** The format a recipient is served in (lines 235-254): the preference or
    the default, replaced by an alternative when the catalog lacks it. *)
Definition recipient_format (E : Externals) (self : EmailDistributor)
    (formats : dict IAnnouncementFormatter) (transport : string)
    (event : AnnouncementEvent) (name : string) (authed : option bool)
    : string :=
  let fmt :=
    if truthy name then
      let preferred := _get_preferred_format E self (realm event) name authed in
      if truthy preferred then preferred else _get_default_format self
    else _get_default_format self in
  let old_fmt := fmt in
  if dict_in formats fmt then fmt
  else find_alternative (dict_values formats) transport (realm event) old_fmt "".

(** The address a recipient is reached at (lines 255-261). *)
Definition recipient_address (self : EmailDistributor) (name : string)
    (authed : option bool) (address : string) : string :=
  if (truthy name && negb (truthy address))%bool
  then resolve (resolvers self) name authed address
  else address.

(** One turn of the loop over the recipients (lines 234-303).  The turn
    raises where the comparison of the key list with zero does. *)
Definition classify (E : Externals) (self : EmailDistributor)
    (formats : dict IAnnouncementFormatter) (transport : string)
    (event : AnnouncementEvent) (g : groups) (r : recipient) : result groups :=
  let '(name, authed, address) := r in
  let fmt := recipient_format E self formats transport event name authed in
  if negb (truthy fmt) then Return g
  else
    let address := recipient_address self name authed address in
    if truthy address then
      if re_search E (rcpt_allow_regexp self) address then
        let local_match := re_search E (rcpt_local_regexp self) address in
        if (crypto_encrypts self && negb local_match)%bool then
          let pubkey_ids := get_pubkey_ids E address in
          match list_gt_int (python E) pubkey_ids 0 with
          | Return true =>
              Return
                {| msgdict := msgdict g;
                   msgdict_encrypt :=
                     setdefault_add (msgdict_encrypt g) fmt
                                    (name, authed, address);
                   msg_pubkey_ids := msg_pubkey_ids g ++ pubkey_ids |}
          | Return false => Return g
          | Raise e => Raise e
          end
        else
          Return
            {| msgdict := setdefault_add (msgdict g) fmt (name, authed, address);
               msgdict_encrypt := msgdict_encrypt g;
               msg_pubkey_ids := msg_pubkey_ids g |}
      else Return g
    else Return g.

(** The loop: the accumulators as the loop leaves them, and how it ends,
    at the end of the list or at the first turn that raises. *)
Fixpoint classify_loop (E : Externals) (self : EmailDistributor)
    (formats : dict IAnnouncementFormatter) (transport : string)
    (event : AnnouncementEvent) (recipients : list recipient) (g : groups)
    : groups * result unit :=
  match recipients with
  | [] => (g, Return tt)
  | r :: rest =>
      match classify E self formats transport event g r with
      | Return g' => classify_loop E self formats transport event rest g'
      | Raise e => (g, Raise e)
      end
  end.

(** The accumulators after the loop. *)
Definition classify_all (E : Externals) (self : EmailDistributor)
    (formats : dict IAnnouncementFormatter) (transport : string)
    (event : AnnouncementEvent) (recipients : list recipient) : groups :=
  fst (classify_loop E self formats transport event recipients no_groups).

(** How the loop ends. *)
Definition classify_outcome (E : Externals) (self : EmailDistributor)
    (formats : dict IAnnouncementFormatter) (transport : string)
    (event : AnnouncementEvent) (recipients : list recipient) : result unit :=
  snd (classify_loop E self formats transport event recipients no_groups).

(** ** State and effects *)

(** What is handed to the sender: from-header, addresses, message text. *)
Definition package : Type := string * list string * string.

(** The calls to collaborators that are observed. *)
Inductive call :=
| CallFormat (formatter style : string)
| CallAlternativeStyleFor (formatter style : string)
| CallSign (input : text) (key : option string)
| CallEncrypt (input : text) (keys : list string)
| CallSignEncrypt (input : text) (keys : list string) (key : option string)
| CallDecorate (decorator : string) (message : Message)
| CallSend (from_addr : string) (recipients : list string) (message : string)
| CallPut (item : package).

(** The mutable state: the store of decorator lists, the instance
    attributes [enigma] (set or [None]) and [delivery_queue] ([None] or the
    queued items, oldest first), and the calls made so far. *)
Record world := {
  heap : gmap loc (list IAnnouncementEmailDecorator);
  enigma : bool;
  delivery_queue : option (list package);
  trace : list call
}.

Definition M (A : Type) : Type := world -> result A * world.

Definition ret {A} (a : A) : M A := fun w => (Return a, w).

Definition raise {A} (e : exn) : M A := fun w => (Raise e, w).

Definition bind {A B} (m : M A) (k : A -> M B) : M B :=
  fun w =>
    match m w with
    | (Return a, w') => k a w'
    | (Raise e, w') => (Raise e, w')
    end.

(** A computation without effect on the state. *)
Definition lift {A} (r : result A) : M A := fun w => (r, w).

Declare Scope py_scope.
Delimit Scope py_scope with py.
Notation "x <- m ;; k" := (bind m (fun x => k))
  (at level 100, m at next level, right associativity) : py_scope.
Notation "m ;; k" := (bind m (fun _ => k))
  (at level 100, right associativity) : py_scope.
Local Open Scope py_scope.

Definition record (c : call) : M unit :=
  fun w => (Return tt,
            {| heap := heap w; enigma := enigma w;
               delivery_queue := delivery_queue w;
               trace := trace w ++ [c] |}).

Definition read (r : loc) : M (list IAnnouncementEmailDecorator) :=
  fun w => (Return (default [] (heap w !! r)), w).

Definition write (r : loc) (l : list IAnnouncementEmailDecorator) : M unit :=
  fun w => (Return tt,
            {| heap := <[r := l]> (heap w); enigma := enigma w;
               delivery_queue := delivery_queue w; trace := trace w |}).

(** A new list object holding [l]. *)
Definition alloc (l : list IAnnouncementEmailDecorator) : M loc :=
  fun w =>
    let r := fresh (dom (heap w)) in
    (Return r,
     {| heap := <[r := l]> (heap w); enigma := enigma w;
        delivery_queue := delivery_queue w; trace := trace w |}).

(** [self.enigma = CryptoTxt(...)] *)
Definition set_enigma : M unit :=
  fun w => (Return tt,
            {| heap := heap w; enigma := true;
               delivery_queue := delivery_queue w; trace := trace w |}).

(** An attribute of [self.enigma]. *)
Definition get_enigma (attribute : string) : M unit :=
  fun w => if enigma w then (Return tt, w)
           else (Raise (AttributeError attribute), w).

(** [get_delivery_queue]: the queue is made on first use. *)
Definition get_delivery_queue : M unit :=
  fun w =>
    match delivery_queue w with
    | Some _ => (Return tt, w)
    | None => (Return tt,
               {| heap := heap w; enigma := enigma w;
                  delivery_queue := Some []; trace := trace w |})
    end.

(** [queue.put(item)] *)
Definition put (item : package) : M unit :=
  fun w => (Return tt,
            {| heap := heap w; enigma := enigma w;
               delivery_queue := Some (default [] (delivery_queue w) ++ [item]);
               trace := trace w ++ [CallPut item] |}).

(** ** The message identifier *)

(** [s.find(c)]: the index of the first [c], if any. *)
Fixpoint find_char (c : ascii) (s : string) : option nat :=
  match s with
  | EmptyString => None
  | String c' rest =>
      if (c' =? c)%char then Some 0
      else match find_char c rest with
           | Some i => Some (S i)
           | None => None
           end
  end.

(** [s[n:]] *)
Fixpoint slice_from (n : nat) (s : string) : string :=
  match n, s with
  | 0, _ => s
  | S n, String _ rest => slice_from n rest
  | S _, EmptyString => EmptyString
  end.

(** [email_from[email_from.find('@') + 1:]]; [find] answers -1 when there
    is no ['@'], and the slice then starts at 0. *)
Definition message_id_host (email_from : string) : string :=
  slice_from (match find_char "@" email_from with
              | Some i => S i
              | None => 0
              end) email_from.

(** ['%d' % n] and ['%03d' % n] *)
Definition decimal (n : N) : string :=
  NilZero.string_of_uint (N.to_uint n).

Definition decimal3 (n : nat) : string :=
  let d := decimal (N.of_nat n) in
  match String.length d with
  | 1 => "00" +:+ d
  | 2 => "0" +:+ d
  | _ => d
  end.

(** [s.encode('ascii', 'ignore')]: the characters outside ASCII are left
    out. *)
Fixpoint encode_ascii_ignore (s : string) : string :=
  match s with
  | EmptyString => EmptyString
  | String c rest =>
      if (nat_of_ascii c <? 128)%nat then String c (encode_ascii_ignore rest)
      else encode_ascii_ignore rest
  end.

(** ['%s' % b] for a byte string [b]: the bytes in Python 2, their
    representation as a literal in Python 3. *)
Definition percent_s_bytes (v : version) (b : string) : string :=
  match v with
  | Python2 => b
  | Python3 => "b'" +:+ b +:+ "'"
  end.

(** [hashlib.md5(s).hexdigest()] for a text [s]: Python 2 encodes the text
    with the ASCII codec first, which fails on a character outside ASCII;
    Python 3 refuses a text. *)
Definition hashlib_md5 (E : Externals) (s : string) : result string :=
  match python E with
  | Python2 =>
      if string_is_ascii s then Return (md5_hexdigest E s)
      else Raise UnicodeEncodeError
  | Python3 => Raise (TypeError "Strings must be encoded before hashing")
  end.

(** [_message_id], lines 363-373. *)
Definition _message_id (E : Externals) (self : EmailDistributor)
    (realm : string) : result string :=
  let s := project_url E +:+ "." +:+ decimal (modtime E) +:+ "." +:+
           decimal (rand E) +:+ "." +:+
           percent_s_bytes (python E) (encode_ascii_ignore realm) in
  match hashlib_md5 E s with
  | Raise e => Raise e
  | Return dig =>
      let host := message_id_host (email_from self) in
      Return ("<" +:+ decimal3 (String.length s) +:+ "." +:+ dig +:+ "@" +:+
              host +:+ ">")
  end.

(** ** Assembly and delivery of one message *)

(** [set_header(message, key, value)] of [announcer.util.mail]: the header
    is replaced if present and added otherwise; the encoding of the value
    on the wire is left to the e-mail library. *)
Definition set_header (m : Message) (k v : string) : Message :=
  {| headers := dict_set (headers m) k v; preamble := preamble m;
     parts := parts m |}.

(** [root_message.attach(part)] *)
Definition attach (m : Message) (p : MIMEPart) : Message :=
  {| headers := headers m; preamble := preamble m; parts := parts m ++ [p] |}.

Definition double_quote : string := String (ascii_of_nat 34) EmptyString.

(** Lines 380-403: the from-header, the header set and the addresses.  The
    message identifier is generated first of the headers; when that
    raises, nothing else is done. *)
Definition envelope (E : Externals) (self : EmailDistributor)
    (event : AnnouncementEvent) (recipients : list recipient)
    : result (string * dict string * list string) :=
  let from_header :=
    formataddr E (if truthy (from_name self) then from_name self
                  else project_name E)
                 (email_from self) in
  let headers := [] in
  match _message_id E self (realm event) with
  | Raise e => Raise e
  | Return message_id =>
      let headers := dict_set headers "Message-ID" message_id in
      let headers := dict_set headers "Date" (formatdate E) in
      let headers := dict_set headers "From" from_header in
      let headers := dict_set headers "Reply-To" (reply_to self) in
      let recip_adds := map rcpt_address recipients in
      if use_public_cc self then
        Return (from_header, dict_set headers "Cc" (join ", " recip_adds),
                recip_adds)
      else if (to self =? to_default)%string then
        Return (from_header,
                dict_set headers "To" (gettext E "undisclosed-recipients: ;"),
                recip_adds)
      else
        Return (from_header,
                dict_set headers "To" (double_quote +:+ to self +:+ double_quote),
                if truthy (to self) then recip_adds ++ [to self]
                else recip_adds)
  end.

(** Lines 409-413: the root message with the headers written into it. *)
Definition new_root_message (E : Externals) (hdrs : dict string)
    : result Message :=
  match iteritems (python E) hdrs with
  | Raise e => Raise e
  | Return items =>
      Return (fold_left (fun m kv => set_header m (fst kv) (snd kv)) items
                {| headers := []; preamble := ""; parts := [] |})
  end.

(** [formatter.format(transport, realm, style, event)] *)
Definition call_format (f : IAnnouncementFormatter) (transport : string)
    (event : AnnouncementEvent) (style : string) : M text :=
  record (CallFormat (formatter_name f) style);;
  ret (format f transport (realm event) style event).

(** [formatter.alternative_style_for(transport, realm, style)] *)
Definition call_alternative_style_for (f : IAnnouncementFormatter)
    (transport : string) (event : AnnouncementEvent) (style : string)
    : M string :=
  record (CallAlternativeStyleFor (formatter_name f) style);;
  ret (alternative_style_for f transport (realm event) style).

(** Lines 415-442: the primary body, transformed by the crypto engine or
    accompanied by an alternative rendering.  The result is the body, the
    alternative style and the alternative body ([None] as the empty
    text). *)
Definition render (E : Externals) (self : EmailDistributor)
    (transport : string) (event : AnnouncementEvent) (format : string)
    (formatter : IAnnouncementFormatter) (pubkey_ids : list string)
    : M (text * string * option text) :=
  output <- call_format formatter transport event format;;
  if (negb (crypto self =? "")%string && negb (length pubkey_ids =? 0)%nat)%bool then
    if (crypto self =? "sign")%string then
      get_enigma "sign";;
      record (CallSign output (private_key self));;
      ret (sign E output (private_key self), "", None)
    else if (crypto self =? "encrypt")%string then
      get_enigma "encrypt";;
      record (CallEncrypt output pubkey_ids);;
      ret (encrypt E output pubkey_ids, "", None)
    else if (crypto self =? "sign,encrypt")%string then
      get_enigma "sign_encrypt";;
      record (CallSignEncrypt output pubkey_ids (private_key self));;
      ret (sign_encrypt E output pubkey_ids (private_key self), "", None)
    else ret (output, "", None)
  else
    alternate_style <- call_alternative_style_for formatter transport event format;;
    if truthy alternate_style then
      alternate_output <- call_format formatter transport event alternate_style;;
      ret (output, alternate_style, Some alternate_output)
    else ret (output, alternate_style, None).

(** Lines 444-450: the check made when no body encoding is set.  Only the
    decode error is turned into a [TracError]. *)
Definition sanity_check (E : Externals) (self : EmailDistributor)
    (output : text) : M unit :=
  match body_encoding (_charset self) with
  | Some _ => ret tt
  | None =>
      match encode_ascii (python E) output with
      | Return _ => ret tt
      | Raise UnicodeDecodeError =>
          raise (TracError (gettext E
            "Ticket contains non-ASCII chars. Please change encoding setting"))
      | Raise e => raise e
      end
  end.

(** [if isinstance(t, str): t = t.encode('utf-8')] *)
Definition encode_if_str (E : Externals) (t : text) : M text :=
  lift (encode_utf8_if_str (python E) t).

(** [MIMEText(body, subtype)] with the charset set afterwards.  The
    constructor encodes the body: in Python 3 a byte string has no
    [encode]; otherwise the e-mail library may refuse the body. *)
Definition new_MIMEText (E : Externals) (self : EmailDistributor)
    (body : text) (subtype : string) : M MIMEText :=
  match python E, body with
  | Python3, Str _ => raise (AttributeError "encode")
  | _, _ =>
      match MIMEText_refuses E body subtype with
      | Some e => raise e
      | None =>
          ret {| body := body; subtype := subtype; charset := _charset self |}
      end
  end.

(** ['html' in style and 'html' or 'plain'] *)
Definition msg_subtype (style : string) : string :=
  if contains "html" style then "html" else "plain".

(** Lines 452-474: the parts are attached to the root message, the
    alternative, if there is one, before the primary body. *)
Definition build_message (E : Externals) (self : EmailDistributor)
    (root_message : Message) (format : string) (output : text)
    (alternate_style : string) (alternate_output : option text) : M Message :=
  let root_message :=
    {| headers := headers root_message;
       preamble := "This is a multi-part message in MIME format.";
       parts := parts root_message |} in
  match alternate_output with
  | Some alt =>
      if text_truthy alt then
        alt <- encode_if_str E alt;;
        alt_text <- new_MIMEText E self alt (msg_subtype alternate_style);;
        output <- encode_if_str E output;;
        msg_text <- new_MIMEText E self output (msg_subtype format);;
        ret (attach root_message (PartMultipart "alternative" [alt_text; msg_text]))
      else
        output <- encode_if_str E output;;
        msg_text <- new_MIMEText E self output (msg_subtype format);;
        ret (attach root_message (PartText msg_text))
  | None =>
      output <- encode_if_str E output;;
      msg_text <- new_MIMEText E self output (msg_subtype format);;
      ret (attach root_message (PartText msg_text))
  end.

(** [decorator.decorate_message(event, message, decorators)]: the decorator
    does its work and, if it goes on, pops the next decorator off the list
    it was given and calls it.  Every call pops one item, so the recursion
    is bounded by the length of the list; [fuel] is that bound. *)
Fixpoint decorate_message (fuel : nat) (decorator : IAnnouncementEmailDecorator)
    (event : AnnouncementEvent) (message : Message) (decorators : loc)
    : M Message :=
  match fuel with
  | 0 => ret message
  | S fuel =>
      record (CallDecorate (decorator_name decorator) message);;
      let message := decorate decorator event message in
      if calls_next decorator then
        l <- read decorators;;
        match pop l with
        | Some (next, l') =>
            write decorators l';;
            decorate_message fuel next event message decorators
        | None => ret message
        end
      else ret message
  end.

(** [_get_decorators]: [self.decorators[:]], a new list with the same
    items. *)
Definition _get_decorators (self : EmailDistributor) : M loc :=
  l <- read (decorators self);;
  alloc l.

(** Lines 476-480. *)
Definition run_decorators (self : EmailDistributor)
    (event : AnnouncementEvent) (root_message : Message) : M Message :=
  decorators <- _get_decorators self;;
  l <- read decorators;;
  match pop l with
  | Some (decorator, l') =>
      write decorators l';;
      decorate_message (length l) decorator event root_message decorators
  | None => ret root_message
  end.

Definition CR : ascii := ascii_of_nat 13.
Definition LF : ascii := ascii_of_nat 10.

(** [CRLF.join(re.split('\r?\n', message))] *)
Fixpoint crlf_join_split (message : string) : string :=
  match message with
  | EmptyString => EmptyString
  | String c rest =>
      if (c =? LF)%char then String CR (String LF (crlf_join_split rest))
      else if (c =? CR)%char then
        match rest with
        | String c' rest' =>
            if (c' =? LF)%char
            then String CR (String LF (crlf_join_split rest'))
            else String c (crlf_join_split rest)
        | EmptyString => String c EmptyString
        end
      else String c (crlf_join_split rest)
  end.

(** [send]: the line ends are made CRLF and the message goes to the
    sender, which may raise. *)
Definition send (E : Externals) (from_addr : string) (recipients : list string)
    (message : string) : M unit :=
  let message := crlf_join_split message in
  record (CallSend from_addr recipients message);;
  lift (email_sender_send E from_addr recipients message).

(** Lines 482-490: the package goes to the queue or to the sender. *)
Definition deliver (E : Externals) (self : EmailDistributor) (item : package)
    : M unit :=
  let '(from_header, recip_adds, message) := item in
  if use_threaded_delivery self then
    get_delivery_queue;;
    put item
  else
    send E from_header recip_adds message.

(** Lines 444-490: what follows the rendering of the bodies. *)
Definition assemble_and_deliver (E : Externals) (self : EmailDistributor)
    (event : AnnouncementEvent) (from_header : string)
    (recip_adds : list string) (format : string) (root_message : Message)
    (rendered : text * string * option text) : M unit :=
  let '(output, alternate_style, alternate_output) := rendered in
  sanity_check E self output;;
  root_message <- build_message E self root_message format output
                                alternate_style alternate_output;;
  root_message <- run_decorators self event root_message;;
  deliver E self (from_header, recip_adds, as_string E root_message).

(** [_do_send] *)
Definition _do_send (E : Externals) (self : EmailDistributor)
    (transport : string) (event : AnnouncementEvent) (format : string)
    (recipients : list recipient) (formatter : IAnnouncementFormatter)
    (pubkey_ids : option (list string)) : M unit :=
  let pubkey_ids := default [] pubkey_ids in
  env <- lift (envelope E self event recipients);;
  let '(from_header, hdrs, recip_adds) := env in
  if (length recip_adds =? 0)%nat then ret tt
  else
    root_message <- lift (new_root_message E hdrs);;
    rendered <- render E self transport event format formatter pubkey_ids;;
    assemble_and_deliver E self event from_header recip_adds format
                         root_message rendered.

(** ** Distribution *)

Definition transports : list string := ["email"].

Fixpoint for_each {A} (l : list A) (body : A -> M unit) : M unit :=
  match l with
  | [] => ret tt
  | x :: rest => body x;; for_each rest body
  end.

(** [distribute] *)
Definition distribute (E : Externals) (self : EmailDistributor)
    (transport : string) (recipients : list recipient)
    (event : AnnouncementEvent) : M unit :=
  let found := existsb (fun supported_transport =>
                          (supported_transport =? transport)%string)
                       transports in
  if (negb (enabled self) || negb found)%bool then ret tt
  else
    let formats := formats (formatters self) transport (realm event) in
    match formats with
    | [] => ret tt
    | _ =>
        (if negb (crypto self =? "")%string then set_enigma else ret tt);;
        lift (classify_outcome E self formats transport event recipients);;
        let g := classify_all E self formats transport event recipients in
        for_each (msgdict g) (fun kv =>
          let '(k, v) := kv in
          match v, dict_get formats k with
          | _ :: _, Some fmt =>
              _do_send E self transport event k v fmt None
          | _, _ => ret tt
          end);;
        for_each (msgdict_encrypt g) (fun kv =>
          let '(k, v) := kv in
          match v, dict_get formats k with
          | _ :: _, Some fmt =>
              _do_send E self transport event k v fmt (Some (msg_pubkey_ids g))
          | _, _ => ret tt
          end)
    end.

(** The calls made by a computation: what it adds to the trace. *)
Definition is_crypto_call (c : call) : bool :=
  match c with
  | CallSign _ _ | CallEncrypt _ _ | CallSignEncrypt _ _ _ => true
  | _ => false
  end.

Definition is_format_call (c : call) : bool :=
  match c with
  | CallFormat _ _ => true
  | _ => false
  end.

Definition is_alternative_call (c : call) : bool :=
  match c with
  | CallAlternativeStyleFor _ _ => true
  | _ => false
  end.

Definition is_decorate_call (c : call) : bool :=
  match c with
  | CallDecorate _ _ => true
  | _ => false
  end.

Definition is_delivery_call (c : call) : bool :=
  match c with
  | CallSend _ _ _ | CallPut _ => true
  | _ => false
  end.

(** An initial state: the registered decorators at location 0. *)
Definition initial_world (registered : list IAnnouncementEmailDecorator)
    : world :=
  {| heap := {[ 0 := registered ]}; enigma := false;
     delivery_queue := None; trace := [] |}.

(** ** The delivery thread *)

(** [queue.get()]: the oldest item is taken off the queue.  On an empty
    queue the call blocks; a blocked call is embedded as the answer
    [None], at which the thread makes no further step. *)
Definition get : M (option package) :=
  fun w =>
    match delivery_queue w with
    | Some (item :: rest) =>
        (Return (Some item),
         {| heap := heap w; enigma := enigma w;
            delivery_queue := Some rest; trace := trace w |})
    | _ => (Return None, w)
    end.

(** [DeliveryThread.run]: [while 1] one item is taken and handed to the
    sender given at construction, which is [EmailDistributor.send]; an
    exception of the sender ends the loop.  [fuel] bounds the number of
    turns observed. *)
Fixpoint run (E : Externals) (fuel : nat) : M unit :=
  match fuel with
  | 0 => ret tt
  | S fuel =>
      item <- get;;
      match item with
      | Some (send_from, recipients, message) =>
          send E send_from recipients message;;
          run E fuel
      | None => ret tt
      end
  end.

(** ** Notions used in the statements *)

(** [f] advertises [style] for (transport, realm). *)
Definition advertises (transport realm style : string)
    (f : IAnnouncementFormatter) : bool :=
  existsb (fun s => (s =? style)%string) (styles f transport realm).

(** All the recipients held by a grouping map. *)
Definition members (d : dict (list recipient)) : list recipient :=
  concat (dict_values d).

(** The recipients grouped under a format. *)
Definition group (d : dict (list recipient)) (fmt : string) : list recipient :=
  default [] (dict_get d fmt).

(** The crypto operation of a mode, as a call and as a result. *)
Definition crypto_call (self : EmailDistributor) (output : text)
    (pubkey_ids : list string) : call :=
  if (crypto self =? "sign")%string then CallSign output (private_key self)
  else if (crypto self =? "encrypt")%string then CallEncrypt output pubkey_ids
  else CallSignEncrypt output pubkey_ids (private_key self).

Definition crypto_result (E : Externals) (self : EmailDistributor)
    (output : text) (pubkey_ids : list string) : text :=
  if (crypto self =? "sign")%string then sign E output (private_key self)
  else if (crypto self =? "encrypt")%string then encrypt E output pubkey_ids
  else sign_encrypt E output pubkey_ids (private_key self).

(** The names of the decorators a trace shows as called, in order. *)
Definition decorators_called (calls : list call) : list string :=
  omap (fun c => match c with
                 | CallDecorate name _ => Some name
                 | _ => None
                 end) calls.

(** The decorators a chain runs, given the list with the one to be called
    first at its head: each is called, and the chain stops after the first
    that does not go on. *)
Fixpoint chain_of (ds : list IAnnouncementEmailDecorator) : list string :=
  match ds with
  | [] => []
  | d :: rest => decorator_name d :: (if calls_next d then chain_of rest else [])
  end.

(** Whether an address goes to the encrypt path: fixed by the mode and the
    local-exemption pattern alone. *)
Definition to_encrypt (E : Externals) (self : EmailDistributor)
    (address : string) : bool :=
  (crypto_encrypts self &&
   negb (re_search E (rcpt_local_regexp self) address))%bool.

(** The invariant of the loop: the plain map holds addresses not bound for
    encryption, the encrypt map addresses bound for it. *)
Definition sorted_groups (E : Externals) (self : EmailDistributor)
    (g : groups) : Prop :=
  Forall (fun t => to_encrypt E self (rcpt_address t) = false)
         (members (msgdict g)) /\
  Forall (fun t => to_encrypt E self (rcpt_address t) = true)
         (members (msgdict_encrypt g)).

(** A computation that records only calls of the kind [P], and only by
    adding them at the end of the trace. *)
Definition only_calls {A} (P : call -> bool) (m : M A) : Prop :=
  forall w, exists calls,
    trace (snd (m w)) = trace w ++ calls /\ forallb P calls = true.

(** A computation that leaves the list object at [r] as it is. *)
Definition keeps {A} (r : loc) (m : M A) : Prop :=
  forall w, is_Some (heap w !! r) -> heap (snd (m w)) !! r = heap w !! r.

(** A computation that leaves the whole store as it is. *)
Definition keeps_heap {A} (m : M A) : Prop :=
  forall w, heap (snd (m w)) = heap w.

Definition decorate_or_deliver (c : call) : bool :=
  (is_decorate_call c || is_delivery_call c)%bool.

(** The calls of a kind among those recorded, in order. *)
Definition calls_of (P : call -> bool) (calls : list call) : list call :=
  List.filter P calls.

(** A computation that leaves an attribute of the state as it is. *)
Definition preserves {A X} (attribute : world -> X) (m : M A) : Prop :=
  forall w, attribute (snd (m w)) = attribute w.

(** A line feed that no carriage return precedes; [after_cr] tells whether
    the character before the string is a carriage return. *)
Fixpoint bare_lf (after_cr : bool) (s : string) : bool :=
  match s with
  | EmptyString => false
  | String c rest =>
      ((c =? LF)%char && negb after_cr) || bare_lf (c =? CR)%char rest
  end.

(** The call by which the sender receives a package. *)
Definition send_call (item : package) : call :=
  let '(from_addr, recipients, message) := item in
  CallSend from_addr recipients (crlf_join_split message).

Definition not_crypto_call (c : call) : bool := negb (is_crypto_call c).

(** The answer of the first formatter that offers an alternative. *)
Definition first_alternative (fs : list IAnnouncementFormatter)
    (transport realm old_fmt : string) : option string :=
  match find (fun f => truthy (alternative_style_for f transport realm old_fmt)) fs with
  | Some f => Some (alternative_style_for f transport realm old_fmt)
  | None => None
  end.

(** The answer of the first resolver that knows an address. *)
Definition first_address (rs : list IEmailAddressResolver) (name : string)
    (authed : option bool) : option string :=
  match find (fun r => truthy (get_address_for_session r name authed)) rs with
  | Some r => Some (get_address_for_session r name authed)
  | None => None
  end.

(** Whether the loop sends a recipient to the encrypt path. *)
Definition routed_to_encrypt (E : Externals) (self : EmailDistributor)
    (catalog : dict IAnnouncementFormatter) (transport : string)
    (event : AnnouncementEvent) (r : recipient) : bool :=
  let '(name, authed, address) := r in
  let addr := recipient_address self name authed address in
  (truthy (recipient_format E self catalog transport event name authed) &&
   truthy addr && re_search E (rcpt_allow_regexp self) addr &&
   to_encrypt E self addr)%bool.

(** Whether the turn of the loop for a list entry raises: the entry is
    bound for encryption, and the version refuses the comparison of the
    key list with zero (line 278). *)
Definition turn_raises (E : Externals) (self : EmailDistributor)
    (catalog : dict IAnnouncementFormatter) (transport : string)
    (event : AnnouncementEvent) (r : recipient) : bool :=
  (routed_to_encrypt E self catalog transport event r &&
   match python E with Python3 => true | Python2 => false end)%bool.

(** The list entries the loop gets through: those before the first whose
    turn raises. *)
Fixpoint processed (E : Externals) (self : EmailDistributor)
    (catalog : dict IAnnouncementFormatter) (transport : string)
    (event : AnnouncementEvent) (recipients : list recipient)
    : list recipient :=
  match recipients with
  | [] => []
  | r :: rest =>
      if turn_raises E self catalog transport event r then []
      else r :: processed E self catalog transport event rest
  end.

(** The address the loop reaches a list entry at. *)
Definition resolved_address (self : EmailDistributor) (r : recipient) : string :=
  let '(name, authed, address) := r in
  recipient_address self name authed address.

(** [t] under the format [k] is what the loop makes of the list entry [r],
    on the encrypt path or not as [enc] says: the entry is served in [k],
    reached at a non-empty address that the allow pattern accepts, and [t]
    is the entry with that address. *)
Definition grouped_from (E : Externals) (self : EmailDistributor)
    (catalog : dict IAnnouncementFormatter) (transport : string)
    (event : AnnouncementEvent) (enc : bool) (k : string) (t r : recipient)
    : Prop :=
  let '(name, authed, address) := r in
  let fmt := recipient_format E self catalog transport event name authed in
  let addr := recipient_address self name authed address in
  t = (name, authed, addr) /\ k = fmt /\
  truthy fmt = true /\ truthy addr = true /\
  re_search E (rcpt_allow_regexp self) addr = true /\
  to_encrypt E self addr = enc.

(** A grouping map as the loop keeps it: formats listed once, every group
    a non-empty set. *)
Definition grouping_ok (d : dict (list recipient)) : Prop :=
  NoDup (dict_keys d) /\
  Forall (fun kv => NoDup (snd kv) /\ snd kv <> []) d.

(** What has been delivered so far: the queue, and the calls that handed a
    package to the queue or to the sender. *)
Definition delivered (w : world) : option (list package) * list call :=
  (delivery_queue w, calls_of is_delivery_call (trace w)).

(** The message a chain leaves, given the decorators with the one called
    first at the head: each changes the message left by those before it,
    and the chain stops after the first that does not go on. *)
Fixpoint decorated (event : AnnouncementEvent)
    (ds : list IAnnouncementEmailDecorator) (message : Message) : Message :=
  match ds with
  | [] => message
  | d :: rest =>
      let message := decorate d event message in
      if calls_next d then decorated event rest message else message
  end.

(** The call by which a package is delivered. *)
Definition delivery_call (self : EmailDistributor) (item : package) : call :=
  if use_threaded_delivery self then CallPut item else send_call item.

(** The root message as it stands before the decorators: the headers of
    the envelope, the preamble, and the body parts. *)
Definition assembled (hdrs : dict string) (body_parts : list MIMEPart)
    : Message :=
  {| headers := hdrs;
     preamble := "This is a multi-part message in MIME format.";
     parts := body_parts |}.

(** A body as a text part of the message. *)
Definition text_part (self : EmailDistributor) (style : string) (body : text)
    : MIMEText :=
  {| body := body; subtype := msg_subtype style; charset := _charset self |}.

(** The calls a computation adds to the trace of a state. *)
Definition new_calls {A} (m : M A) (w : world) : list call :=
  drop (length (trace w)) (trace (snd (m w))).

(** The calls made while the bodies are rendered. *)
Definition is_render_call (c : call) : bool :=
  (is_format_call c || is_alternative_call c || is_crypto_call c)%bool.

(** The body part of a message: the alternative rendering, if there is a
    non-empty one, and the primary body in one multipart/alternative, the
    primary body last; the primary body alone otherwise. *)
Definition body_part (self : EmailDistributor) (fmt : string) (output : text)
    (alternate_style : string) (alternate_output : option text) : MIMEPart :=
  match alternate_output with
  | Some alt =>
      if text_truthy alt then
        PartMultipart "alternative"
          [text_part self alternate_style alt; text_part self fmt output]
      else PartText (text_part self fmt output)
  | None => PartText (text_part self fmt output)
  end.

(** The text of the message assembled from headers and body parts, after
    the chain of the registered decorators [l]. *)
Definition message_text (E : Externals) (event : AnnouncementEvent)
    (l : list IAnnouncementEmailDecorator) (hdrs : dict string)
    (body_parts : list MIMEPart) : string :=
  as_string E (decorated event (rev l) (assembled hdrs body_parts)).

(** The answer of the sender for a package. *)
Definition sender_answer (E : Externals) (item : package) : result unit :=
  let '(from_addr, recipients, message) := item in
  email_sender_send E from_addr recipients (crlf_join_split message).

(** What the caller of a delivery gets back: nothing under threaded
    delivery, the answer of the sender otherwise. *)
Definition delivery_answer (E : Externals) (self : EmailDistributor)
    (item : package) : result unit :=
  if use_threaded_delivery self then Return tt else sender_answer E item.

(** The queued packages the worker hands to the sender: those up to and
    including the first the sender fails on.  The packages it leaves on
    the queue: those after that one.  How it ends: with the exception of
    the sender, or waiting at the empty queue. *)
Fixpoint handed_over (E : Externals) (queue : list package) : list package :=
  match queue with
  | [] => []
  | item :: rest =>
      item :: match sender_answer E item with
              | Return _ => handed_over E rest
              | Raise _ => []
              end
  end.

Fixpoint left_behind (E : Externals) (queue : list package) : list package :=
  match queue with
  | [] => []
  | item :: rest =>
      match sender_answer E item with
      | Return _ => left_behind E rest
      | Raise _ => rest
      end
  end.

Fixpoint worker_end (E : Externals) (queue : list package) : result unit :=
  match queue with
  | [] => Return tt
  | item :: rest =>
      match sender_answer E item with
      | Return _ => worker_end E rest
      | Raise e => Raise e
      end
  end.

(** The queue after a delivery. *)
Definition queue_after (self : EmailDistributor) (item : package)
    (queue : option (list package)) : option (list package) :=
  if use_threaded_delivery self then Some (default [] queue ++ [item])
  else queue.

(** The state after further calls have been recorded. *)
Definition recorded (w : world) (calls : list call) : world :=
  {| heap := heap w; enigma := enigma w; delivery_queue := delivery_queue w;
     trace := trace w ++ calls |}.

(** ** A small installation, for running the definitions *)

Module Sample.

Definition hello : text := Unicode [104; 101; 108; 108; 111].

(** A body with a code point outside ASCII (e with acute accent). *)
Definition cafe_unicode : text := Unicode [99; 97; 102; 233].

(** The same body as UTF-8 bytes. *)
Definition cafe_bytes : text := Str [99; 97; 102; 195; 169].

Definition tag (n : nat) (t : text) : text :=
  match t with
  | Unicode l => Unicode (n :: l)
  | Str l => Str (n :: l)
  end.

Definition render_headers (m : Message) : string :=
  join ", " (map (fun kv => fst kv +:+ ": " +:+ snd kv) (headers m)).

(** A crypto engine that knows one key, for alice, and a regular
    expression engine for literal patterns. *)
Definition E : Externals :=
  {| python := Python2;
     gettext := fun s => s;
     re_search := fun pattern s => contains pattern s;
     find_by_sid_and_distributor := fun _ _ _ => [];
     get_pubkey_ids := fun address =>
       if (address =? "alice@example.com")%string then ["ABCD"] else [];
     sign := fun t _ => tag 1 t;
     encrypt := fun t _ => tag 2 t;
     sign_encrypt := fun t _ _ => tag 3 t;
     formataddr := fun name address => name +:+ " <" +:+ address +:+ ">";
     formatdate := "Tue, 03 Nov 2026 10:00:00 -0000";
     project_url := "http://localhost/trac";
     modtime := 1793700000%N;
     rand := 4711%N;
     md5_hexdigest := fun _ => "d41d8cd98f00b204e9800998ecf8427e";
     project_name := "My Project";
     MIMEText_refuses := fun _ _ => None;
     as_string := render_headers;
     email_sender_send := fun _ _ _ => Return tt |}.

(** The same installation on another version, with another project URL,
    with another sender. *)
Definition on (v : version) (e : Externals) : Externals :=
  {| python := v; gettext := gettext e; re_search := re_search e;
     find_by_sid_and_distributor := find_by_sid_and_distributor e;
     get_pubkey_ids := get_pubkey_ids e; sign := sign e;
     encrypt := encrypt e; sign_encrypt := sign_encrypt e;
     formataddr := formataddr e; formatdate := formatdate e;
     project_url := project_url e; modtime := modtime e; rand := rand e;
     md5_hexdigest := md5_hexdigest e; project_name := project_name e;
     MIMEText_refuses := MIMEText_refuses e; as_string := as_string e;
     email_sender_send := email_sender_send e |}.

Definition at_url (url : string) (e : Externals) : Externals :=
  {| python := python e; gettext := gettext e; re_search := re_search e;
     find_by_sid_and_distributor := find_by_sid_and_distributor e;
     get_pubkey_ids := get_pubkey_ids e; sign := sign e;
     encrypt := encrypt e; sign_encrypt := sign_encrypt e;
     formataddr := formataddr e; formatdate := formatdate e;
     project_url := url; modtime := modtime e; rand := rand e;
     md5_hexdigest := md5_hexdigest e; project_name := project_name e;
     MIMEText_refuses := MIMEText_refuses e; as_string := as_string e;
     email_sender_send := email_sender_send e |}.

Definition with_sender (sender : string -> list string -> string -> result unit)
    (e : Externals) : Externals :=
  {| python := python e; gettext := gettext e; re_search := re_search e;
     find_by_sid_and_distributor := find_by_sid_and_distributor e;
     get_pubkey_ids := get_pubkey_ids e; sign := sign e;
     encrypt := encrypt e; sign_encrypt := sign_encrypt e;
     formataddr := formataddr e; formatdate := formatdate e;
     project_url := project_url e; modtime := modtime e; rand := rand e;
     md5_hexdigest := md5_hexdigest e; project_name := project_name e;
     MIMEText_refuses := MIMEText_refuses e; as_string := as_string e;
     email_sender_send := sender |}.

(** A project URL with a character outside ASCII (u with diaeresis, as one
    character). *)
Definition umlaut_url : string :=
  "http://m" +:+ String (ascii_of_nat 252) "nchen.example/trac".

(** A sender that fails for bob. *)
Definition bounce_bob (from_addr : string) (recipients : list string)
    (message : string) : result unit :=
  if existsb (fun a => (a =? "bob@example.com")%string) recipients
  then Raise (TracError "connection refused")
  else Return tt.

Definition plain : IAnnouncementFormatter :=
  {| formatter_name := "plain";
     styles := fun _ _ => ["text/plain"];
     alternative_style_for := fun _ _ _ => "";
     format := fun _ _ _ _ => hello |}.

(** A second formatter advertising the same style. *)
Definition plain2 : IAnnouncementFormatter :=
  {| formatter_name := "plain2";
     styles := fun _ _ => ["text/plain"];
     alternative_style_for := fun _ _ _ => "";
     format := fun _ _ _ _ => hello |}.

Definition accented : IAnnouncementFormatter :=
  {| formatter_name := "accented";
     styles := fun _ _ => ["text/plain"];
     alternative_style_for := fun _ _ _ => "";
     format := fun _ _ _ _ => cafe_unicode |}.

Definition accented_bytes : IAnnouncementFormatter :=
  {| formatter_name := "accented_bytes";
     styles := fun _ _ => ["text/plain"];
     alternative_style_for := fun _ _ _ => "";
     format := fun _ _ _ _ => cafe_bytes |}.

Definition opts : Options :=
  {| enabled := true;
     email_from := "trac@localhost";
     from_name := "";
     reply_to := "trac@localhost";
     mime_encoding := "base64";
     use_public_cc := false;
     to := to_default;
     use_threaded_delivery := false;
     default_email_format := "text/plain";
     rcpt_allow_regexp := "";
     rcpt_local_regexp := "@intra.example.com";
     crypto := "";
     gpg_binary := "gpg";
     gpg_home := "";
     private_key := None |}.

Definition with_crypto (mode : string) (o : Options) : Options :=
  {| enabled := enabled o; email_from := email_from o;
     from_name := from_name o; reply_to := reply_to o;
     mime_encoding := mime_encoding o; use_public_cc := use_public_cc o;
     to := to o; use_threaded_delivery := use_threaded_delivery o;
     default_email_format := default_email_format o;
     rcpt_allow_regexp := rcpt_allow_regexp o;
     rcpt_local_regexp := rcpt_local_regexp o;
     crypto := mode; gpg_binary := gpg_binary o; gpg_home := gpg_home o;
     private_key := private_key o |}.

Definition with_to (value : string) (o : Options) : Options :=
  {| enabled := enabled o; email_from := email_from o;
     from_name := from_name o; reply_to := reply_to o;
     mime_encoding := mime_encoding o; use_public_cc := use_public_cc o;
     to := value; use_threaded_delivery := use_threaded_delivery o;
     default_email_format := default_email_format o;
     rcpt_allow_regexp := rcpt_allow_regexp o;
     rcpt_local_regexp := rcpt_local_regexp o;
     crypto := crypto o; gpg_binary := gpg_binary o; gpg_home := gpg_home o;
     private_key := private_key o |}.

Definition with_mime_encoding (value : string) (o : Options) : Options :=
  {| enabled := enabled o; email_from := email_from o;
     from_name := from_name o; reply_to := reply_to o;
     mime_encoding := value; use_public_cc := use_public_cc o;
     to := to o; use_threaded_delivery := use_threaded_delivery o;
     default_email_format := default_email_format o;
     rcpt_allow_regexp := rcpt_allow_regexp o;
     rcpt_local_regexp := rcpt_local_regexp o;
     crypto := crypto o; gpg_binary := gpg_binary o; gpg_home := gpg_home o;
     private_key := private_key o |}.

Definition with_allow (pattern : string) (o : Options) : Options :=
  {| enabled := enabled o; email_from := email_from o;
     from_name := from_name o; reply_to := reply_to o;
     mime_encoding := mime_encoding o; use_public_cc := use_public_cc o;
     to := to o; use_threaded_delivery := use_threaded_delivery o;
     default_email_format := default_email_format o;
     rcpt_allow_regexp := pattern;
     rcpt_local_regexp := rcpt_local_regexp o;
     crypto := crypto o; gpg_binary := gpg_binary o; gpg_home := gpg_home o;
     private_key := private_key o |}.

(** A component over the given formatters and options, its registered
    decorators at location 0; the charset is the one [__init__] sets for
    base64 unless the options say otherwise. *)
Definition component (fs : list IAnnouncementFormatter) (o : Options)
    : EmailDistributor :=
  match __init__ E fs 0 [] o with
  | Return self => self
  | Raise _ =>
      {| formatters := fs; decorators := 0; resolvers := []; options := o;
         _charset := {| input_charset := "utf-8"; header_encoding := Some BASE64;
                        body_encoding := Some BASE64;
                        output_charset := "utf-8" |} |}
  end.

(** A formatter that offers plain text in place of HTML. *)
Definition fallback : IAnnouncementFormatter :=
  {| formatter_name := "fallback";
     styles := fun _ _ => ["text/plain"];
     alternative_style_for := fun _ _ style =>
       if (style =? "text/html")%string then "text/plain" else "";
     format := fun _ _ _ _ => hello |}.

Definition with_default_format (style : string) (o : Options) : Options :=
  {| enabled := enabled o; email_from := email_from o;
     from_name := from_name o; reply_to := reply_to o;
     mime_encoding := mime_encoding o; use_public_cc := use_public_cc o;
     to := to o; use_threaded_delivery := use_threaded_delivery o;
     default_email_format := style;
     rcpt_allow_regexp := rcpt_allow_regexp o;
     rcpt_local_regexp := rcpt_local_regexp o;
     crypto := crypto o; gpg_binary := gpg_binary o; gpg_home := gpg_home o;
     private_key := private_key o |}.

(** Two resolvers: one that knows nobody, one that knows dave. *)
Definition nobody : IEmailAddressResolver :=
  {| resolver_name := "nobody";
     get_address_for_session := fun _ _ => "" |}.

Definition sessions : IEmailAddressResolver :=
  {| resolver_name := "sessions";
     get_address_for_session := fun name _ =>
       if (name =? "dave")%string then "dave@example.com" else "" |}.

Definition with_resolvers (rs : list IEmailAddressResolver)
    (self : EmailDistributor) : EmailDistributor :=
  {| formatters := formatters self; decorators := decorators self;
     resolvers := rs; options := options self; _charset := _charset self |}.

Definition with_public_cc (value : bool) (o : Options) : Options :=
  {| enabled := enabled o; email_from := email_from o;
     from_name := from_name o; reply_to := reply_to o;
     mime_encoding := mime_encoding o; use_public_cc := value;
     to := to o; use_threaded_delivery := use_threaded_delivery o;
     default_email_format := default_email_format o;
     rcpt_allow_regexp := rcpt_allow_regexp o;
     rcpt_local_regexp := rcpt_local_regexp o;
     crypto := crypto o; gpg_binary := gpg_binary o; gpg_home := gpg_home o;
     private_key := private_key o |}.

Definition with_threaded_delivery (value : bool) (o : Options) : Options :=
  {| enabled := enabled o; email_from := email_from o;
     from_name := from_name o; reply_to := reply_to o;
     mime_encoding := mime_encoding o; use_public_cc := use_public_cc o;
     to := to o; use_threaded_delivery := value;
     default_email_format := default_email_format o;
     rcpt_allow_regexp := rcpt_allow_regexp o;
     rcpt_local_regexp := rcpt_local_regexp o;
     crypto := crypto o; gpg_binary := gpg_binary o; gpg_home := gpg_home o;
     private_key := private_key o |}.

(** A formatter that renders HTML and offers plain text beside it. *)
Definition html : IAnnouncementFormatter :=
  {| formatter_name := "html";
     styles := fun _ _ => ["text/html"; "text/plain"];
     alternative_style_for := fun _ _ style =>
       if (style =? "text/html")%string then "text/plain" else "";
     format := fun _ _ style _ =>
       if (style =? "text/html")%string then tag 60 hello else hello |}.

(** A decorator that ends the chain. *)
Definition final : IAnnouncementEmailDecorator :=
  {| decorator_name := "final";
     decorate := fun _ m => set_header m "X-Final" "yes";
     calls_next := false |}.

Definition ticket : AnnouncementEvent :=
  {| realm := "ticket"; payload := "ticket 1 changed" |}.

Definition alice : recipient := ("alice", Some true, "alice@example.com").
Definition bob : recipient := ("bob", Some true, "bob@example.com").
Definition carol : recipient := ("carol", Some true, "carol@intra.example.com").

(** Two decorators that add a header each and go on with the chain. *)
Definition subject : IAnnouncementEmailDecorator :=
  {| decorator_name := "subject";
     decorate := fun _ m => set_header m "Subject" "ticket 1 changed";
     calls_next := true |}.

Definition threading : IAnnouncementEmailDecorator :=
  {| decorator_name := "threading";
     decorate := fun _ m => set_header m "References" "<1@localhost>";
     calls_next := true |}.

End Sample.

(** * Properties *)

(** ** Dictionaries *)

Section DictFacts.
Context {V : Type}.
Implicit Types (d : dict V) (k : string) (v : V).

Lemma dict_get_set_eq d k v : dict_get (dict_set d k v) k = Some v.
Proof.
  induction d as [|[k' v'] d IH]; simpl.
  - by rewrite String.eqb_refl.
  - destruct (String.eqb_spec k' k) as [->|Hne]; simpl.
    + by rewrite String.eqb_refl.
    + by destruct (String.eqb_spec k' k).
Qed.

Lemma dict_get_set_ne d k k' v :
  k <> k' -> dict_get (dict_set d k v) k' = dict_get d k'.
Proof.
  intros Hne. induction d as [|[k0 v0] d IH]; simpl.
  - by destruct (String.eqb_spec k k').
  - destruct (String.eqb_spec k0 k) as [->|Hk]; simpl.
    + by destruct (String.eqb_spec k k').
    + destruct (String.eqb_spec k0 k'); [done | apply IH].
Qed.

Lemma dict_get_set d k k' v :
  dict_get (dict_set d k v) k' =
  if (k =? k')%string then Some v else dict_get d k'.
Proof.
  destruct (String.eqb_spec k k') as [->|Hne].
  - apply dict_get_set_eq.
  - by apply dict_get_set_ne.
Qed.

(** Assigning the same value under several keys. *)
Lemma dict_get_fold_set (ks : list string) d k v :
  dict_get (fold_left (fun d k => dict_set d k v) ks d) k =
  if existsb (fun k' => (k' =? k)%string) ks then Some v else dict_get d k.
Proof.
  revert d. induction ks as [|k0 ks IH]; intros d; simpl; [done |].
  rewrite IH, dict_get_set.
  destruct (String.eqb_spec k0 k); simpl; [| done].
  by destruct (existsb _ ks).
Qed.

End DictFacts.

(** ** The format catalog *)

Lemma formats_snoc fs f transport realm :
  formats (fs ++ [f]) transport realm =
  fold_left (fun formats style => dict_set formats style f)
            (styles f transport realm) (formats fs transport realm).
Proof. unfold formats. by rewrite fold_left_app. Qed.

(** C3, as stated, fails: of two formatters advertising the same style the
    one registered first is the first to advertise it, yet the catalog
    holds the one registered second. *)
Lemma formats_first_registration_overridden :
  find (advertises "email" "ticket" "text/plain") [Sample.plain; Sample.plain2]
    = Some Sample.plain /\
  dict_get (formats [Sample.plain; Sample.plain2] "email" "ticket") "text/plain"
    = Some Sample.plain2 /\
  Sample.plain2 <> Sample.plain.
Proof.
  split; [reflexivity |]. split; [reflexivity |].
  intros H. apply (f_equal formatter_name) in H. discriminate H.
Qed.

(** C3, amended: the catalog built by [formats] maps a style to the
    formatter registered last among those advertising it (a later
    formatter overrides an earlier one), and to none when no formatter
    advertises it. *)
Theorem formats_last_registration_wins fs transport realm style :
  dict_get (formats fs transport realm) style =
  find (advertises transport realm style) (rev fs).
Proof.
  induction fs as [|f fs IH] using rev_ind; [reflexivity |].
  rewrite formats_snoc, rev_app_distr, dict_get_fold_set. simpl.
  unfold advertises at 1.
  by destruct (existsb _ (styles f transport realm)).
Qed.

(** ** Grouping maps *)

Lemma elem_of_set_add t s x : t ∈ set_add s x <-> t = x \/ t ∈ s.
Proof.
  unfold set_add. destruct (decide (x ∈ s)) as [Hin|Hnot].
  - split; [by right | intros [->|H]; done].
  - rewrite elem_of_app, list_elem_of_singleton. tauto.
Qed.

Lemma group_in_members t d k : t ∈ group d k -> t ∈ members d.
Proof.
  unfold group, members, dict_values.
  induction d as [|[k' s] d IH]; simpl; [by rewrite elem_of_nil |].
  rewrite elem_of_app.
  destruct (k' =? k)%string; simpl; [by left | by right; apply IH].
Qed.

Lemma members_dict_set t d k s :
  t ∈ members (dict_set d k s) -> t ∈ s \/ t ∈ members d.
Proof.
  unfold members, dict_values.
  induction d as [|[k' s'] d IH]; simpl.
  - rewrite app_nil_r. by left.
  - destruct (k' =? k)%string; simpl; rewrite !elem_of_app.
    + intros [H|H]; [by left | by right; right].
    + intros [H|H]; [by right; left |].
      destruct (IH H); [by left | by right; right].
Qed.

Lemma members_setdefault_add t d k x :
  t ∈ members (setdefault_add d k x) -> t = x \/ t ∈ members d.
Proof.
  unfold setdefault_add.
  destruct (dict_get d k) as [s|] eqn:Hget; intros H;
    apply members_dict_set in H as [H|H]; try (by right);
    apply elem_of_set_add in H as [H|H]; try (by left).
  - right. apply (group_in_members t d k). unfold group. by rewrite Hget.
  - by apply elem_of_nil in H.
Qed.

Lemma group_setdefault_add d k x k' :
  group (setdefault_add d k x) k' =
  if (k =? k')%string then set_add (group d k) x else group d k'.
Proof.
  unfold group, setdefault_add.
  destruct (dict_get d k) as [s|] eqn:Hget; rewrite dict_get_set;
    destruct (String.eqb_spec k k') as [<-|Hne]; simpl; try done;
    by rewrite Hget.
Qed.

Lemma group_setdefault_add_here d k x : x ∈ group (setdefault_add d k x) k.
Proof.
  rewrite group_setdefault_add, String.eqb_refl.
  apply elem_of_set_add. by left.
Qed.

Lemma group_setdefault_add_mono t d k x k' :
  t ∈ group d k' -> t ∈ group (setdefault_add d k x) k'.
Proof.
  intros H. rewrite group_setdefault_add.
  destruct (String.eqb_spec k k') as [->|Hne]; [| done].
  apply elem_of_set_add. by right.
Qed.

(** ** Classification *)

Section Classification.
Variables (E : Externals) (self : EmailDistributor).
Variables (catalog : dict IAnnouncementFormatter) (transport : string).
Variable event : AnnouncementEvent.

Local Abbreviation step := (classify E self catalog transport event).
Local Abbreviation loop := (classify_loop E self catalog transport event).
Local Abbreviation fmt_of := (recipient_format E self catalog transport event).
Local Abbreviation addr_of := (recipient_address self).
Local Abbreviation to_encrypt := (to_encrypt E self).
Local Abbreviation sorted_groups := (sorted_groups E self).

(** What one turn of the loop does: nothing, one addition to the plain
    map, or, for an entry bound for encryption, one addition to the
    encrypt map under Python 2 and a [TypeError] under Python 3. *)
Lemma classify_cases g name authed address :
  let fmt := fmt_of name authed in
  let addr := addr_of name authed address in
  ((truthy fmt = false \/ truthy addr = false \/
    re_search E (rcpt_allow_regexp self) addr = false) /\
   step g (name, authed, address) = Return g) \/
  (truthy fmt = true /\ truthy addr = true /\
   re_search E (rcpt_allow_regexp self) addr = true /\
   to_encrypt addr = false /\
   step g (name, authed, address) =
     Return {| msgdict := setdefault_add (msgdict g) fmt (name, authed, addr);
               msgdict_encrypt := msgdict_encrypt g;
               msg_pubkey_ids := msg_pubkey_ids g |}) \/
  (truthy fmt = true /\ truthy addr = true /\
   re_search E (rcpt_allow_regexp self) addr = true /\
   to_encrypt addr = true /\ python E = Python2 /\
   step g (name, authed, address) =
     Return {| msgdict := msgdict g;
               msgdict_encrypt :=
                 setdefault_add (msgdict_encrypt g) fmt (name, authed, addr);
               msg_pubkey_ids := msg_pubkey_ids g ++ get_pubkey_ids E addr |}) \/
  (truthy fmt = true /\ truthy addr = true /\
   re_search E (rcpt_allow_regexp self) addr = true /\
   to_encrypt addr = true /\ python E = Python3 /\
   exists what, step g (name, authed, address) = Raise (TypeError what)).
Proof.
  intros fmt addr. unfold classify. fold fmt. fold addr.
  destruct (truthy fmt) eqn:Hfmt; simpl; [| left; split; [by left | done]].
  destruct (truthy addr) eqn:Haddr; [| left; split; [by right; left | done]].
  destruct (re_search E (rcpt_allow_regexp self) addr) eqn:Hallow;
    [| left; split; [by right; right | done]].
  change (crypto_encrypts self && negb (re_search E (rcpt_local_regexp self) addr))%bool
    with (to_encrypt addr).
  destruct (to_encrypt addr) eqn:Henc; [| right; left; done].
  right; right. unfold list_gt_int.
  destruct (python E); [left; done | right].
  repeat split; try done. by eexists.
Qed.

(** The recipients skipped by the loop: no format, no address, or an
    address the allow pattern rejects. *)
Lemma classify_skips g name authed address :
  truthy (fmt_of name authed) = false \/
  truthy (addr_of name authed address) = false \/
  re_search E (rcpt_allow_regexp self) (addr_of name authed address) = false ->
  step g (name, authed, address) = Return g.
Proof.
  unfold classify. intros [H|[H|H]].
  - by rewrite H.
  - destruct (truthy (fmt_of name authed)); simpl; [| done]. by rewrite H.
  - destruct (truthy (fmt_of name authed)); simpl; [| done].
    destruct (truthy (addr_of name authed address)); [| done]. by rewrite H.
Qed.

(** A property of the accumulators that every turn keeps holds of the
    accumulators as the loop leaves them, however it ends. *)
Lemma classify_loop_invariant (P : groups -> Prop) :
  (forall g r g', P g -> step g r = Return g' -> P g') ->
  forall rs g, P g -> P (fst (loop rs g)).
Proof.
  intros Hstep rs. induction rs as [|r rs IH]; intros g Hg; simpl; [done |].
  destruct (step g r) as [g'|e] eqn:Hr; [| done].
  apply IH. by apply (Hstep g r).
Qed.

(** The loop over a list in two pieces. *)
Lemma classify_loop_app rs1 rs2 g :
  snd (loop rs1 g) = Return tt ->
  loop (rs1 ++ rs2) g = loop rs2 (fst (loop rs1 g)).
Proof.
  revert g. induction rs1 as [|r rs1 IH]; intros g; simpl; [done |].
  destruct (step g r) as [g'|e]; [apply IH | done].
Qed.

Lemma classify_sorted g r g' :
  sorted_groups g -> step g r = Return g' -> sorted_groups g'.
Proof.
  destruct r as [[name authed] address]. intros [Hp He] Hstep.
  destruct (classify_cases g name authed address)
    as [[_ Hr]|[(_ & _ & _ & Henc & Hr)|[(_ & _ & _ & Henc & _ & Hr)
        |(_ & _ & _ & _ & _ & what & Hr)]]];
    rewrite Hr in Hstep; try done; injection Hstep as <-; [done | |];
    split; simpl; try done; apply Forall_forall; intros t Ht;
    apply members_setdefault_add in Ht as [->|Ht]; try done.
  - by apply (proj1 (Forall_forall _ _) Hp).
  - by apply (proj1 (Forall_forall _ _) He).
Qed.

Lemma classify_all_sorted rs :
  sorted_groups (classify_all E self catalog transport event rs).
Proof.
  unfold classify_all. apply (classify_loop_invariant sorted_groups).
  - intros g r g'. apply classify_sorted.
  - split; simpl; constructor.
Qed.

(** Nothing leaves the plain map. *)
Lemma classify_plain_mono g r g' t k :
  t ∈ group (msgdict g) k -> step g r = Return g' ->
  t ∈ group (msgdict g') k.
Proof.
  destruct r as [[name authed] address]. intros Ht Hstep.
  destruct (classify_cases g name authed address)
    as [[_ Hr]|[(_ & _ & _ & _ & Hr)|[(_ & _ & _ & _ & _ & Hr)
        |(_ & _ & _ & _ & _ & what & Hr)]]];
    rewrite Hr in Hstep; try done; injection Hstep as <-; simpl; try done.
  by apply group_setdefault_add_mono.
Qed.

Lemma classify_loop_plain_mono rs g t k :
  t ∈ group (msgdict g) k -> t ∈ group (msgdict (fst (loop rs g))) k.
Proof.
  intros Ht. revert Ht.
  apply (classify_loop_invariant (fun g => t ∈ group (msgdict g) k)).
  intros g0 r g' H0 Hstep. by apply (classify_plain_mono g0 r).
Qed.

(** An entry the loop reaches, served in a format, reached at an allowed
    address that is not bound for encryption, is in the plain map under
    that format when the loop ends. *)
Lemma classify_loop_plain before after g name authed address :
  snd (loop before g) = Return tt ->
  truthy (fmt_of name authed) = true ->
  truthy (addr_of name authed address) = true ->
  re_search E (rcpt_allow_regexp self) (addr_of name authed address) = true ->
  to_encrypt (addr_of name authed address) = false ->
  (name, authed, addr_of name authed address)
    ∈ group (msgdict (fst (loop (before ++ (name, authed, address) :: after) g)))
            (fmt_of name authed).
Proof.
  intros Hbefore Hfmt Haddr Hallow Henc.
  rewrite (classify_loop_app before _ g Hbefore). cbn [classify_loop].
  destruct (classify_cases (fst (loop before g)) name authed address)
    as [[Hskip _]|[(_ & _ & _ & _ & ->)|[(_ & _ & _ & Henc' & _)
        |(_ & _ & _ & Henc' & _)]]].
  - destruct Hskip as [H|[H|H]]; congruence.
  - apply classify_loop_plain_mono. simpl. apply group_setdefault_add_here.
  - congruence.
  - congruence.
Qed.

End Classification.

(** C1: at a recipient for whom the crypto engine returns no key
    identifier, under mode [encrypt] and with an address that is not local,
    the loop does not drop the recipient: the comparison of the key list
    with zero holds for the empty list too, so the recipient is added to
    the encrypt group, and no key identifier is accumulated. *)
Theorem recipient_without_key_joins_encrypt_group :
  let self := Sample.component [Sample.plain]
                (Sample.with_crypto "encrypt" Sample.opts) in
  let g := classify_all Sample.E self (formats [Sample.plain] "email" "ticket")
             "email" Sample.ticket [Sample.bob] in
  get_pubkey_ids Sample.E "bob@example.com" = [] /\
  re_search Sample.E (rcpt_local_regexp self) "bob@example.com" = false /\
  msgdict_encrypt g = [("text/plain", [Sample.bob])] /\
  msgdict g = [] /\
  msg_pubkey_ids g = [].
Proof. vm_compute. repeat split; reflexivity. Qed.

(** C2: a recipient without a public key is not skipped by the loop.  With
    mode [encrypt] and bob, who has no key, as the only recipient,
    [distribute] returns normally, calls no crypto operation and hands the
    sender a message for bob's address. *)
Theorem recipient_without_key_is_not_skipped :
  let self := Sample.component [Sample.plain]
                (Sample.with_crypto "encrypt" Sample.opts) in
  let run := distribute Sample.E self "email" [Sample.bob] Sample.ticket
               (initial_world []) in
  fst run = Return tt /\
  calls_of is_crypto_call (trace (snd run)) = [] /\
  exists message,
    last (trace (snd run)) =
    Some (CallSend "My Project <trac@localhost>" ["bob@example.com"] message).
Proof.
  vm_compute. split; [reflexivity |]. split; [reflexivity |].
  eexists. reflexivity.
Qed.

(** A recipient whom the allow pattern rejects does not reach the
    local-exemption test and is in neither group. *)
Example local_recipient_rejected_by_allow_pattern :
  let self := Sample.component [Sample.plain]
                (Sample.with_allow "@example.com"
                   (Sample.with_crypto "encrypt" Sample.opts)) in
  let g := classify_all Sample.E self (formats [Sample.plain] "email" "ticket")
             "email" Sample.ticket [Sample.carol] in
  re_search Sample.E (rcpt_local_regexp self) (rcpt_address Sample.carol) = true /\
  members (msgdict g) = [] /\
  members (msgdict_encrypt g) = [].
Proof. vm_compute. repeat split; reflexivity. Qed.

(** C7: no recipient whose resolved address matches the local-exemption
    pattern is ever in the encrypt group, whatever the crypto mode and
    however the loop ends; and a recipient that reaches the
    local-exemption test of lines 272-295 (the loop gets to the entry, a
    format is found for it, its resolved address is not empty and passes
    the allow pattern) with an address matching the local-exemption
    pattern is in the plain group under its format. *)
Theorem local_recipients_stay_plain E self catalog transport event recipients :
  let g := classify_all E self catalog transport event recipients in
  Forall (fun t => re_search E (rcpt_local_regexp self) (rcpt_address t) = false)
         (members (msgdict_encrypt g)) /\
  forall before name authed address after,
    recipients = before ++ (name, authed, address) :: after ->
    classify_outcome E self catalog transport event before = Return tt ->
    let fmt := recipient_format E self catalog transport event name authed in
    let addr := recipient_address self name authed address in
    truthy fmt = true ->
    truthy addr = true ->
    re_search E (rcpt_allow_regexp self) addr = true ->
    re_search E (rcpt_local_regexp self) addr = true ->
    (name, authed, addr) ∈ group (msgdict g) fmt.
Proof.
  intros g. split.
  - destruct (classify_all_sorted E self catalog transport event recipients)
      as [_ He].
    eapply Forall_impl; [exact He |].
    intros t Ht. unfold to_encrypt in Ht.
    apply andb_true_iff in Ht as [_ Ht]. by apply negb_true_iff in Ht.
  - intros before name authed address after -> Hbefore fmt addr
           Hfmt Haddr Hallow Hlocal.
    subst g. unfold classify_all.
    apply classify_loop_plain; try done.
    unfold to_encrypt. fold addr. rewrite Hlocal. apply andb_false_r.
Qed.

Lemma local_recipients_stay_plain_witness :
  let self := Sample.component [Sample.plain]
                (Sample.with_crypto "encrypt" Sample.opts) in
  let g := classify_all Sample.E self (formats [Sample.plain] "email" "ticket")
             "email" Sample.ticket [Sample.alice; Sample.carol] in
  Sample.carol ∈ group (msgdict g) "text/plain".
Proof.
  intros self g.
  apply (proj2 (local_recipients_stay_plain Sample.E self
                  (formats [Sample.plain] "email" "ticket") "email"
                  Sample.ticket [Sample.alice; Sample.carol])
               [Sample.alice] "carol" (Some true) "carol@intra.example.com" []).
  - reflexivity.
  - reflexivity.
  - reflexivity.
  - reflexivity.
  - reflexivity.
  - reflexivity.
Defined.

(** C8: within one call of [distribute] no recipient tuple is both in the
    plain grouping map and in the encrypt grouping map, whatever the
    formats they are grouped under. *)
Theorem plain_and_encrypt_groups_disjoint E self catalog transport event
    recipients :
  let g := classify_all E self catalog transport event recipients in
  members (msgdict g) ## members (msgdict_encrypt g).
Proof.
  intros g t Hp He.
  destruct (classify_all_sorted E self catalog transport event recipients)
    as [Hplain Henc].
  apply (proj1 (Forall_forall _ _) Hplain) in Hp.
  apply (proj1 (Forall_forall _ _) Henc) in He.
  congruence.
Qed.

(** ** Effects *)

Section Effects.
Context {A B : Type}.

Lemma bind_Return (m : M A) (k : A -> M B) w a w' :
  m w = (Return a, w') -> bind m k w = k a w'.
Proof. unfold bind. by intros ->. Qed.

Lemma bind_Raise (m : M A) (k : A -> M B) w e w' :
  m w = (Raise e, w') -> bind m k w = (Raise e, w').
Proof. unfold bind. by intros ->. Qed.

Lemma only_calls_ret P (a : A) : only_calls P (ret a).
Proof. intros w. exists []. by rewrite app_nil_r. Qed.

Lemma only_calls_raise P e : only_calls P (raise e : M A).
Proof. intros w. exists []. by rewrite app_nil_r. Qed.

Lemma only_calls_bind P (m : M A) (k : A -> M B) :
  only_calls P m -> (forall a, only_calls P (k a)) -> only_calls P (bind m k).
Proof.
  intros Hm Hk w. destruct (Hm w) as (c1 & H1 & F1). unfold bind.
  destruct (m w) as [[a|e] w1]; simpl in *.
  - destruct (Hk a w1) as (c2 & H2 & F2). exists (c1 ++ c2).
    rewrite H2, H1, app_assoc, forallb_app, F1, F2. done.
  - by exists c1.
Qed.

Lemma keeps_heap_ret (a : A) : keeps_heap (ret a).
Proof. by intros w. Qed.

Lemma keeps_heap_raise e : keeps_heap (raise e : M A).
Proof. by intros w. Qed.

Lemma keeps_heap_bind (m : M A) (k : A -> M B) :
  keeps_heap m -> (forall a, keeps_heap (k a)) -> keeps_heap (bind m k).
Proof.
  intros Hm Hk w. specialize (Hm w). unfold bind.
  destruct (m w) as [[a|e] w1]; simpl in *; [| done].
  by rewrite Hk.
Qed.

Lemma keeps_bind r (m : M A) (k : A -> M B) :
  keeps r m -> (forall a, keeps r (k a)) -> keeps r (bind m k).
Proof.
  intros Hm Hk w Hw. specialize (Hm w Hw). unfold bind.
  destruct (m w) as [[a|e] w1]; simpl in *; [| done].
  rewrite Hk; [done | by rewrite Hm].
Qed.

Lemma keeps_heap_keeps r (m : M A) : keeps_heap m -> keeps r m.
Proof. intros H w _. by rewrite H. Qed.

End Effects.

Lemma only_calls_record P c : P c = true -> only_calls P (record c).
Proof. intros H w. exists [c]. simpl. by rewrite H. Qed.

Lemma only_calls_weaken {A} (P Q : call -> bool) (m : M A) :
  (forall c, P c = true -> Q c = true) -> only_calls P m -> only_calls Q m.
Proof.
  intros HPQ Hm w. destruct (Hm w) as (calls & Ht & Hf). exists calls.
  split; [done |]. apply forallb_forall. intros c Hc.
  apply HPQ. by apply (proj1 (forallb_forall _ _) Hf).
Qed.

(** ** The decorator chain *)

Lemma decorators_called_app l1 l2 :
  decorators_called (l1 ++ l2) = decorators_called l1 ++ decorators_called l2.
Proof. unfold decorators_called. apply omap_app. Qed.

Lemma pop_None {A} (l : list A) : pop l = None -> l = [].
Proof.
  unfold pop. destruct (rev l) eqn:Hrev; [| done].
  intros _. apply (f_equal (@rev A)) in Hrev. by rewrite rev_involutive in Hrev.
Qed.

Lemma pop_Some {A} (l : list A) x l' :
  pop l = Some (x, l') -> rev l = x :: rev l' /\ length l = S (length l').
Proof.
  unfold pop. destruct (rev l) as [|y r] eqn:Hrev; [done |].
  intros [= <- <-]. rewrite rev_involutive. split; [done |].
  rewrite length_rev, <- (length_rev l), Hrev. done.
Qed.

(** One call of the chain, spelled out on the state. *)
Lemma decorate_message_step fuel d event m r w :
  decorate_message (S fuel) d event m r w =
  if calls_next d then
    match pop (default [] (heap w !! r)) with
    | Some (next, l') =>
        decorate_message fuel next event (decorate d event m) r
          {| heap := <[r := l']> (heap w); enigma := enigma w;
             delivery_queue := delivery_queue w;
             trace := trace w ++ [CallDecorate (decorator_name d) m] |}
    | None =>
        (Return (decorate d event m),
         recorded w [CallDecorate (decorator_name d) m])
    end
  else (Return (decorate d event m),
        recorded w [CallDecorate (decorator_name d) m]).
Proof.
  cbn [decorate_message]. unfold bind, record, read, write, ret, recorded.
  destruct (calls_next d); [| reflexivity].
  simpl. by destruct (pop _) as [[next l']|].
Qed.

(** With fuel above the length of the list, the chain runs to its end:
    the decorators called are those of the chain, and the result is
    normal. *)
Lemma decorate_message_chain fuel :
  forall d event m r w l,
    heap w !! r = Some l ->
    length l < fuel ->
    exists m' w',
      decorate_message fuel d event m r w = (Return m', w') /\
      decorators_called (trace w') =
        decorators_called (trace w) ++ chain_of (d :: rev l).
Proof.
  induction fuel as [|fuel IH]; intros d event m r w l Hl Hfuel; [lia |].
  rewrite decorate_message_step, Hl.
  change (default [] (Some l)) with l. cbn [chain_of].
  destruct (calls_next d).
  - destruct (pop l) as [[next l']|] eqn:Hpop.
    + apply pop_Some in Hpop as [Hrev Hlen].
      match goal with |- context [decorate_message fuel next event ?m1 r ?w1] =>
        destruct (IH next event m1 r w1 l') as (m'' & w'' & Hrun & Hcalled)
      end.
      { cbn [heap]. apply lookup_insert_eq. }
      { lia. }
      exists m'', w''. split; [exact Hrun |].
      rewrite Hcalled. cbn [trace]. rewrite decorators_called_app, Hrev.
      cbn [chain_of]. by rewrite <- app_assoc.
    + apply pop_None in Hpop as ->.
      eexists _, _. split; [reflexivity |].
      cbn [recorded trace]. by rewrite decorators_called_app.
  - eexists _, _. split; [reflexivity |].
    cbn [recorded trace]. by rewrite decorators_called_app.
Qed.

(** The chain writes to the list it was given and to no other. *)
Lemma decorate_message_frame fuel :
  forall d event m r w r',
    r' <> r ->
    heap (snd (decorate_message fuel d event m r w)) !! r' = heap w !! r'.
Proof.
  induction fuel as [|fuel IH]; intros d event m r w r' Hne; [done |].
  rewrite decorate_message_step.
  destruct (calls_next d); [| done].
  destruct (pop _) as [[next l']|]; [| done].
  rewrite IH by done. cbn [heap]. by apply lookup_insert_ne.
Qed.

Lemma only_calls_silent {A} P (m : M A) :
  (forall w, trace (snd (m w)) = trace w) -> only_calls P m.
Proof. intros H w. exists []. by rewrite app_nil_r. Qed.

Lemma decorate_message_only_calls fuel :
  forall d event m r,
    only_calls is_decorate_call (decorate_message fuel d event m r).
Proof.
  induction fuel as [|fuel IH]; intros d event m r; [apply only_calls_ret |].
  cbn [decorate_message].
  apply only_calls_bind; [by apply only_calls_record |]. intros _.
  destruct (calls_next d); [| apply only_calls_ret].
  apply only_calls_bind; [by apply only_calls_silent |].
  intros l. destruct (pop l) as [[next l']|]; [| apply only_calls_ret].
  apply only_calls_bind; [by apply only_calls_silent | intros _; apply IH].
Qed.

(** [run_decorators], spelled out on the state: the copy is a new object,
    and the chain pops from the copy. *)
Lemma run_decorators_step self event m w :
  let l := default [] (heap w !! decorators self) in
  let r := fresh (dom (heap w)) in
  run_decorators self event m w =
  match pop l with
  | Some (d, l') =>
      decorate_message (length l) d event m r
        {| heap := <[r := l']> (<[r := l]> (heap w)); enigma := enigma w;
           delivery_queue := delivery_queue w; trace := trace w |}
  | None =>
      (Return m,
       {| heap := <[r := l]> (heap w); enigma := enigma w;
          delivery_queue := delivery_queue w; trace := trace w |})
  end.
Proof.
  intros l r. unfold run_decorators, _get_decorators, bind, read, alloc, write, ret.
  cbn [heap enigma delivery_queue trace].
  fold l. fold r. rewrite lookup_insert_eq. change (default [] (Some l)) with l.
  by destruct (pop l) as [[d l']|].
Qed.

Lemma fresh_loc_ne (h : gmap loc (list IAnnouncementEmailDecorator)) r :
  is_Some (h !! r) -> r <> fresh (dom h).
Proof.
  intros Hr Heq. apply elem_of_dom in Hr. rewrite Heq in Hr.
  by apply is_fresh in Hr.
Qed.

(** The chain leaves every list object that existed before it as it was:
    it works on its own copy. *)
Lemma run_decorators_keeps self event m r :
  keeps r (run_decorators self event m).
Proof.
  intros w Hr. rewrite run_decorators_step.
  pose proof (fresh_loc_ne _ _ Hr) as Hne.
  destruct (pop _) as [[d l']|].
  - rewrite decorate_message_frame by done. cbn [heap].
    by rewrite !lookup_insert_ne.
  - cbn [snd heap]. by rewrite lookup_insert_ne.
Qed.

Lemma run_decorators_only_calls self event m :
  only_calls is_decorate_call (run_decorators self event m).
Proof.
  unfold run_decorators, _get_decorators.
  apply only_calls_bind.
  { apply only_calls_bind; [by apply only_calls_silent |].
    intros l. by apply only_calls_silent. }
  intros r. apply only_calls_bind; [by apply only_calls_silent |].
  intros l. destruct (pop l) as [[d l']|]; [| apply only_calls_ret].
  apply only_calls_bind; [by apply only_calls_silent |].
  intros _. apply decorate_message_only_calls.
Qed.

(** The chain run for a message is the whole chain of the registered
    list, last registered first. *)
Lemma run_decorators_chain self event m w l :
  heap w !! decorators self = Some l ->
  exists m' w',
    run_decorators self event m w = (Return m', w') /\
    decorators_called (trace w') = decorators_called (trace w) ++ chain_of (rev l).
Proof.
  intros Hl. rewrite run_decorators_step, Hl.
  change (default [] (Some l)) with l.
  destruct (pop l) as [[d l']|] eqn:Hpop.
  - apply pop_Some in Hpop as [Hrev Hlen].
    match goal with |- context [decorate_message _ d event m ?r ?w1] =>
      destruct (decorate_message_chain (length l) d event m r w1 l')
        as (m' & w' & Hrun & Hcalled)
    end.
    { cbn [heap]. apply lookup_insert_eq. }
    { lia. }
    exists m', w'. split; [exact Hrun |].
    rewrite Hcalled. cbn [trace]. by rewrite Hrev.
  - apply pop_None in Hpop as ->.
    eexists _, _. split; [reflexivity |].
    cbn [trace rev chain_of]. by rewrite app_nil_r.
Qed.

(** ** Calls and state *)

Lemma calls_of_none P Q calls :
  forallb P calls = true ->
  (forall c, P c = true -> Q c = false) ->
  calls_of Q calls = [].
Proof.
  intros Hall HPQ. induction calls as [|c calls IH]; [done |].
  simpl in Hall. apply andb_true_iff in Hall as [Hc Hall].
  unfold calls_of in *. simpl. rewrite (HPQ c Hc). by apply IH.
Qed.

Lemma calls_of_cons P c calls :
  calls_of P (c :: calls) = if P c then c :: calls_of P calls else calls_of P calls.
Proof. reflexivity. Qed.

Lemma calls_of_app P l1 l2 : calls_of P (l1 ++ l2) = calls_of P l1 ++ calls_of P l2.
Proof. unfold calls_of. apply List.filter_app. Qed.

Lemma new_calls_app {A} (m : M A) w calls :
  trace (snd (m w)) = trace w ++ calls -> new_calls m w = calls.
Proof. unfold new_calls. intros ->. apply drop_app_length. Qed.

Section Preserved.
Context {A B X : Type} (attribute : world -> X).

Lemma preserves_ret (a : A) : preserves attribute (ret a).
Proof. by intros w. Qed.

Lemma preserves_raise e : preserves attribute (raise e : M A).
Proof. by intros w. Qed.

Lemma preserves_lift (r : result A) : preserves attribute (lift r).
Proof. by intros w. Qed.

Lemma preserves_bind (m : M A) (k : A -> M B) :
  preserves attribute m -> (forall a, preserves attribute (k a)) ->
  preserves attribute (bind m k).
Proof.
  intros Hm Hk w. specialize (Hm w). unfold bind.
  destruct (m w) as [[a|e] w1]; simpl in *; [| done].
  by rewrite Hk.
Qed.

Lemma preserves_state (m : M A) :
  (forall w, snd (m w) = w) -> preserves attribute m.
Proof. intros H w. by rewrite H. Qed.

End Preserved.

Lemma record_preserves_delivered c :
  is_delivery_call c = false -> preserves delivered (record c).
Proof.
  intros Hc w. unfold delivered, record. cbn [snd delivery_queue trace].
  rewrite calls_of_app. unfold calls_of at 2. cbn [List.filter].
  by rewrite Hc, app_nil_r.
Qed.

Lemma delivered_recorded w calls :
  calls_of is_delivery_call calls = [] ->
  delivered (recorded w calls) = delivered w.
Proof.
  intros Hcalls. unfold delivered, recorded. cbn [delivery_queue trace].
  by rewrite calls_of_app, Hcalls, app_nil_r.
Qed.

Lemma decorate_message_preserves_queue fuel :
  forall d event m r,
    preserves delivery_queue (decorate_message fuel d event m r).
Proof.
  induction fuel as [|fuel IH]; intros d event m r w; [done |].
  rewrite decorate_message_step.
  destruct (calls_next d); [| done].
  destruct (pop _) as [[next l']|]; [| done].
  by rewrite IH.
Qed.

Lemma run_decorators_preserves_queue self event m :
  preserves delivery_queue (run_decorators self event m).
Proof.
  intros w. rewrite run_decorators_step.
  destruct (pop _) as [[d l']|]; [| done].
  by rewrite decorate_message_preserves_queue.
Qed.

Lemma run_decorators_preserves_delivered self event m :
  preserves delivered (run_decorators self event m).
Proof.
  intros w. unfold delivered. f_equal.
  - apply run_decorators_preserves_queue.
  - destruct (run_decorators_only_calls self event m w) as (calls & -> & Hcalls).
    rewrite calls_of_app.
    rewrite (calls_of_none is_decorate_call is_delivery_call calls Hcalls).
    + apply app_nil_r.
    + by intros [].
Qed.

(** ** The decorated message *)

Lemma decorate_message_result fuel :
  forall d event m r w l,
    heap w !! r = Some l ->
    length l < fuel ->
    fst (decorate_message fuel d event m r w)
    = Return (decorated event (d :: rev l) m).
Proof.
  induction fuel as [|fuel IH]; intros d event m r w l Hl Hfuel; [lia |].
  rewrite decorate_message_step, Hl.
  change (default [] (Some l)) with l. cbn [decorated].
  destruct (calls_next d); [| done].
  destruct (pop l) as [[next l']|] eqn:Hpop.
  - apply pop_Some in Hpop as [Hrev Hlen]. rewrite Hrev.
    apply IH; [cbn [heap]; apply lookup_insert_eq | lia].
  - by apply pop_None in Hpop as ->.
Qed.

Lemma run_decorators_result self event m w l :
  heap w !! decorators self = Some l ->
  fst (run_decorators self event m w) = Return (decorated event (rev l) m).
Proof.
  intros Hl. rewrite run_decorators_step, Hl.
  change (default [] (Some l)) with l.
  destruct (pop l) as [[d l']|] eqn:Hpop.
  - apply pop_Some in Hpop as [Hrev Hlen]. rewrite Hrev.
    apply decorate_message_result; [cbn [heap]; apply lookup_insert_eq | lia].
  - by apply pop_None in Hpop as ->.
Qed.

Lemma decorated_all_call_next event ds m :
  Forall (fun d => calls_next d = true) ds ->
  decorated event ds m = fold_left (fun m d => decorate d event m) ds m.
Proof.
  intros Hds. revert m.
  induction Hds as [|d ds Hd Hds IH]; intros m; [done |].
  cbn [decorated fold_left]. by rewrite Hd, IH.
Qed.

(** The chain over the registered list as the store has it (no list at
    the location counts as the empty list): the message it leaves, the
    calls it makes, and what it leaves alone. *)
Lemma run_decorators_run self event m w :
  let l := default [] (heap w !! decorators self) in
  exists w' calls,
    run_decorators self event m w = (Return (decorated event (rev l) m), w') /\
    trace w' = trace w ++ calls /\
    forallb is_decorate_call calls = true /\
    decorators_called calls = chain_of (rev l) /\
    delivery_queue w' = delivery_queue w.
Proof.
  intros l.
  assert (exists m' w',
            run_decorators self event m w = (Return m', w') /\
            m' = decorated event (rev l) m /\
            decorators_called (trace w')
              = decorators_called (trace w) ++ chain_of (rev l))
    as (m' & w' & Hrun & -> & Hcalled).
  { rewrite run_decorators_step. fold l.
    destruct (pop l) as [[d l']|] eqn:Hpop.
    - apply pop_Some in Hpop as [Hrev Hlen].
      match goal with |- context [decorate_message _ d event m ?r ?w1] =>
        destruct (decorate_message_chain (length l) d event m r w1 l')
          as (m' & w' & Hrun & Hcalled);
        [cbn [heap]; apply lookup_insert_eq | lia |];
        pose proof (decorate_message_result (length l) d event m r w1 l') as Hres
      end.
      rewrite Hrun in Hres. cbn [fst] in Hres.
      exists m', w'. split; [exact Hrun |]. split.
      + rewrite Hrev.
        assert (Return m' = Return (decorated event (d :: rev l') m)) as Heq.
        { apply Hres; [cbn [heap]; apply lookup_insert_eq | lia]. }
        by injection Heq.
      + rewrite Hcalled. cbn [trace]. by rewrite Hrev.
    - apply pop_None in Hpop. rewrite Hpop.
      eexists _, _. split; [reflexivity |]. split; [done |].
      cbn [trace rev chain_of]. by rewrite app_nil_r. }
  destruct (run_decorators_only_calls self event m w) as (calls & Htrace & Hcalls).
  rewrite Hrun in Htrace. cbn [snd] in Htrace.
  exists w', calls. split; [exact Hrun |]. split; [exact Htrace |].
  split; [exact Hcalls |]. split.
  - rewrite Htrace, decorators_called_app in Hcalled.
    by apply app_inv_head in Hcalled.
  - pose proof (run_decorators_preserves_queue self event m w) as Hq.
    by rewrite Hrun in Hq.
Qed.

(** The chain leaves the message changed by the decorators in turn, the
    one registered last first, each working on what those before it left,
    the chain ending after a decorator that does not go on; when every
    decorator goes on, all of them are applied, in reverse order of
    registration. *)
Theorem run_decorators_message self event message w l :
  heap w !! decorators self = Some l ->
  fst (run_decorators self event message w)
    = Return (decorated event (rev l) message) /\
  (Forall (fun d => calls_next d = true) l ->
   decorated event (rev l) message
   = fold_left (fun m d => decorate d event m) (rev l) message).
Proof.
  intros Hl. split; [by apply run_decorators_result |].
  intros Hall. apply decorated_all_call_next. by apply List.Forall_rev.
Qed.

Lemma run_decorators_message_witness :
  let self := Sample.component [Sample.plain] Sample.opts in
  let root := {| headers := []; preamble := ""; parts := [] |} in
  fst (run_decorators self Sample.ticket root
         (initial_world [Sample.subject; Sample.final; Sample.threading]))
  = Return (set_header (set_header root "References" "<1@localhost>")
                       "X-Final" "yes").
Proof.
  intros self root.
  apply (proj1 (run_decorators_message self Sample.ticket root
                  (initial_world [Sample.subject; Sample.final; Sample.threading])
                  [Sample.subject; Sample.final; Sample.threading] eq_refl)).
Defined.

(** ** The message identifier *)

Lemma hashlib_md5_cases E s :
  (python E = Python3 /\
   hashlib_md5 E s = Raise (TypeError "Strings must be encoded before hashing")) \/
  (python E = Python2 /\ string_is_ascii s = false /\
   hashlib_md5 E s = Raise UnicodeEncodeError) \/
  (python E = Python2 /\ string_is_ascii s = true /\
   hashlib_md5 E s = Return (md5_hexdigest E s)).
Proof.
  unfold hashlib_md5. destruct (python E); [| by left].
  right. destruct (string_is_ascii s); [right | left]; done.
Qed.

Lemma _message_id_python3 E self realm :
  python E = Python3 ->
  _message_id E self realm
  = Raise (TypeError "Strings must be encoded before hashing").
Proof. intros Hpy. unfold _message_id, hashlib_md5. by rewrite Hpy. Qed.

Lemma _message_id_Return E self realm id :
  _message_id E self realm = Return id -> python E = Python2.
Proof.
  unfold _message_id.
  match goal with |- context [hashlib_md5 E ?s] =>
    destruct (hashlib_md5_cases E s) as [[_ ->]|[(_ & _ & ->)|(Hpy & _ & _)]]
  end; done.
Qed.

(** ** The envelope *)

Lemma envelope_Raise E self event recipients e :
  envelope E self event recipients = Raise e <->
  _message_id E self (realm event) = Raise e.
Proof.
  unfold envelope. destruct (_message_id E self (realm event)) as [id|e'].
  - destruct (use_public_cc self); [by split |].
    destruct (to self =? to_default)%string; by split.
  - split; intros [= ->]; reflexivity.
Qed.

Lemma envelope_python3 E self event recipients :
  python E = Python3 ->
  envelope E self event recipients
  = Raise (TypeError "Strings must be encoded before hashing").
Proof. intros Hpy. by apply envelope_Raise, _message_id_python3. Qed.

Lemma envelope_Return E self event recipients env :
  envelope E self event recipients = Return env ->
  python E = Python2 /\
  exists id, _message_id E self (realm event) = Return id.
Proof.
  intros Henv.
  destruct (_message_id E self (realm event)) as [id|e] eqn:Hid.
  - split; [by eapply _message_id_Return | by exists id].
  - apply (proj2 (envelope_Raise E self event recipients e)) in Hid.
    congruence.
Qed.

(** The headers of the envelope have distinct names, so the root message
    they are written into carries exactly them. *)
Lemma new_root_message_envelope E self event recipients from_header hdrs
    recip_adds :
  envelope E self event recipients = Return (from_header, hdrs, recip_adds) ->
  new_root_message E hdrs
  = Return {| headers := hdrs; preamble := ""; parts := [] |}.
Proof.
  intros Henv. destruct (envelope_Return _ _ _ _ _ Henv) as [Hpy _].
  unfold new_root_message, iteritems. rewrite Hpy.
  revert Henv. unfold envelope.
  destruct (_message_id E self (realm event)) as [id|e]; [| done].
  destruct (use_public_cc self).
  - intros [= _ <- _]. reflexivity.
  - destruct (to self =? to_default)%string; intros [= _ <- _]; reflexivity.
Qed.

(** ** Assembly of a message *)

Lemma sanity_check_state E self output w :
  snd (sanity_check E self output w) = w.
Proof.
  unfold sanity_check, ret, raise.
  destruct (body_encoding _); [done |].
  destruct (encode_ascii (python E) output) as [t|[]]; done.
Qed.

Lemma encode_if_str_state E t w : snd (encode_if_str E t w) = w.
Proof. reflexivity. Qed.

Lemma new_MIMEText_state E self b s w : snd (new_MIMEText E self b s w) = w.
Proof.
  unfold new_MIMEText.
  destruct (python E), b; try reflexivity;
    by destruct (MIMEText_refuses E _ s).
Qed.

Lemma bind_state {A B} (m : M A) (k : A -> M B) w :
  snd (m w) = w -> (forall a, snd (k a w) = w) -> snd (bind m k w) = w.
Proof.
  intros Hm Hk. unfold bind. destruct (m w) as [[a|e] w1]; cbn [snd] in *.
  - subst w1. apply Hk.
  - done.
Qed.

Lemma build_message_state E self root format output alternate_style
    alternate_output w :
  snd (build_message E self root format output alternate_style
         alternate_output w) = w.
Proof.
  unfold build_message.
  destruct alternate_output as [alt|]; [destruct (text_truthy alt) |];
    repeat first
      [ apply bind_state; [| intros ?]
      | apply encode_if_str_state
      | apply new_MIMEText_state
      | reflexivity ].
Qed.

(** Under Python 2 a body that is accepted goes into the message as it
    is. *)
Lemma encode_if_str_python2 E t w :
  python E = Python2 ->
  encode_if_str E t w = (Return t, w) \/
  exists e, encode_if_str E t w = (Raise e, w).
Proof.
  intros Hpy. unfold encode_if_str, lift, encode_utf8_if_str. rewrite Hpy.
  destruct t as [cps|bs]; [by left |].
  destruct (all_ascii bs); [by left | right; by eexists].
Qed.

Lemma new_MIMEText_run E self b s w :
  python E = Python2 ->
  new_MIMEText E self b s w
    = (Return {| body := b; subtype := s; charset := _charset self |}, w) \/
  exists e, new_MIMEText E self b s w = (Raise e, w).
Proof.
  intros Hpy. unfold new_MIMEText. rewrite Hpy.
  destruct (MIMEText_refuses E b s) as [e|].
  - right. by exists e.
  - by left.
Qed.

Lemma text_part_run E self style t w :
  python E = Python2 ->
  bind (encode_if_str E t)
       (fun t => new_MIMEText E self t (msg_subtype style)) w
    = (Return (text_part self style t), w) \/
  exists e, bind (encode_if_str E t)
                 (fun t => new_MIMEText E self t (msg_subtype style)) w
            = (Raise e, w).
Proof.
  intros Hpy.
  destruct (encode_if_str_python2 E t w Hpy) as [Ht|[e Ht]].
  - rewrite (bind_Return _ _ _ _ _ Ht).
    destruct (new_MIMEText_run E self t (msg_subtype style) w Hpy)
      as [Hm|[e Hm]].
    + by left.
    + right. by exists e.
  - right. exists e. by apply bind_Raise.
Qed.

Lemma bind_assoc {A B C} (m : M A) (k : A -> M B) (h : B -> M C) w :
  bind (bind m k) h w = bind m (fun a => bind (k a) h) w.
Proof. unfold bind. by destruct (m w) as [[a|e] w1]. Qed.

(** The message built, under Python 2: the headers and parts of the root
    message handed in, the preamble, and one more part with the bodies,
    or an exception with nothing changed. *)
Lemma build_message_run E self root format output alternate_style
    alternate_output w :
  python E = Python2 ->
  build_message E self root format output alternate_style alternate_output w
    = (Return {| headers := headers root;
                 preamble := "This is a multi-part message in MIME format.";
                 parts := parts root ++
                          [body_part self format output alternate_style
                                     alternate_output] |}, w) \/
  exists e,
    build_message E self root format output alternate_style alternate_output w
      = (Raise e, w).
Proof.
  intros Hpy. unfold build_message, body_part.
  assert (forall (t : text) style (k : MIMEText -> M Message) w0,
            bind (encode_if_str E t)
                 (fun t => bind (new_MIMEText E self t (msg_subtype style)) k) w0
            = k (text_part self style t) w0 \/
            exists e,
              bind (encode_if_str E t)
                   (fun t => bind (new_MIMEText E self t (msg_subtype style)) k) w0
              = (Raise e, w0)) as Hpart.
  { intros t style k w0. rewrite <- bind_assoc.
    destruct (text_part_run E self style t w0 Hpy) as [H|[e H]].
    - left. by apply bind_Return.
    - right. exists e. by apply bind_Raise. }
  destruct alternate_output as [alt|]; [destruct (text_truthy alt) |].
  - destruct (Hpart alt alternate_style
                (fun alt_text =>
                   bind (encode_if_str E output) (fun output =>
                   bind (new_MIMEText E self output (msg_subtype format))
                        (fun msg_text =>
                   ret (attach {| headers := headers root;
                                  preamble := "This is a multi-part message in MIME format.";
                                  parts := parts root |}
                          (PartMultipart "alternative" [alt_text; msg_text])))))
                w) as [->|[e ->]]; [| right; by exists e].
    destruct (Hpart output format
                (fun msg_text =>
                   ret (attach {| headers := headers root;
                                  preamble := "This is a multi-part message in MIME format.";
                                  parts := parts root |}
                          (PartMultipart "alternative"
                             [text_part self alternate_style alt; msg_text])))
                w) as [->|[e ->]]; [by left | right; by exists e].
  - destruct (Hpart output format
                (fun msg_text =>
                   ret (attach {| headers := headers root;
                                  preamble := "This is a multi-part message in MIME format.";
                                  parts := parts root |}
                          (PartText msg_text))) w) as [->|[e ->]];
      [by left | right; by exists e].
  - destruct (Hpart output format
                (fun msg_text =>
                   ret (attach {| headers := headers root;
                                  preamble := "This is a multi-part message in MIME format.";
                                  parts := parts root |}
                          (PartText msg_text))) w) as [->|[e ->]];
      [by left | right; by exists e].
Qed.

(** ** Delivery *)

Lemma is_delivery_call_delivery_call self item :
  is_delivery_call (delivery_call self item) = true.
Proof.
  destruct item as [[from_header recip_adds] message].
  unfold delivery_call, send_call. by destruct (use_threaded_delivery self).
Qed.

(** The delivery itself: one call, one more item at the end of the queue
    under threaded delivery, and the answer of the sender, which may be an
    exception, otherwise. *)
Lemma deliver_run E self item w :
  exists w',
    deliver E self item w = (delivery_answer E self item, w') /\
    trace w' = trace w ++ [delivery_call self item] /\
    delivery_queue w' = queue_after self item (delivery_queue w) /\
    heap w' = heap w.
Proof.
  destruct item as [[from_header recip_adds] message].
  unfold deliver, delivery_call, delivery_answer, sender_answer, queue_after,
         send_call.
  destruct (use_threaded_delivery self).
  - unfold bind, get_delivery_queue, put.
    destruct (delivery_queue w) eqn:Hq; eexists; (split; [reflexivity |]);
      cbn [delivery_queue trace heap default]; by rewrite ?Hq.
  - exists (recorded w [CallSend from_header recip_adds
                                  (crlf_join_split message)]).
    split; [reflexivity | done].
Qed.

Lemma deliver_only_calls E self item :
  only_calls is_delivery_call (deliver E self item).
Proof.
  intros w. destruct (deliver_run E self item w) as (w' & Hrun & Htrace & _).
  exists [delivery_call self item]. rewrite Hrun. split; [exact Htrace |].
  cbn [forallb]. by rewrite is_delivery_call_delivery_call.
Qed.

Lemma deliver_keeps_heap E self item : keeps_heap (deliver E self item).
Proof.
  intros w. destruct (deliver_run E self item w) as (w' & Hrun & _ & _ & Hheap).
  by rewrite Hrun.
Qed.

(** What follows the rendering calls decorators and the delivery, nothing
    else, and leaves the registered list as it is. *)
Lemma assemble_and_deliver_only_calls E self event from_header recip_adds
    format root rendered :
  only_calls decorate_or_deliver
    (assemble_and_deliver E self event from_header recip_adds format root
       rendered).
Proof.
  destruct rendered as [[output alternate_style] alternate_output].
  unfold assemble_and_deliver.
  apply only_calls_bind.
  { apply only_calls_silent. intros w. by rewrite sanity_check_state. }
  intros _. apply only_calls_bind.
  { apply only_calls_silent. intros w. by rewrite build_message_state. }
  intros root'. apply only_calls_bind.
  - eapply only_calls_weaken; [| apply run_decorators_only_calls].
    intros c Hc. unfold decorate_or_deliver. by rewrite Hc.
  - intros root''. eapply only_calls_weaken; [| apply deliver_only_calls].
    intros c Hc. unfold decorate_or_deliver. rewrite Hc. apply orb_true_r.
Qed.

Lemma assemble_and_deliver_keeps E self event from_header recip_adds format
    root rendered r :
  keeps r (assemble_and_deliver E self event from_header recip_adds format
             root rendered).
Proof.
  destruct rendered as [[output alternate_style] alternate_output].
  unfold assemble_and_deliver.
  apply keeps_bind.
  { apply keeps_heap_keeps. intros w. by rewrite sanity_check_state. }
  intros _. apply keeps_bind.
  { apply keeps_heap_keeps. intros w. by rewrite build_message_state. }
  intros root'. apply keeps_bind; [apply run_decorators_keeps |].
  intros root''. apply keeps_heap_keeps, deliver_keeps_heap.
Qed.

(** What follows the rendering, under Python 2 and from the root message
    with the headers written into it: an exception before anything is
    called, or the chain of the registered decorators on the message
    assembled and the delivery of what the chain leaves. *)
Lemma assemble_and_deliver_run E self event from_header recip_adds fmt hdrs
    output style alt w :
  python E = Python2 ->
  let l := default [] (heap w !! decorators self) in
  let item := (from_header, recip_adds,
               message_text E event l hdrs
                 [body_part self fmt output style alt]) in
  (exists e,
     assemble_and_deliver E self event from_header recip_adds fmt
       {| headers := hdrs; preamble := ""; parts := [] |}
       (output, style, alt) w = (Raise e, w)) \/
  exists w' calls,
    assemble_and_deliver E self event from_header recip_adds fmt
      {| headers := hdrs; preamble := ""; parts := [] |}
      (output, style, alt) w = (delivery_answer E self item, w') /\
    trace w' = trace w ++ calls ++ [delivery_call self item] /\
    forallb is_decorate_call calls = true /\
    decorators_called calls = chain_of (rev l) /\
    delivery_queue w' = queue_after self item (delivery_queue w).
Proof.
  intros Hpy l item. unfold assemble_and_deliver.
  pose proof (sanity_check_state E self output w) as Hs.
  destruct (sanity_check E self output w) as [[[]|e] w0] eqn:Hsanity;
    cbn [snd] in Hs; subst w0;
    [| left; exists e; by apply bind_Raise].
  rewrite (bind_Return _ _ _ _ _ Hsanity).
  destruct (build_message_run E self
              {| headers := hdrs; preamble := ""; parts := [] |}
              fmt output style alt w Hpy) as [Hbuild|[e Hbuild]];
    [| left; exists e; by apply bind_Raise].
  rewrite (bind_Return _ _ _ _ _ Hbuild). cbn [headers parts app].
  destruct (run_decorators_run self event
              (assembled hdrs [body_part self fmt output style alt]) w)
    as (w1 & calls & Hrun & Htrace & Hcalls & Hchain & Hqueue).
  fold l in Hrun, Hchain.
  unfold assembled in Hrun. rewrite (bind_Return _ _ _ _ _ Hrun).
  destruct (deliver_run E self item w1) as (w2 & Hdeliver & Htrace2 & Hqueue2 & _).
  right. exists w2, calls. split; [exact Hdeliver |].
  split; [by rewrite Htrace2, Htrace, <- app_assoc |].
  split; [exact Hcalls |]. split; [exact Hchain |].
  by rewrite Hqueue2, Hqueue.
Qed.

(** ** Rendering *)

Lemma get_enigma_set attribute w :
  enigma w = true -> get_enigma attribute w = (Return tt, w).
Proof. unfold get_enigma. by intros ->. Qed.

Lemma is_crypto_call_crypto_call self output pubkey_ids :
  is_crypto_call (crypto_call self output pubkey_ids) = true.
Proof. unfold crypto_call. by repeat case_match. Qed.

(** With a mode set and keys supplied, the body is rendered once and the
    operation of the mode is applied to it once; no alternative is asked
    for. *)
Lemma render_crypto E (self : EmailDistributor) transport event fmt formatter
    pubkey_ids w :
  crypto self = "sign" \/ crypto self = "encrypt" \/ crypto self = "sign,encrypt" ->
  pubkey_ids <> [] ->
  enigma w = true ->
  let output := format formatter transport (realm event) fmt event in
  render E self transport event fmt formatter pubkey_ids w =
  (Return (crypto_result E self output pubkey_ids, "", None),
   recorded w [CallFormat (formatter_name formatter) fmt;
               crypto_call self output pubkey_ids]).
Proof.
  intros Hmode Hkeys Henigma output.
  assert ((length pubkey_ids =? 0)%nat = false) as Hlen.
  { destruct pubkey_ids; [done | reflexivity]. }
  unfold render, crypto_result, crypto_call, call_format, recorded.
  rewrite Hlen.
  destruct Hmode as [-> | [-> | ->]]; cbn -[format];
    unfold bind, record, ret, get_enigma; cbn -[format];
    rewrite Henigma; cbn -[format]; by rewrite <- app_assoc.
Qed.

(** Without the crypto engine the operation of the mode cannot be called:
    the body has been rendered, and that is all. *)
Lemma render_no_engine E (self : EmailDistributor) transport event fmt formatter
    pubkey_ids w :
  crypto self = "sign" \/ crypto self = "encrypt" \/ crypto self = "sign,encrypt" ->
  pubkey_ids <> [] ->
  enigma w = false ->
  exists attribute,
    render E self transport event fmt formatter pubkey_ids w =
    (Raise (AttributeError attribute),
     recorded w [CallFormat (formatter_name formatter) fmt]).
Proof.
  intros Hmode Hkeys Henigma.
  assert ((length pubkey_ids =? 0)%nat = false) as Hlen.
  { destruct pubkey_ids; [done | reflexivity]. }
  unfold render, call_format, recorded. rewrite Hlen.
  destruct Hmode as [-> | [-> | ->]]; cbn -[format];
    unfold bind, record, ret, get_enigma; cbn -[format];
    rewrite Henigma; by eexists.
Qed.

(** Without a mode, or without keys, the primary body is rendered, the
    formatter is asked for an alternative style, and the alternative, if
    there is one, is rendered too; nothing else is called. *)
Lemma render_plain E (self : EmailDistributor) transport event fmt formatter
    pubkey_ids w :
  crypto self = "" \/ pubkey_ids = [] ->
  let output := format formatter transport (realm event) fmt event in
  let alternate_style :=
    alternative_style_for formatter transport (realm event) fmt in
  render E self transport event fmt formatter pubkey_ids w =
  (Return (output, alternate_style,
           if truthy alternate_style
           then Some (format formatter transport (realm event) alternate_style
                        event)
           else None),
   recorded w
     ([CallFormat (formatter_name formatter) fmt;
       CallAlternativeStyleFor (formatter_name formatter) fmt] ++
      if truthy alternate_style
      then [CallFormat (formatter_name formatter) alternate_style]
      else [])).
Proof.
  intros Hplain output alternate_style.
  assert ((negb (crypto self =? "")%string &&
           negb (length pubkey_ids =? 0)%nat)%bool = false) as Hcond.
  { destruct Hplain as [-> | ->]; [done | apply andb_false_r]. }
  unfold render. rewrite Hcond.
  unfold call_format, call_alternative_style_for, bind, record, ret, recorded.
  cbn -[format truthy]. fold alternate_style.
  destruct (truthy alternate_style); cbn -[format];
    by rewrite <- !app_assoc.
Qed.

Lemma render_keeps_heap E self transport event fmt formatter pubkey_ids :
  keeps_heap (render E self transport event fmt formatter pubkey_ids).
Proof.
  assert (forall c, keeps_heap (record c)) as Hrecord by (by intros c w).
  assert (forall a, keeps_heap (get_enigma a)) as Henigma.
  { intros a w. unfold get_enigma. by destruct (enigma w). }
  unfold render, call_format, call_alternative_style_for.
  repeat first
    [ apply keeps_heap_ret
    | apply Hrecord
    | apply Henigma
    | apply keeps_heap_bind; [| intros ?]
    | match goal with |- keeps_heap (if ?b then _ else _) => destruct b end ].
Qed.

Lemma render_preserves_queue E self transport event fmt formatter pubkey_ids :
  preserves delivery_queue
    (render E self transport event fmt formatter pubkey_ids).
Proof.
  assert (forall c, preserves delivery_queue (record c)) as Hrecord
    by (by intros c w).
  assert (forall a, preserves delivery_queue (get_enigma a)) as Henigma.
  { intros a w. unfold get_enigma. by destruct (enigma w). }
  unfold render, call_format, call_alternative_style_for.
  repeat first
    [ apply preserves_ret
    | apply Hrecord
    | apply Henigma
    | apply preserves_bind; [| intros ?]
    | match goal with |- preserves _ (if ?b then _ else _) => destruct b end ].
Qed.

Lemma render_only_calls E self transport event fmt formatter pubkey_ids :
  only_calls is_render_call
    (render E self transport event fmt formatter pubkey_ids).
Proof.
  assert (forall a, only_calls is_render_call (get_enigma a)) as Henigma.
  { intros a. apply only_calls_silent. intros w. unfold get_enigma.
    by destruct (enigma w). }
  unfold render, call_format, call_alternative_style_for.
  repeat first
    [ apply only_calls_ret
    | apply only_calls_record; reflexivity
    | apply Henigma
    | apply only_calls_bind; [| intros ?]
    | match goal with |- only_calls _ (if ?b then _ else _) => destruct b end ].
Qed.

Lemma render_calls_not_delivery calls :
  forallb is_render_call calls = true ->
  calls_of is_delivery_call calls = [].
Proof.
  intros Hcalls. apply (calls_of_none is_render_call); [done |]. by intros [].
Qed.

Lemma decorate_calls_not_delivery calls :
  forallb is_decorate_call calls = true ->
  calls_of is_delivery_call calls = [].
Proof.
  intros Hcalls. apply (calls_of_none is_decorate_call); [done |]. by intros [].
Qed.

(** ** [_do_send] *)

Lemma _do_send_envelope_raises E self transport event fmt recipients formatter
    pubkey_ids w e :
  envelope E self event recipients = Raise e ->
  _do_send E self transport event fmt recipients formatter pubkey_ids w
  = (Raise e, w).
Proof. intros Henv. unfold _do_send, bind, lift. by rewrite Henv. Qed.

(** On Python 3 every call ends at the message identifier. *)
Lemma _do_send_python3 E self transport event fmt recipients formatter
    pubkey_ids w :
  python E = Python3 ->
  _do_send E self transport event fmt recipients formatter pubkey_ids w
  = (Raise (TypeError "Strings must be encoded before hashing"), w).
Proof. intros Hpy. by apply _do_send_envelope_raises, envelope_python3. Qed.

(** With the envelope made and no address in it, the call returns at
    once. *)
Lemma _do_send_no_recipients E self transport event fmt recipients formatter
    pubkey_ids w from_header hdrs :
  envelope E self event recipients = Return (from_header, hdrs, []) ->
  _do_send E self transport event fmt recipients formatter pubkey_ids w
  = (Return tt, w).
Proof. intros Henv. unfold _do_send, bind, lift. by rewrite Henv. Qed.

(** With the envelope made and an address in it, the call goes on with
    the rendering and what follows it. *)
Lemma _do_send_goes_on E self transport event fmt recipients formatter
    pubkey_ids w from_header hdrs recip_adds :
  envelope E self event recipients = Return (from_header, hdrs, recip_adds) ->
  recip_adds <> [] ->
  _do_send E self transport event fmt recipients formatter pubkey_ids w
  = bind (render E self transport event fmt formatter (default [] pubkey_ids))
         (assemble_and_deliver E self event from_header recip_adds fmt
            {| headers := hdrs; preamble := ""; parts := [] |}) w.
Proof.
  intros Henv Hne. unfold _do_send. unfold bind at 1, lift at 1.
  rewrite Henv. cbn beta iota.
  destruct recip_adds as [|a recip_adds]; [done |]. cbn [length Nat.eqb].
  unfold bind at 1, lift.
  by rewrite (new_root_message_envelope _ _ _ _ _ _ _ Henv).
Qed.

(** The course of a call: it ends at the envelope, returns at once for
    want of an address, ends in the rendering, ends before the message is
    complete, or runs the decorators on the message assembled from the
    envelope and the rendered bodies and delivers what they leave. *)
Lemma _do_send_cases E self transport event fmt recipients formatter
    pubkey_ids w :
  let run := _do_send E self transport event fmt recipients formatter
               pubkey_ids w in
  let l := default [] (heap w !! decorators self) in
  match envelope E self event recipients with
  | Raise e => run = (Raise e, w)
  | Return (from_header, hdrs, recip_adds) =>
      python E = Python2 /\
      match recip_adds with
      | [] => run = (Return tt, w)
      | _ :: _ =>
          match render E self transport event fmt formatter
                  (default [] pubkey_ids) w with
          | (Raise e, w1) => run = (Raise e, w1)
          | (Return (output, style, alt), w1) =>
              let item := (from_header, recip_adds,
                           message_text E event l hdrs
                             [body_part self fmt output style alt]) in
              (exists e, run = (Raise e, w1)) \/
              exists w' calls,
                run = (delivery_answer E self item, w') /\
                trace w' = trace w1 ++ calls ++ [delivery_call self item] /\
                forallb is_decorate_call calls = true /\
                decorators_called calls = chain_of (rev l) /\
                delivery_queue w' = queue_after self item (delivery_queue w1)
          end
      end
  end.
Proof.
  intros run l. subst run.
  destruct (envelope E self event recipients) as [[[from_header hdrs] recip_adds]|e]
    eqn:Henv; [| by apply _do_send_envelope_raises].
  destruct (envelope_Return _ _ _ _ _ Henv) as [Hpy _]. split; [exact Hpy |].
  destruct recip_adds as [|a recip_adds];
    [by eapply _do_send_no_recipients |].
  rewrite (_do_send_goes_on _ _ _ _ _ _ _ _ _ _ _ _ Henv) by done.
  pose proof (render_keeps_heap E self transport event fmt formatter
                (default [] pubkey_ids) w) as Hheap.
  destruct (render E self transport event fmt formatter (default [] pubkey_ids) w)
    as [[[[output style] alt]|e] w1] eqn:Hrender; cbn [snd] in Hheap.
  - rewrite (bind_Return _ _ _ _ _ Hrender).
    pose proof (assemble_and_deliver_run E self event from_header
                  (a :: recip_adds) fmt hdrs output style alt w1 Hpy) as Hrun.
    cbn zeta in Hrun. rewrite Hheap in Hrun. fold l in Hrun. exact Hrun.
  - by apply bind_Raise.
Qed.

Lemma _do_send_keeps E self transport event fmt recipients formatter
    pubkey_ids r :
  keeps r (_do_send E self transport event fmt recipients formatter pubkey_ids).
Proof.
  unfold _do_send. apply keeps_bind.
  { apply keeps_heap_keeps. by intros w. }
  intros [[from_header hdrs] recip_adds].
  destruct (length recip_adds =? 0)%nat.
  - apply keeps_heap_keeps, keeps_heap_ret.
  - apply keeps_bind.
    { apply keeps_heap_keeps. by intros w. }
    intros root. apply keeps_bind.
    + apply keeps_heap_keeps, render_keeps_heap.
    + intros rendered. apply assemble_and_deliver_keeps.
Qed.

Lemma for_each_keeps {A} r (l : list A) (body : A -> M unit) :
  (forall x, keeps r (body x)) -> keeps r (for_each l body).
Proof.
  intros Hbody. induction l as [|x l IH]; simpl.
  - apply keeps_heap_keeps, keeps_heap_ret.
  - apply keeps_bind; [apply Hbody | by intros _].
Qed.

(** A whole distribution leaves the registered list as it is. *)
Lemma distribute_keeps E self transport recipients event r :
  keeps r (distribute E self transport recipients event).
Proof.
  unfold distribute.
  destruct (negb (enabled self) || negb _)%bool;
    [apply keeps_heap_keeps, keeps_heap_ret |].
  destruct (formats (formatters self) transport (realm event)) as [|entry catalog];
    [apply keeps_heap_keeps, keeps_heap_ret |].
  apply keeps_bind.
  { apply keeps_heap_keeps. destruct (negb _); by intros w. }
  intros _. apply keeps_bind.
  { apply keeps_heap_keeps. by intros w. }
  intros _. apply keeps_bind.
  - apply for_each_keeps. intros [k v].
    destruct v; [apply keeps_heap_keeps, keeps_heap_ret |].
    destruct (dict_get _ k); [apply _do_send_keeps |].
    apply keeps_heap_keeps, keeps_heap_ret.
  - intros _. apply for_each_keeps. intros [k v].
    destruct v; [apply keeps_heap_keeps, keeps_heap_ret |].
    destruct (dict_get _ k); [apply _do_send_keeps |].
    apply keeps_heap_keeps, keeps_heap_ret.
Qed.

(** The kinds of the calls. *)
Lemma crypto_call_kind self output pubkey_ids :
  is_format_call (crypto_call self output pubkey_ids) = false /\
  is_alternative_call (crypto_call self output pubkey_ids) = false /\
  is_delivery_call (crypto_call self output pubkey_ids) = false.
Proof. unfold crypto_call. by repeat case_match. Qed.

Lemma delivery_call_kind self item :
  is_format_call (delivery_call self item) = false /\
  is_alternative_call (delivery_call self item) = false /\
  is_crypto_call (delivery_call self item) = false.
Proof.
  destruct item as [[from_header recip_adds] message].
  unfold delivery_call, send_call. by destruct (use_threaded_delivery self).
Qed.

Lemma forallb_elem_of {A} (P : A -> bool) (l : list A) x :
  forallb P l = true -> x ∈ l -> P x = true.
Proof.
  intros Hall Hx. apply list_elem_of_In in Hx.
  by apply (proj1 (forallb_forall P l) Hall).
Qed.

(** Among the calls of rendering, of the chain and of one delivery, the
    delivery is the last and the only one of its kind. *)
Lemma delivery_call_among rcalls dcalls d c :
  forallb is_render_call rcalls = true ->
  forallb is_decorate_call dcalls = true ->
  c ∈ rcalls ++ dcalls ++ [d] ->
  is_delivery_call c = true ->
  c = d.
Proof.
  intros Hr Hd Hc Hkind.
  apply elem_of_app in Hc as [Hc|Hc].
  { apply (forallb_elem_of _ _ _ Hr) in Hc. by destruct c. }
  apply elem_of_app in Hc as [Hc|Hc].
  { apply (forallb_elem_of _ _ _ Hd) in Hc. by destruct c. }
  by apply list_elem_of_singleton in Hc.
Qed.

Lemma delivery_calls_of rcalls dcalls self item :
  forallb is_render_call rcalls = true ->
  forallb is_decorate_call dcalls = true ->
  calls_of is_delivery_call (rcalls ++ dcalls ++ [delivery_call self item])
  = [delivery_call self item].
Proof.
  intros Hr Hd.
  rewrite !calls_of_app, (render_calls_not_delivery _ Hr),
          (decorate_calls_not_delivery _ Hd).
  cbn [app]. rewrite calls_of_cons, is_delivery_call_delivery_call.
  reflexivity.
Qed.

(** What a call of [_do_send] comes to.  Either nothing is handed over:
    the calls made are those of the rendering, the queue is as it was, and
    a normal return means that the envelope has no address and that
    nothing at all was done.  Or the envelope has been made with an
    address in it, the bodies have been rendered, the chain of the
    registered decorators has run on the message assembled from the
    headers of the envelope and the rendered bodies, and what the chain
    left has been handed over, to the addresses of the envelope, as the
    last call; the call then ends as the delivery does. *)
Lemma _do_send_outcome E self transport event fmt recipients formatter
    pubkey_ids w :
  let run := _do_send E self transport event fmt recipients formatter
               pubkey_ids w in
  let l := default [] (heap w !! decorators self) in
  (exists calls,
     trace (snd run) = trace w ++ calls /\
     forallb is_render_call calls = true /\
     delivery_queue (snd run) = delivery_queue w /\
     (fst run = Return tt ->
      exists from_header hdrs,
        envelope E self event recipients = Return (from_header, hdrs, []) /\
        snd run = w)) \/
  exists from_header hdrs recip_adds output style alt rcalls dcalls,
    envelope E self event recipients = Return (from_header, hdrs, recip_adds) /\
    recip_adds <> [] /\
    fst (render E self transport event fmt formatter (default [] pubkey_ids) w)
      = Return (output, style, alt) /\
    let item := (from_header, recip_adds,
                 message_text E event l hdrs
                   [body_part self fmt output style alt]) in
    trace (snd run) = trace w ++ rcalls ++ dcalls ++ [delivery_call self item] /\
    forallb is_render_call rcalls = true /\
    forallb is_decorate_call dcalls = true /\
    decorators_called dcalls = chain_of (rev l) /\
    fst run = delivery_answer E self item /\
    delivery_queue (snd run) = queue_after self item (delivery_queue w).
Proof.
  intros run l.
  pose proof (_do_send_cases E self transport event fmt recipients formatter
                pubkey_ids w) as Hcases.
  cbn zeta in Hcases. fold run in Hcases. fold l in Hcases.
  destruct (envelope E self event recipients)
    as [[[from_header hdrs] recip_adds]|e] eqn:Henv.
  - destruct Hcases as [Hpy Hcases].
    destruct recip_adds as [|a recip_adds].
    { left. exists []. rewrite Hcases. cbn [fst snd].
      split; [by rewrite app_nil_r |]. split; [done |]. split; [done |].
      intros _. by exists from_header, hdrs. }
    destruct (render_only_calls E self transport event fmt formatter
                (default [] pubkey_ids) w) as (rcalls & Hrtrace & Hrcalls).
    pose proof (render_preserves_queue E self transport event fmt formatter
                  (default [] pubkey_ids) w) as Hrqueue.
    destruct (render E self transport event fmt formatter (default [] pubkey_ids) w)
      as [[[[output style] alt]|e] w1] eqn:Hrender; cbn [snd] in Hrtrace, Hrqueue.
    + destruct Hcases as [[e Hrun]|(w' & dcalls & Hrun & Htrace & Hdcalls
                                    & Hchain & Hqueue)].
      * left. exists rcalls. rewrite Hrun. cbn [fst snd].
        split; [exact Hrtrace |]. split; [exact Hrcalls |].
        split; [exact Hrqueue |]. done.
      * right. exists from_header, hdrs, (a :: recip_adds), output, style, alt,
                 rcalls, dcalls.
        split; [reflexivity |]. split; [done |]. split; [reflexivity |].
        cbn zeta. rewrite Hrun. cbn [fst snd].
        split; [by rewrite Htrace, Hrtrace, <- app_assoc |].
        split; [exact Hrcalls |]. split; [exact Hdcalls |].
        split; [exact Hchain |]. split; [reflexivity |].
        by rewrite Hqueue, Hrqueue.
    + left. exists rcalls. rewrite Hcases. cbn [fst snd].
      split; [exact Hrtrace |]. split; [exact Hrcalls |].
      split; [exact Hrqueue |]. done.
  - left. exists []. rewrite Hcases. cbn [fst snd].
    split; [by rewrite app_nil_r |]. split; [done |]. split; [done |]. done.
Qed.

(** The To header and the addresses of an envelope under the blind
    policy, by the value of the To option. *)
Lemma envelope_blind_cc E (self : EmailDistributor) event recipients
    from_header hdrs recip_adds :
  use_public_cc self = false ->
  envelope E self event recipients = Return (from_header, hdrs, recip_adds) ->
  (to self = to_default ->
     dict_get hdrs "To" = Some (gettext E "undisclosed-recipients: ;") /\
     recip_adds = map rcpt_address recipients) /\
  (to self = "" ->
     dict_get hdrs "To" = Some (double_quote +:+ double_quote) /\
     recip_adds = map rcpt_address recipients) /\
  (to self <> to_default -> to self <> "" ->
     dict_get hdrs "To" = Some (double_quote +:+ to self +:+ double_quote) /\
     recip_adds = map rcpt_address recipients ++ [to self]) /\
  dict_get hdrs "Cc" = None.
Proof.
  intros Hcc. unfold envelope. rewrite Hcc.
  destruct (_message_id E self (realm event)) as [id|e]; [| done].
  destruct (String.eqb_spec (to self) to_default) as [Hto|Hto].
  - intros [= _ <- <-]. split; [done |]. split.
    { intros Hempty. rewrite Hempty in Hto. discriminate. }
    split; [intros Hne; by destruct Hne | done].
  - intros [= _ <- <-]. split; [done |]. split.
    { intros Hempty. rewrite Hempty. by split. }
    split; [| done].
    intros _ Hne. split; [done |].
    unfold truthy. by destruct (String.eqb_spec (to self) "").
Qed.

(** C4, as stated, fails for an empty custom To.  Under Python 2 the
    envelope is made and the message handed to the sender carries a pair
    of double quotes as its To header, not the placeholder; under Python 3
    the call ends at the message identifier and no message is
    assembled. *)
Lemma empty_to_option_gives_quoted_empty_header :
  let self := Sample.component [Sample.plain] (Sample.with_to "" Sample.opts) in
  let run v := _do_send (Sample.on v Sample.E) self "email" Sample.ticket
                 "text/plain" [Sample.alice] Sample.plain None
                 (initial_world []) in
  use_public_cc self = false /\
  to self = "" /\
  (exists hdrs,
     envelope (Sample.on Python2 Sample.E) self Sample.ticket [Sample.alice]
       = Return ("My Project <trac@localhost>", hdrs, ["alice@example.com"]) /\
     dict_get hdrs "To" = Some (double_quote +:+ double_quote) /\
     dict_get hdrs "To" <> Some "undisclosed-recipients: ;" /\
     fst (run Python2) = Return tt /\
     trace (snd (run Python2)) =
       [CallFormat "plain" "text/plain";
        CallAlternativeStyleFor "plain" "text/plain";
        delivery_call self
          ("My Project <trac@localhost>", ["alice@example.com"],
           message_text (Sample.on Python2 Sample.E) Sample.ticket [] hdrs
             [PartText (text_part self "text/plain" Sample.hello)])]) /\
  run Python3
    = (Raise (TypeError "Strings must be encoded before hashing"),
       initial_world []).
Proof.
  split; [reflexivity |]. split; [reflexivity |]. split; [| reflexivity].
  eexists. split; [vm_compute; reflexivity |].
  split; [reflexivity |]. split; [vm_compute; discriminate |].
  split; vm_compute; reflexivity.
Qed.

(** C4, amended: when public CC is disabled and the envelope is made,
    that is, when the message identifier, the first of the headers, is
    generated without an exception, then (1) if the To option is unset,
    that is, equal to its default, the To header is the localized
    placeholder "undisclosed-recipients: ;" and the addresses are those
    of the recipients; (2) if the To option is the empty string, the To
    header is a pair of double quotes and nothing is added to the
    addresses; (3) if the To option is non-empty and differs from the
    default, the To header is the option's value between double quotes
    and the value is appended to the addresses.  These are the headers
    and the addresses of what [_do_send] hands over: every delivery it
    makes is of the message assembled with these headers, after the
    decorators, to exactly these addresses, and a normal return with an
    address ends with that delivery.  When the message identifier
    raises, as it always does on Python 3, [_do_send] ends with that
    exception and nothing is done. *)
Theorem blind_cc_to_header E (self : EmailDistributor) transport event fmt
    recipients formatter pubkey_ids w l :
  use_public_cc self = false ->
  heap w !! decorators self = Some l ->
  let run := _do_send E self transport event fmt recipients formatter
               pubkey_ids w in
  (python E = Python3 ->
   run = (Raise (TypeError "Strings must be encoded before hashing"), w)) /\
  (forall e, _message_id E self (realm event) = Raise e -> run = (Raise e, w)) /\
  forall from_header hdrs recip_adds,
    envelope E self event recipients = Return (from_header, hdrs, recip_adds) ->
    (to self = to_default ->
       dict_get hdrs "To" = Some (gettext E "undisclosed-recipients: ;") /\
       recip_adds = map rcpt_address recipients) /\
    (to self = "" ->
       dict_get hdrs "To" = Some (double_quote +:+ double_quote) /\
       recip_adds = map rcpt_address recipients) /\
    (to self <> to_default -> to self <> "" ->
       dict_get hdrs "To" = Some (double_quote +:+ to self +:+ double_quote) /\
       recip_adds = map rcpt_address recipients ++ [to self]) /\
    (forall c,
       c ∈ new_calls (_do_send E self transport event fmt recipients formatter
                        pubkey_ids) w ->
       is_delivery_call c = true ->
       exists body_parts,
         c = delivery_call self
               (from_header, recip_adds,
                message_text E event l hdrs body_parts)) /\
    (fst run = Return tt -> recip_adds <> [] ->
     exists body_parts,
       last (trace (snd run)) =
         Some (delivery_call self
                 (from_header, recip_adds,
                  message_text E event l hdrs body_parts))).
Proof.
  intros Hcc Hl run.
  split; [intros Hpy; by apply _do_send_python3 |].
  split.
  { intros e He. apply _do_send_envelope_raises. by apply envelope_Raise. }
  intros from_header hdrs recip_adds Henv.
  destruct (envelope_blind_cc E self event recipients from_header hdrs
              recip_adds Hcc Henv) as (Hdefault & Hempty & Hcustom & _).
  split; [exact Hdefault |]. split; [exact Hempty |]. split; [exact Hcustom |].
  pose proof (_do_send_outcome E self transport event fmt recipients formatter
                pubkey_ids w) as Hout.
  cbn zeta in Hout. fold run in Hout. rewrite Hl in Hout.
  change (default [] (Some l)) with l in Hout.
  destruct Hout as [(calls & Htrace & Hcalls & _ & Hreturn)
                   |(f & h & a & output & style & alt & rcalls & dcalls & Henv'
                     & Hne & _ & Htrace & Hrcalls & Hdcalls & _ & _ & _)].
  - split.
    + intros c Hc Hkind. rewrite (new_calls_app _ _ _ Htrace) in Hc.
      apply (forallb_elem_of _ _ _ Hcalls) in Hc. by destruct c.
    + intros Hrun Hne. destruct (Hreturn Hrun) as (f & h & Henv' & _).
      congruence.
  - rewrite Henv in Henv'. injection Henv' as <- <- <-. split.
    + intros c Hc Hkind. rewrite (new_calls_app _ _ _ Htrace) in Hc.
      eexists. by eapply delivery_call_among.
    + intros _ _. eexists. rewrite Htrace, !app_assoc. apply last_snoc.
Qed.

Lemma blind_cc_to_header_witness :
  let self := Sample.component [Sample.plain]
                (Sample.with_to "ops@example.com" Sample.opts) in
  match envelope Sample.E self Sample.ticket [Sample.alice] with
  | Return (from_header, hdrs, recip_adds) =>
      dict_get hdrs "To"
        = Some (double_quote +:+ "ops@example.com" +:+ double_quote) /\
      recip_adds = ["alice@example.com"; "ops@example.com"]
  | Raise _ => False
  end.
Proof.
  intros self.
  destruct (envelope Sample.E self Sample.ticket [Sample.alice])
    as [[[from_header hdrs] recip_adds]|e] eqn:Henv; [| by vm_compute in Henv].
  destruct (blind_cc_to_header Sample.E self "email" Sample.ticket "text/plain"
              [Sample.alice] Sample.plain None (initial_world []) []
              eq_refl eq_refl)
    as (_ & _ & Hmade).
  destruct (Hmade from_header hdrs recip_adds Henv) as (_ & _ & Hcustom & _).
  apply Hcustom; discriminate.
Defined.

(** The check of the body under the ASCII-only setting, by the type of the
    body, under Python 2: bytes outside ASCII give the [TracError], a
    unicode text with a code point outside ASCII gives the encode error,
    which the handler does not catch. *)
Lemma sanity_check_non_ascii E self output w :
  python E = Python2 ->
  body_encoding (_charset self) = None ->
  match output with
  | Str bytes =>
      all_ascii bytes = false ->
      sanity_check E self output w =
      (Raise (TracError (gettext E
         "Ticket contains non-ASCII chars. Please change encoding setting")), w)
  | Unicode code_points =>
      all_ascii code_points = false ->
      sanity_check E self output w = (Raise UnicodeEncodeError, w)
  end.
Proof.
  intros Hpy Hnone. unfold sanity_check. rewrite Hnone, Hpy.
  destruct output as [cps|bs]; intros Hascii; simpl; by rewrite Hascii.
Qed.

(** C5: under the setting [none], with a primary body that is a unicode
    text with a code point outside ASCII, [_do_send] fails with the encode
    error of the codec instead of a [TracError]; nothing is delivered. *)
Theorem non_ascii_unicode_body_raises_encode_error :
  let self := Sample.component [Sample.accented]
                (Sample.with_mime_encoding "none" Sample.opts) in
  let run := _do_send Sample.E self "email" Sample.ticket "text/plain"
               [Sample.alice] Sample.accented None (initial_world []) in
  body_encoding (_charset self) = None /\
  format Sample.accented "email" "ticket" "text/plain" Sample.ticket
    = Unicode [99; 97; 102; 233] /\
  fst run = Raise UnicodeEncodeError /\
  calls_of is_delivery_call (trace (snd run)) = [].
Proof. vm_compute. repeat split; reflexivity. Qed.

(** C6: with one of the three modes configured and a non-empty key list
    supplied, [_do_send] asks for no alternative style and renders none,
    and calls the crypto engine at most once, with the operation of the
    mode on the formatter's rendering of the primary body.  Either it
    hands nothing over, which with a normal return means that the envelope
    has no address and nothing was done; or its calls are, in order, the
    rendering of the primary body, the one crypto operation on it, the
    decorators, and the delivery, to the addresses of the envelope, of the
    message assembled from the headers of the envelope and the result of
    the crypto operation as its single text part, and the call ends as the
    delivery does. *)
Theorem crypto_applied_exactly_once E (self : EmailDistributor) transport event
    fmt recipients formatter pubkey_ids w l :
  crypto self = "sign" \/ crypto self = "encrypt" \/ crypto self = "sign,encrypt" ->
  pubkey_ids <> [] ->
  heap w !! decorators self = Some l ->
  let output := format formatter transport (realm event) fmt event in
  let encrypted := crypto_result E self output pubkey_ids in
  let run := _do_send E self transport event fmt recipients formatter
               (Some pubkey_ids) w in
  exists calls,
    trace (snd run) = trace w ++ calls /\
    calls_of is_alternative_call calls = [] /\
    (calls_of is_crypto_call calls = [] \/
     calls_of is_crypto_call calls = [crypto_call self output pubkey_ids]) /\
    ((calls_of is_delivery_call calls = [] /\
      (fst run = Return tt ->
       exists from_header hdrs,
         envelope E self event recipients = Return (from_header, hdrs, []) /\
         snd run = w)) \/
     exists from_header hdrs recip_adds dcalls,
       envelope E self event recipients
         = Return (from_header, hdrs, recip_adds) /\
       recip_adds <> [] /\
       let item := (from_header, recip_adds,
                    message_text E event l hdrs
                      [PartText (text_part self fmt encrypted)]) in
       calls = [CallFormat (formatter_name formatter) fmt;
                crypto_call self output pubkey_ids]
               ++ dcalls ++ [delivery_call self item] /\
       forallb is_decorate_call dcalls = true /\
       calls_of is_crypto_call calls = [crypto_call self output pubkey_ids] /\
       fst run = delivery_answer E self item).
Proof.
  intros Hmode Hkeys Hl output encrypted run.
  pose proof (_do_send_cases E self transport event fmt recipients formatter
                (Some pubkey_ids) w) as Hcases.
  cbn zeta in Hcases. fold run in Hcases. rewrite Hl in Hcases.
  change (default [] (Some l)) with l in Hcases.
  change (default [] (Some pubkey_ids)) with pubkey_ids in Hcases.
  pose proof (is_crypto_call_crypto_call self output pubkey_ids) as Hcrypto.
  destruct (crypto_call_kind self output pubkey_ids) as (Hcf & Hca & Hcd).
  destruct (envelope E self event recipients)
    as [[[from_header hdrs] recip_adds]|e] eqn:Henv.
  - destruct Hcases as [Hpy Hcases].
    destruct recip_adds as [|a recip_adds].
    { exists []. rewrite Hcases. cbn [fst snd].
      split; [by rewrite app_nil_r |]. split; [done |]. split; [by left |].
      left. split; [done |]. intros _. by exists from_header, hdrs. }
    destruct (enigma w) eqn:Henigma.
    + rewrite (render_crypto E self transport event fmt formatter pubkey_ids w
                 Hmode Hkeys Henigma) in Hcases.
      fold output in Hcases. fold encrypted in Hcases.
      destruct Hcases as [[e Hrun]|(w' & dcalls & Hrun & Htrace & Hdcalls & _)].
      * exists [CallFormat (formatter_name formatter) fmt;
                crypto_call self output pubkey_ids].
        rewrite Hrun. cbn [fst snd recorded trace].
        split; [done |].
        rewrite !calls_of_cons, Hcrypto, Hca, Hcd. cbn.
        split; [done |]. split; [by right |]. left. done.
      * exists ([CallFormat (formatter_name formatter) fmt;
                 crypto_call self output pubkey_ids]
                ++ dcalls ++ [delivery_call self
                                (from_header, a :: recip_adds,
                                 message_text E event l hdrs
                                   [PartText (text_part self fmt encrypted)])]).
        destruct (delivery_call_kind self
                    (from_header, a :: recip_adds,
                     message_text E event l hdrs
                       [PartText (text_part self fmt encrypted)]))
          as (Hdf & Hda & Hdc).
        assert (calls_of is_crypto_call
                  ([CallFormat (formatter_name formatter) fmt;
                    crypto_call self output pubkey_ids]
                   ++ dcalls ++ [delivery_call self
                                   (from_header, a :: recip_adds,
                                    message_text E event l hdrs
                                      [PartText (text_part self fmt encrypted)])])
                = [crypto_call self output pubkey_ids]) as Honce.
        { rewrite !calls_of_app, !calls_of_cons, Hcrypto, Hdc.
          rewrite (calls_of_none is_decorate_call is_crypto_call dcalls Hdcalls)
            by (by intros []).
          reflexivity. }
        rewrite Hrun. cbn [fst snd].
        split.
        { rewrite Htrace. cbn [recorded trace]. by rewrite <- !app_assoc. }
        split.
        { rewrite !calls_of_app, !calls_of_cons, Hca, Hda.
          rewrite (calls_of_none is_decorate_call is_alternative_call dcalls
                     Hdcalls) by (by intros []).
          reflexivity. }
        split; [by right |]. right.
        exists from_header, hdrs, (a :: recip_adds), dcalls.
        split; [reflexivity |]. split; [done |]. cbn zeta.
        split; [reflexivity |]. split; [exact Hdcalls |].
        split; [exact Honce | reflexivity].
    + destruct (render_no_engine E self transport event fmt formatter
                  pubkey_ids w Hmode Hkeys Henigma) as (attribute & Hrender).
      rewrite Hrender in Hcases.
      exists [CallFormat (formatter_name formatter) fmt].
      rewrite Hcases. cbn [fst snd recorded trace].
      split; [done |]. split; [done |]. split; [by left |]. left. done.
  - exists []. rewrite Hcases. cbn [fst snd].
    split; [by rewrite app_nil_r |]. split; [done |]. split; [by left |].
    left. done.
Qed.

Lemma crypto_applied_exactly_once_witness :
  let self := Sample.component [Sample.plain]
                (Sample.with_crypto "sign,encrypt" Sample.opts) in
  let w := snd (distribute Sample.E self "email" [] Sample.ticket
                  (initial_world [])) in
  exists calls,
    trace (snd (_do_send Sample.E self "email" Sample.ticket "text/plain"
                  [Sample.alice] Sample.plain (Some ["ABCD"]) w))
      = trace w ++ calls /\
    calls_of is_alternative_call calls = [] /\
    (calls_of is_crypto_call calls = [] \/
     calls_of is_crypto_call calls
       = [CallSignEncrypt Sample.hello ["ABCD"] None]).
Proof.
  intros self w.
  destruct (crypto_applied_exactly_once Sample.E self "email" Sample.ticket
              "text/plain" [Sample.alice] Sample.plain ["ABCD"] w [])
    as (calls & Htrace & Halt & Hcrypto & _).
  - right; right; reflexivity.
  - discriminate.
  - reflexivity.
  - exists calls. split; [exact Htrace |]. split; [exact Halt | exact Hcrypto].
Defined.


(** C10: [_do_send] runs the decorator chain on a new copy of the
    registered list.  Whatever [_do_send] does, the registered list is
    afterwards what it was before, and so it is after a whole
    [distribute]; and the chain run for a message, from any state with
    that registered list, is the full chain of the registered decorators,
    last registered first, ended only by a decorator that does not go
    on. *)
Theorem decorators_run_on_fresh_copy E self transport event fmt recipients
    formatter pubkey_ids w l :
  heap w !! decorators self = Some l ->
  heap (snd (_do_send E self transport event fmt recipients formatter
               pubkey_ids w)) !! decorators self = Some l /\
  heap (snd (distribute E self transport recipients event w))
    !! decorators self = Some l /\
  forall message,
    exists message' w',
      run_decorators self event message w = (Return message', w') /\
      heap w' !! decorators self = Some l /\
      decorators_called (trace w')
        = decorators_called (trace w) ++ chain_of (rev l).
Proof.
  intros Hl. assert (is_Some (heap w !! decorators self)) as Hsome by eauto.
  split; [| split].
  - by rewrite _do_send_keeps.
  - by rewrite distribute_keeps.
  - intros message.
    destruct (run_decorators_chain self event message w l Hl)
      as (m' & w' & Hrun & Hcalled).
    exists m', w'. split; [exact Hrun |]. split; [| exact Hcalled].
    pose proof (run_decorators_keeps self event message (decorators self) w Hsome)
      as Hkeep.
    rewrite Hrun in Hkeep. cbn [snd] in Hkeep. by rewrite Hkeep.
Qed.

Lemma decorators_run_on_fresh_copy_witness :
  let self := Sample.component [Sample.plain]
                (Sample.with_crypto "encrypt" Sample.opts) in
  let w := initial_world [Sample.subject; Sample.threading] in
  heap (snd (distribute Sample.E self "email"
               [Sample.alice; Sample.carol] Sample.ticket w))
    !! decorators self = Some [Sample.subject; Sample.threading].
Proof.
  intros self w.
  destruct (decorators_run_on_fresh_copy Sample.E self "email" Sample.ticket
              "text/plain" [Sample.alice; Sample.carol] Sample.plain None w
              [Sample.subject; Sample.threading])
    as (_ & Hdistribute & _).
  - reflexivity.
  - exact Hdistribute.
Defined.

(** ** Runs of the sample installation *)

(** A preferred style missing from the catalog is replaced by the
    alternative a formatter offers for it. *)
Example fallback_to_alternative_style :
  let self := Sample.component [Sample.fallback]
                (Sample.with_default_format "text/html" Sample.opts) in
  msgdict (classify_all Sample.E self
             (formats [Sample.fallback] "email" "ticket") "email"
             Sample.ticket [Sample.alice])
  = [("text/plain", [Sample.alice])].
Proof. reflexivity. Qed.

(** A recipient with neither an address nor a resolver that knows one is
    in no group. *)
Example unresolved_recipient_dropped :
  classify_all Sample.E (Sample.component [Sample.plain] Sample.opts)
    (formats [Sample.plain] "email" "ticket") "email" Sample.ticket
    [("dave", Some false, "")]
  = no_groups.
Proof. reflexivity. Qed.

(** With keys found, the recipient joins the encrypt group and the keys
    are accumulated; the local recipient stays plain. *)
Example keys_found_recipient_encrypted :
  let self := Sample.component [Sample.plain]
                (Sample.with_crypto "sign,encrypt" Sample.opts) in
  classify_all Sample.E self (formats [Sample.plain] "email" "ticket") "email"
    Sample.ticket [Sample.alice; Sample.carol]
  = {| msgdict := [("text/plain", [Sample.carol])];
       msgdict_encrypt := [("text/plain", [Sample.alice])];
       msg_pubkey_ids := ["ABCD"] |}.
Proof. reflexivity. Qed.

(** Bytes outside ASCII under the setting [none] give the [TracError]. *)
Example non_ascii_bytes_body_raises_trac_error :
  fst (_do_send Sample.E
         (Sample.component [Sample.accented_bytes]
            (Sample.with_mime_encoding "none" Sample.opts))
         "email" Sample.ticket "text/plain" [Sample.alice]
         Sample.accented_bytes None (initial_world []))
  = Raise (TracError
      "Ticket contains non-ASCII chars. Please change encoding setting").
Proof. reflexivity. Qed.

(** Line ends are made CRLF on the way to the sender. *)
Example crlf_join_split_mixed :
  crlf_join_split (String "a" (String LF (String "b" (String CR (String LF
                     (String "c" EmptyString))))))
  = String "a" (String CR (String LF (String "b" (String CR (String LF
      (String "c" EmptyString)))))).
Proof. reflexivity. Qed.


(** On Python 3 the turn of the first entry bound for encryption raises:
    the entries before it have been grouped, the encrypt map is empty,
    and the distribution ends with the exception, nothing called. *)
Example python3_loop_raises_at_encrypt_bound_entry :
  let E := Sample.on Python3 Sample.E in
  let self := Sample.component [Sample.plain]
                (Sample.with_crypto "encrypt" Sample.opts) in
  let catalog := formats [Sample.plain] "email" "ticket" in
  let recipients := [Sample.carol; Sample.alice; Sample.bob] in
  let run := distribute E self "email" recipients Sample.ticket
               (initial_world []) in
  classify_outcome E self catalog "email" Sample.ticket recipients
    = Raise (TypeError "'>' not supported between instances of 'list' and 'int'") /\
  processed E self catalog "email" Sample.ticket recipients = [Sample.carol] /\
  classify_all E self catalog "email" Sample.ticket recipients
    = {| msgdict := [("text/plain", [Sample.carol])];
         msgdict_encrypt := []; msg_pubkey_ids := [] |} /\
  fst run
    = Raise (TypeError "'>' not supported between instances of 'list' and 'int'") /\
  trace (snd run) = [].
Proof. vm_compute. repeat split; reflexivity. Qed.

(** Under Python 2, with a key for alice, the distribution renders the
    body once, applies the operation of the mode to it once, and hands
    the sender one message, for alice. *)
Example encrypted_message_sent :
  let self := Sample.component [Sample.plain]
                (Sample.with_crypto "sign,encrypt" Sample.opts) in
  let run := distribute Sample.E self "email" [Sample.alice] Sample.ticket
               (initial_world []) in
  fst run = Return tt /\
  exists hdrs,
    envelope Sample.E self Sample.ticket [Sample.alice]
      = Return ("My Project <trac@localhost>", hdrs, ["alice@example.com"]) /\
    trace (snd run) =
      [CallFormat "plain" "text/plain";
       CallSignEncrypt Sample.hello ["ABCD"] None;
       delivery_call self
         ("My Project <trac@localhost>", ["alice@example.com"],
          message_text Sample.E Sample.ticket [] hdrs
            [PartText (text_part self "text/plain"
                         (sign_encrypt Sample.E Sample.hello ["ABCD"] None))])].
Proof.
  split; [vm_compute; reflexivity |].
  eexists. split; vm_compute; reflexivity.
Qed.
(** * Further properties *)

(** ** The encoding preference *)





(** ** The catalog *)

Lemma dict_keys_set {V} (d : dict V) k v s :
  s ∈ dict_keys (dict_set d k v) <-> s = k \/ s ∈ dict_keys d.
Proof.
  unfold dict_keys. induction d as [|[k' v'] d IH]; simpl.
  - rewrite list_elem_of_singleton, elem_of_nil. tauto.
  - destruct (String.eqb_spec k' k) as [->|Hne]; simpl;
      rewrite !elem_of_cons; [tauto |]. rewrite IH. tauto.
Qed.

Lemma dict_keys_set_NoDup {V} (d : dict V) k v :
  NoDup (dict_keys d) -> NoDup (dict_keys (dict_set d k v)).
Proof.
  unfold dict_keys. induction d as [|[k' v'] d IH]; simpl; intros Hd.
  - apply NoDup_singleton.
  - apply NoDup_cons in Hd as [Hk' Hd].
    destruct (String.eqb_spec k' k) as [->|Hne]; simpl.
    + by apply NoDup_cons.
    + apply NoDup_cons. split; [| by apply IH].
      intros Hin. apply (dict_keys_set d k v k') in Hin as [Heq|Hin]; done.
Qed.

Lemma catalog_fold_keys f (ks : list string) (d : dict IAnnouncementFormatter) :
  NoDup (dict_keys d) ->
  NoDup (dict_keys (fold_left (fun d k => dict_set d k f) ks d)) /\
  forall s, s ∈ dict_keys (fold_left (fun d k => dict_set d k f) ks d)
            <-> s ∈ ks \/ s ∈ dict_keys d.
Proof.
  revert d. induction ks as [|k ks IH]; intros d Hd; simpl.
  - split; [done |]. intros s. rewrite elem_of_nil. tauto.
  - destruct (IH (dict_set d k f) (dict_keys_set_NoDup d k f Hd)) as [Hnd Hin].
    split; [done |]. intros s. rewrite Hin, dict_keys_set, elem_of_cons. tauto.
Qed.

(** The styles of the catalog are exactly the styles some registered
    formatter advertises, each listed once. *)
Theorem formats_keys fs transport realm :
  NoDup (dict_keys (formats fs transport realm)) /\
  forall style,
    style ∈ dict_keys (formats fs transport realm) <->
    exists f, f ∈ fs /\ style ∈ styles f transport realm.
Proof.
  induction fs as [|f fs [IHnd IHin]] using rev_ind.
  - split; [apply NoDup_nil_2 |]. intros style. simpl. rewrite elem_of_nil.
    split; [done |]. intros (f & Hf & _). by apply elem_of_nil in Hf.
  - rewrite formats_snoc.
    destruct (catalog_fold_keys f (styles f transport realm)
                (formats fs transport realm) IHnd) as [Hnd Hin].
    split; [done |]. intros style. rewrite Hin, IHin. split.
    + intros [Hs|(f' & Hf' & Hs)].
      * exists f. split; [| done]. apply elem_of_app. right.
        by apply list_elem_of_singleton.
      * exists f'. split; [| done]. apply elem_of_app. by left.
    + intros (f' & Hf' & Hs). apply elem_of_app in Hf' as [Hf'|Hf'].
      * right. by exists f'.
      * apply list_elem_of_singleton in Hf' as ->. by left.
Qed.

Lemma formats_keys_witness :
  "text/plain" ∈ dict_keys (formats [Sample.plain; Sample.plain2] "email" "ticket").
Proof.
  apply (proj2 (formats_keys [Sample.plain; Sample.plain2] "email" "ticket")).
  exists Sample.plain2. split.
  - apply elem_of_cons. right. apply elem_of_cons. by left.
  - apply elem_of_cons. by left.
Defined.

(** ** Formats and addresses of a recipient *)

(** The search for an alternative answers with the first non-empty offer,
    in the order of the formatters; without any offer its answer is
    empty. *)
Theorem find_alternative_first_offer fs transport realm old_fmt :
  match first_alternative fs transport realm old_fmt with
  | Some offer =>
      find_alternative fs transport realm old_fmt "" = offer /\
      truthy offer = true
  | None => truthy (find_alternative fs transport realm old_fmt "") = false
  end.
Proof.
  unfold first_alternative.
  assert (forall fmt, truthy fmt = false ->
    match find (fun f => truthy (alternative_style_for f transport realm old_fmt)) fs with
    | Some f =>
        find_alternative fs transport realm old_fmt fmt
          = alternative_style_for f transport realm old_fmt /\
        truthy (alternative_style_for f transport realm old_fmt) = true
    | None => truthy (find_alternative fs transport realm old_fmt fmt) = false
    end) as H.
  { induction fs as [|f fs IH]; intros fmt Hfmt; simpl; [done |].
    destruct (truthy (alternative_style_for f transport realm old_fmt)) eqn:Hf;
      [done |]. by apply IH. }
  specialize (H "" eq_refl).
  by destruct (find _ fs).
Qed.

(** An address given with the recipient is kept and a recipient without a
    name is not resolved; otherwise the address is the first non-empty
    answer of the resolver chain, in its order, and empty without one. *)
Theorem recipient_address_first_resolver (self : EmailDistributor) name authed
    address :
  (truthy address = true ->
   recipient_address self name authed address = address) /\
  (truthy name = false ->
   recipient_address self name authed address = address) /\
  (truthy name = true -> truthy address = false ->
   match first_address (resolvers self) name authed with
   | Some found =>
       recipient_address self name authed address = found /\
       truthy found = true
   | None => truthy (recipient_address self name authed address) = false
   end).
Proof.
  unfold recipient_address. split; [| split].
  - intros ->. by rewrite andb_false_r.
  - by intros ->.
  - intros -> Haddr. rewrite Haddr. cbn [andb negb].
    unfold first_address. revert address Haddr.
    induction (resolvers self) as [|r rs IH]; intros address Haddr; simpl;
      [done |].
    destruct (truthy (get_address_for_session r name authed)) eqn:Hr; [done |].
    by apply IH.
Qed.

Lemma recipient_address_first_resolver_witness :
  let self := Sample.with_resolvers [Sample.nobody; Sample.sessions]
                (Sample.component [Sample.plain] Sample.opts) in
  recipient_address self "dave" None "" = "dave@example.com" /\
  truthy "dave@example.com" = true.
Proof.
  intros self.
  apply (proj2 (proj2 (recipient_address_first_resolver self "dave" None "")));
    reflexivity.
Defined.

(** ** What the loop groups *)

Lemma elem_of_group_setdefault_add t d k x k' :
  t ∈ group (setdefault_add d k x) k' <->
  (k = k' /\ t = x) \/ t ∈ group d k'.
Proof.
  rewrite group_setdefault_add.
  destruct (String.eqb_spec k k') as [->|Hne].
  - rewrite elem_of_set_add. tauto.
  - tauto.
Qed.

Section Grouping.
Variables (E : Externals) (self : EmailDistributor).
Variables (catalog : dict IAnnouncementFormatter) (transport : string).
Variable event : AnnouncementEvent.

Local Abbreviation step := (classify E self catalog transport event).
Local Abbreviation loop := (classify_loop E self catalog transport event).
Local Abbreviation from := (grouped_from E self catalog transport event).
Local Abbreviation raises := (turn_raises E self catalog transport event).
Local Abbreviation reached := (processed E self catalog transport event).
Local Abbreviation routed := (routed_to_encrypt E self catalog transport event).

(** The turns that raise are those of the entries bound for encryption,
    under Python 3. *)
Lemma turn_raises_spec g r :
  if raises r then exists what, step g r = Raise (TypeError what)
  else exists g', step g r = Return g'.
Proof.
  destruct r as [[name authed] address]. unfold turn_raises, routed_to_encrypt.
  destruct (classify_cases E self catalog transport event g name authed address)
    as [[Hskip Hr]|[(Hf & Ha & Hal & Henc & Hr)|[(Hf & Ha & Hal & Henc & Hpy & Hr)
        |(Hf & Ha & Hal & Henc & Hpy & what & Hr)]]].
  - assert ((truthy (recipient_format E self catalog transport event name authed)
             && truthy (recipient_address self name authed address)
             && re_search E (rcpt_allow_regexp self)
                  (recipient_address self name authed address))%bool = false)
      as ->.
    { destruct Hskip as [H|[H|H]]; rewrite H; cbn [andb];
        rewrite ?andb_false_r; done. }
    cbn [andb]. by eexists.
  - rewrite Henc, andb_false_r. cbn [andb]. by eexists.
  - rewrite Hpy, andb_false_r. by eexists.
  - rewrite Hf, Ha, Hal, Henc, Hpy. cbn [andb]. by exists what.
Qed.

(** The loop gets through the entries before the first turn that raises,
    and leaves the accumulators as a loop over those entries alone
    does. *)
Lemma classify_loop_processed rs g :
  fst (loop rs g) = fst (loop (reached rs) g) /\
  snd (loop (reached rs) g) = Return tt.
Proof.
  revert g. induction rs as [|r rs IH]; intros g; [done |].
  cbn [classify_loop processed].
  pose proof (turn_raises_spec g r) as Hturn.
  destruct (raises r).
  - destruct Hturn as [what ->]. done.
  - destruct Hturn as [g' Hstep]. cbn [classify_loop]. rewrite Hstep. apply IH.
Qed.

Lemma processed_all rs :
  snd (loop rs no_groups) = Return tt <-> reached rs = rs.
Proof.
  generalize no_groups.
  induction rs as [|r rs IH]; intros g; [done |].
  cbn [classify_loop processed].
  pose proof (turn_raises_spec g r) as Hturn.
  destruct (raises r).
  - destruct Hturn as [what ->]. done.
  - destruct Hturn as [g' ->]. rewrite IH. split; [by intros -> |].
    by intros [= ->].
Qed.

Lemma processed_python2 rs : python E = Python2 -> reached rs = rs.
Proof.
  intros Hpy. induction rs as [|r rs IH]; [done |].
  cbn [processed]. unfold turn_raises. rewrite Hpy, andb_false_r.
  by rewrite IH.
Qed.

Lemma processed_not_raising rs : Forall (fun r => raises r = false) (reached rs).
Proof.
  induction rs as [|r rs IH]; [constructor |].
  cbn [processed]. destruct (raises r) eqn:Hr; [constructor |].
  by constructor.
Qed.

Lemma loop_plain_iff rs g k t :
  snd (loop rs g) = Return tt ->
  t ∈ group (msgdict (fst (loop rs g))) k <->
  t ∈ group (msgdict g) k \/ exists r, r ∈ rs /\ from false k t r.
Proof.
  revert g. induction rs as [|r rs IH]; intros g Hret.
  - split; [by left |]. intros [H|(r & Hr & _)]; [done |].
    by apply elem_of_nil in Hr.
  - cbn [classify_loop] in Hret |- *. destruct r as [[name authed] address].
    destruct (classify_cases E self catalog transport event g name authed address)
      as [[Hskip Hr]|[(Hf & Ha & Hal & Henc & Hr)|[(Hf & Ha & Hal & Henc & _ & Hr)
          |(_ & _ & _ & _ & _ & what & Hr)]]];
      rewrite Hr in Hret |- *; [| | | done];
      rewrite (IH _ Hret); cbn [msgdict].
    + split.
      * intros [H|(r & Hr' & Hfrom)]; [by left |].
        right. exists r. split; [by apply elem_of_cons; right | done].
      * intros [H|(r & Hr' & Hfrom)]; [by left |].
        apply elem_of_cons in Hr' as [->|Hr']; [| right; by exists r].
        destruct Hfrom as (_ & _ & Hf & Ha & Hal & _).
        destruct Hskip as [H|[H|H]]; congruence.
    + rewrite elem_of_group_setdefault_add. split.
      * intros [[[<- ->]|H]|(r & Hr' & Hfrom)].
        -- right. eexists. split; [apply elem_of_cons; by left |].
           repeat split; done.
        -- by left.
        -- right. exists r. split; [by apply elem_of_cons; right | done].
      * intros [H|(r & Hr' & Hfrom)]; [by left; right |].
        apply elem_of_cons in Hr' as [->|Hr']; [| right; by exists r].
        destruct Hfrom as (-> & -> & _). left. by left.
    + split.
      * intros [H|(r & Hr' & Hfrom)]; [by left |].
        right. exists r. split; [by apply elem_of_cons; right | done].
      * intros [H|(r & Hr' & Hfrom)]; [by left |].
        apply elem_of_cons in Hr' as [->|Hr']; [| right; by exists r].
        destruct Hfrom as (_ & _ & _ & _ & _ & Henc'). congruence.
Qed.

Lemma loop_encrypt_iff rs g k t :
  snd (loop rs g) = Return tt ->
  t ∈ group (msgdict_encrypt (fst (loop rs g))) k <->
  t ∈ group (msgdict_encrypt g) k \/ exists r, r ∈ rs /\ from true k t r.
Proof.
  revert g. induction rs as [|r rs IH]; intros g Hret.
  - split; [by left |]. intros [H|(r & Hr & _)]; [done |].
    by apply elem_of_nil in Hr.
  - cbn [classify_loop] in Hret |- *. destruct r as [[name authed] address].
    destruct (classify_cases E self catalog transport event g name authed address)
      as [[Hskip Hr]|[(Hf & Ha & Hal & Henc & Hr)|[(Hf & Ha & Hal & Henc & _ & Hr)
          |(_ & _ & _ & _ & _ & what & Hr)]]];
      rewrite Hr in Hret |- *; [| | | done];
      rewrite (IH _ Hret); cbn [msgdict_encrypt].
    + split.
      * intros [H|(r & Hr' & Hfrom)]; [by left |].
        right. exists r. split; [by apply elem_of_cons; right | done].
      * intros [H|(r & Hr' & Hfrom)]; [by left |].
        apply elem_of_cons in Hr' as [->|Hr']; [| right; by exists r].
        destruct Hfrom as (_ & _ & Hf & Ha & Hal & _).
        destruct Hskip as [H|[H|H]]; congruence.
    + split.
      * intros [H|(r & Hr' & Hfrom)]; [by left |].
        right. exists r. split; [by apply elem_of_cons; right | done].
      * intros [H|(r & Hr' & Hfrom)]; [by left |].
        apply elem_of_cons in Hr' as [->|Hr']; [| right; by exists r].
        destruct Hfrom as (_ & _ & _ & _ & _ & Henc'). congruence.
    + rewrite elem_of_group_setdefault_add. split.
      * intros [[[<- ->]|H]|(r & Hr' & Hfrom)].
        -- right. eexists. split; [apply elem_of_cons; by left |].
           repeat split; done.
        -- by left.
        -- right. exists r. split; [by apply elem_of_cons; right | done].
      * intros [H|(r & Hr' & Hfrom)]; [by left; right |].
        apply elem_of_cons in Hr' as [->|Hr']; [| right; by exists r].
        destruct Hfrom as (-> & -> & _). left. by left.
Qed.

Lemma loop_keys rs g :
  snd (loop rs g) = Return tt ->
  msg_pubkey_ids (fst (loop rs g))
  = msg_pubkey_ids g ++
    flat_map (fun r => if routed r
                       then get_pubkey_ids E (resolved_address self r)
                       else []) rs.
Proof.
  revert g. induction rs as [|r rs IH]; intros g Hret; cbn [flat_map].
  - by rewrite app_nil_r.
  - cbn [classify_loop] in Hret |- *. destruct r as [[name authed] address].
    unfold routed_to_encrypt at 1, resolved_address at 1.
    destruct (classify_cases E self catalog transport event g name authed address)
      as [[Hskip Hr]|[(Hf & Ha & Hal & Henc & Hr)|[(Hf & Ha & Hal & Henc & _ & Hr)
          |(_ & _ & _ & _ & _ & what & Hr)]]];
      rewrite Hr in Hret |- *; [| | | done];
      rewrite (IH _ Hret); cbn [msg_pubkey_ids].
    + destruct Hskip as [H|[H|H]]; rewrite H; cbn [andb];
        rewrite ?andb_false_r; done.
    + rewrite Henc, andb_false_r. done.
    + rewrite Hf, Ha, Hal, Henc. cbn [andb]. by rewrite app_assoc.
Qed.

(** Under Python 3 nothing ever gets into the encrypt map. *)
Lemma loop_python3_no_encrypt rs g :
  python E = Python3 ->
  msgdict_encrypt (fst (loop rs g)) = msgdict_encrypt g /\
  msg_pubkey_ids (fst (loop rs g)) = msg_pubkey_ids g.
Proof.
  intros Hpy.
  apply (classify_loop_invariant E self catalog transport event
           (fun g' => msgdict_encrypt g' = msgdict_encrypt g /\
                      msg_pubkey_ids g' = msg_pubkey_ids g)); [| done].
  intros g0 [[name authed] address] g' [H0 H1] Hstep.
  destruct (classify_cases E self catalog transport event g0 name authed address)
    as [[_ Hr]|[(_ & _ & _ & _ & Hr)|[(_ & _ & _ & _ & Hpy' & _)
        |(_ & _ & _ & _ & _ & what & Hr)]]];
    [| | congruence |]; rewrite Hr in Hstep; [| | done];
    by injection Hstep as <-.
Qed.

End Grouping.

(** The plain group of a format holds exactly what the loop makes of the
    list entries it gets through that are served in that format, reached
    at a non-empty address accepted by the allow pattern, and not bound
    for encryption; the encrypt group holds exactly those bound for
    encryption.  A recipient without format or address, or rejected by
    the allow pattern, is in no group.  The entries the loop gets through
    are those before the first whose turn raises: all of them exactly when
    the loop ends normally, as it does under Python 2; under Python 3 the
    turn of the first entry bound for encryption raises, and the encrypt
    map stays empty. *)
Theorem classify_all_membership E self catalog transport event recipients k t :
  let g := classify_all E self catalog transport event recipients in
  let reached := processed E self catalog transport event recipients in
  (t ∈ group (msgdict g) k <->
   exists r, r ∈ reached /\
             grouped_from E self catalog transport event false k t r) /\
  (t ∈ group (msgdict_encrypt g) k <->
   exists r, r ∈ reached /\
             grouped_from E self catalog transport event true k t r) /\
  (classify_outcome E self catalog transport event recipients = Return tt <->
   reached = recipients) /\
  (python E = Python2 -> reached = recipients) /\
  (python E = Python3 -> msgdict_encrypt g = []).
Proof.
  intros g reached. subst g reached. unfold classify_all, classify_outcome.
  destruct (classify_loop_processed E self catalog transport event recipients
              no_groups) as [-> Hret].
  split; [| split; [| split; [| split]]].
  - rewrite (loop_plain_iff _ _ _ _ _ _ _ _ _ Hret). cbn. unfold group. cbn.
    rewrite elem_of_nil. tauto.
  - rewrite (loop_encrypt_iff _ _ _ _ _ _ _ _ _ Hret). cbn. unfold group. cbn.
    rewrite elem_of_nil. tauto.
  - apply processed_all.
  - apply processed_python2.
  - intros Hpy.
    by destruct (loop_python3_no_encrypt E self catalog transport event
                   (processed E self catalog transport event recipients)
                   no_groups Hpy) as [-> _].
Qed.

Lemma classify_all_membership_witness :
  let self := Sample.with_resolvers [Sample.nobody; Sample.sessions]
                (Sample.component [Sample.plain] Sample.opts) in
  ("dave", None, "dave@example.com")
    ∈ group (msgdict (classify_all Sample.E self
                        (formats [Sample.plain] "email" "ticket") "email"
                        Sample.ticket [("dave", None, "")])) "text/plain".
Proof.
  intros self.
  apply (proj1 (classify_all_membership Sample.E self
                  (formats [Sample.plain] "email" "ticket") "email"
                  Sample.ticket [("dave", None, "")] "text/plain"
                  ("dave", None, "dave@example.com"))).
  exists ("dave", None, ""). split.
  - apply elem_of_cons. by left.
  - repeat split; reflexivity.
Defined.

(** The accumulated key identifiers are those of the entries sent to the
    encrypt path among the entries the loop gets through, in the order of
    the recipient list, once for every entry, also for an entry listed
    twice; under Python 3 none is ever accumulated. *)
Theorem classify_all_keys E self catalog transport event recipients :
  msg_pubkey_ids (classify_all E self catalog transport event recipients) =
  flat_map (fun r =>
              if routed_to_encrypt E self catalog transport event r
              then get_pubkey_ids E (resolved_address self r) else [])
           (processed E self catalog transport event recipients) /\
  (python E = Python3 ->
   msg_pubkey_ids (classify_all E self catalog transport event recipients) = []).
Proof.
  unfold classify_all. split.
  - destruct (classify_loop_processed E self catalog transport event recipients
                no_groups) as [-> Hret].
    by rewrite (loop_keys _ _ _ _ _ _ _ Hret).
  - intros Hpy.
    by destruct (loop_python3_no_encrypt E self catalog transport event
                   recipients no_groups Hpy) as [_ ->].
Qed.

Lemma classify_all_keys_witness :
  let self := Sample.component [Sample.plain]
                (Sample.with_crypto "encrypt" Sample.opts) in
  msg_pubkey_ids
    (classify_all (Sample.on Python3 Sample.E) self
       (formats [Sample.plain] "email" "ticket") "email" Sample.ticket
       [Sample.carol; Sample.alice; Sample.bob]) = [].
Proof.
  intros self.
  apply (proj2 (classify_all_keys (Sample.on Python3 Sample.E) self
                  (formats [Sample.plain] "email" "ticket") "email"
                  Sample.ticket [Sample.carol; Sample.alice; Sample.bob])).
  reflexivity.
Defined.

(** ** The groups are sets *)

Lemma set_add_NoDup s x : NoDup s -> NoDup (set_add s x).
Proof.
  intros Hs. unfold set_add. destruct (decide (x ∈ s)) as [Hin|Hnot]; [done |].
  apply NoDup_app. split; [done |]. split; [| apply NoDup_singleton].
  intros y Hy Hyx. apply list_elem_of_singleton in Hyx as ->. done.
Qed.

Lemma set_add_nonempty s x : set_add s x <> [].
Proof.
  unfold set_add. destruct (decide (x ∈ s)) as [Hin|Hnot].
  - intros ->. by apply elem_of_nil in Hin.
  - by destruct s.
Qed.

Lemma dict_get_Some_elem {V} (d : dict V) k v :
  dict_get d k = Some v -> (k, v) ∈ d.
Proof.
  induction d as [|[k' v'] d IH]; simpl; [done |].
  destruct (String.eqb_spec k' k) as [->|Hne].
  - intros [= ->]. apply elem_of_cons. by left.
  - intros H. apply elem_of_cons. right. by apply IH.
Qed.

Lemma Forall_dict_set {V} (P : string * V -> Prop) (d : dict V) k v :
  Forall P d -> P (k, v) -> Forall P (dict_set d k v).
Proof.
  intros Hd Hv. induction d as [|[k' v'] d IH]; simpl.
  - by apply Forall_cons.
  - apply Forall_cons in Hd as [Hkv Hd].
    destruct (String.eqb_spec k' k) as [->|Hne]; apply Forall_cons; auto.
Qed.

Lemma grouping_ok_setdefault_add d k x :
  grouping_ok d -> grouping_ok (setdefault_add d k x).
Proof.
  intros [Hkeys Hsets]. unfold setdefault_add.
  destruct (dict_get d k) as [s|] eqn:Hget; split;
    try (by apply dict_keys_set_NoDup); apply Forall_dict_set; try done;
    cbn [snd]; (split; [| apply set_add_nonempty]); apply set_add_NoDup.
  - apply dict_get_Some_elem in Hget.
    by apply (proj1 (Forall_forall _ _) Hsets) in Hget as [Hnd _].
  - apply NoDup_nil_2.
Qed.

Lemma classify_grouping_ok E self catalog transport event g r g' :
  grouping_ok (msgdict g) /\ grouping_ok (msgdict_encrypt g) ->
  classify E self catalog transport event g r = Return g' ->
  grouping_ok (msgdict g') /\ grouping_ok (msgdict_encrypt g').
Proof.
  intros [Hp He] Hstep. destruct r as [[name authed] address].
  destruct (classify_cases E self catalog transport event g name authed address)
    as [[_ Hr]|[(_ & _ & _ & _ & Hr)|[(_ & _ & _ & _ & _ & Hr)
        |(_ & _ & _ & _ & _ & what & Hr)]]];
    rewrite Hr in Hstep; [| | | done]; injection Hstep as <-;
    cbn [msgdict msgdict_encrypt]; split; try done;
    by apply grouping_ok_setdefault_add.
Qed.

(** Both grouping maps list every format once, and every group is a
    non-empty set: a recipient listed twice is grouped once. *)
Theorem classify_all_groups_are_sets E self catalog transport event recipients :
  let g := classify_all E self catalog transport event recipients in
  grouping_ok (msgdict g) /\ grouping_ok (msgdict_encrypt g).
Proof.
  unfold classify_all.
  apply (classify_loop_invariant E self catalog transport event
           (fun g => grouping_ok (msgdict g) /\ grouping_ok (msgdict_encrypt g))).
  - intros g r g'. apply classify_grouping_ok.
  - split; (split; [apply NoDup_nil_2 | apply Forall_nil_2]).
Qed.
(** ** Modes that do not encrypt *)

Lemma classify_loop_no_encrypt E (self : EmailDistributor) catalog transport
    event rs g :
  crypto_encrypts self = false ->
  msgdict_encrypt (fst (classify_loop E self catalog transport event rs g))
  = msgdict_encrypt g.
Proof.
  intros Hmode.
  apply (classify_loop_invariant E self catalog transport event
           (fun g' => msgdict_encrypt g' = msgdict_encrypt g)); [| done].
  intros g0 [[name authed] address] g' H0 Hstep.
  destruct (classify_cases E self catalog transport event g0 name authed address)
    as [[_ Hr]|[(_ & _ & _ & _ & Hr)|[(_ & _ & _ & Henc & _)
        |(_ & _ & _ & Henc & _)]]];
    try (unfold to_encrypt in Henc; by rewrite Hmode in Henc);
    rewrite Hr in Hstep; by injection Hstep as <-.
Qed.

Lemma _do_send_plain_only_calls E (self : EmailDistributor) transport event fmt
    recipients formatter pubkey_ids :
  crypto self = "" \/ default [] pubkey_ids = [] ->
  only_calls not_crypto_call
    (_do_send E self transport event fmt recipients formatter pubkey_ids).
Proof.
  intros Hplain. unfold _do_send.
  apply only_calls_bind; [by apply only_calls_silent |].
  intros [[from_header hdrs] recip_adds].
  destruct (length recip_adds =? 0)%nat; [apply only_calls_ret |].
  apply only_calls_bind; [by apply only_calls_silent |].
  intros root. apply only_calls_bind.
  - intros w. rewrite (render_plain _ _ _ _ _ _ _ _ Hplain).
    eexists. split; [reflexivity |]. by destruct (truthy _).
  - intros rendered.
    eapply only_calls_weaken; [| apply assemble_and_deliver_only_calls].
    by intros [].
Qed.

Lemma for_each_only_calls {A} P (l : list A) (body : A -> M unit) :
  (forall x, only_calls P (body x)) -> only_calls P (for_each l body).
Proof.
  intros Hbody. induction l as [|x l IH]; simpl; [apply only_calls_ret |].
  apply only_calls_bind; [apply Hbody | by intros _].
Qed.

Lemma distribute_only_calls_not_crypto E (self : EmailDistributor) transport
    recipients event :
  crypto_encrypts self = false ->
  only_calls not_crypto_call (distribute E self transport recipients event).
Proof.
  intros Hmode. unfold distribute.
  destruct (negb (enabled self) || negb _)%bool; [apply only_calls_ret |].
  destruct (formats (formatters self) transport (realm event))
    as [|entry catalog] eqn:Hcatalog; [apply only_calls_ret |].
  apply only_calls_bind.
  { apply only_calls_silent. intros w. by destruct (negb _). }
  intros _. apply only_calls_bind; [by apply only_calls_silent |].
  intros _. apply only_calls_bind.
  - apply for_each_only_calls. intros [k v].
    destruct v; [apply only_calls_ret |].
    destruct (dict_get _ k); [| apply only_calls_ret].
    apply _do_send_plain_only_calls. by right.
  - intros _. unfold classify_all.
    rewrite classify_loop_no_encrypt by done. apply only_calls_ret.
Qed.

(** Under a mode other than [encrypt] and [sign,encrypt], in particular
    under [sign], a distribution calls no crypto operation at all: every
    recipient is in the plain group, and messages for the plain group are
    assembled without keys. *)
Theorem distribute_without_encrypt_mode_calls_no_crypto E
    (self : EmailDistributor) transport recipients event w :
  crypto_encrypts self = false ->
  msgdict_encrypt
    (classify_all E self (formats (formatters self) transport (realm event))
       transport event recipients) = [] /\
  calls_of is_crypto_call
    (trace (snd (distribute E self transport recipients event w)))
  = calls_of is_crypto_call (trace w).
Proof.
  intros Hmode. split.
  - unfold classify_all. by rewrite classify_loop_no_encrypt.
  - destruct (distribute_only_calls_not_crypto E self transport recipients
                event Hmode w) as (calls & -> & Hcalls).
    rewrite calls_of_app.
    rewrite (calls_of_none not_crypto_call is_crypto_call calls Hcalls).
    + apply app_nil_r.
    + intros c. unfold not_crypto_call. by destruct (is_crypto_call c).
Qed.

Lemma distribute_without_encrypt_mode_calls_no_crypto_witness :
  let self := Sample.component [Sample.plain]
                (Sample.with_crypto "sign" Sample.opts) in
  calls_of is_crypto_call
    (trace (snd (distribute Sample.E self "email"
                   [Sample.alice; Sample.carol] Sample.ticket
                   (initial_world []))))
  = calls_of is_crypto_call (trace (initial_world [])).
Proof.
  intros self.
  apply (proj2 (distribute_without_encrypt_mode_calls_no_crypto Sample.E self
                  "email" [Sample.alice; Sample.carol] Sample.ticket
                  (initial_world []) eq_refl)).
Defined.

(** ** Distributions that do nothing *)

Lemma formats_nothing_advertised fs transport realm :
  Forall (fun f => styles f transport realm = []) fs ->
  formats fs transport realm = [].
Proof.
  induction fs as [|f fs IH] using rev_ind; intros Hfs; [done |].
  apply Forall_app in Hfs as [Hfs Hf]. apply Forall_cons in Hf as [Hf _].
  rewrite formats_snoc, Hf. simpl. by apply IH.
Qed.

(** A distribution for a disabled distributor, for a transport other than
    e-mail, or with no formatter advertising a style, returns with the
    state as it was: no recipient is looked at, nothing is called. *)
Theorem distribute_does_nothing E (self : EmailDistributor) transport
    recipients event w :
  enabled self = false \/
  transport <> "email" \/
  Forall (fun f => styles f transport (realm event) = []) (formatters self) ->
  distribute E self transport recipients event w = (Return tt, w).
Proof.
  intros Hcase. unfold distribute.
  destruct (enabled self) eqn:Henabled; cbn [negb orb]; [| done].
  destruct Hcase as [H|[H|H]]; [done | |].
  - unfold transports. cbn [existsb].
    destruct (String.eqb_spec "email" transport) as [<-|_]; done.
  - destruct (negb _); [done |].
    by rewrite (formats_nothing_advertised _ _ _ H).
Qed.

Lemma distribute_does_nothing_witness :
  distribute Sample.E (Sample.component [Sample.plain] Sample.opts) "xmpp"
    [Sample.alice] Sample.ticket (initial_world [Sample.subject])
  = (Return tt, initial_world [Sample.subject]).
Proof.
  apply (distribute_does_nothing Sample.E
           (Sample.component [Sample.plain] Sample.opts) "xmpp"
           [Sample.alice] Sample.ticket (initial_world [Sample.subject])).
  right. left. discriminate.
Defined.

(** ** The header set *)

(** The envelope is made exactly when the message identifier is
    generated; on Python 3 it never is.  When it is made, the header set
    has five headers in a fixed order, the recipients' header being Cc
    under public CC and To otherwise, never both; under public CC the Cc
    header lists the addresses, comma separated, and the addresses handed
    on are those of the recipients, without addition. *)
Theorem envelope_header_set E (self : EmailDistributor) event recipients :
  (python E = Python3 ->
   envelope E self event recipients
   = Raise (TypeError "Strings must be encoded before hashing")) /\
  match envelope E self event recipients with
  | Raise e => _message_id E self (realm event) = Raise e
  | Return (from_header, hdrs, recip_adds) =>
      python E = Python2 /\
      (exists id,
         _message_id E self (realm event) = Return id /\
         dict_get hdrs "Message-ID" = Some id) /\
      dict_keys hdrs
        = ["Message-ID"; "Date"; "From"; "Reply-To";
           if use_public_cc self then "Cc" else "To"] /\
      dict_get hdrs "Date" = Some (formatdate E) /\
      from_header
        = formataddr E (if truthy (from_name self) then from_name self
                        else project_name E) (email_from self) /\
      dict_get hdrs "From" = Some from_header /\
      dict_get hdrs "Reply-To" = Some (reply_to self) /\
      (use_public_cc self = true ->
       dict_get hdrs "Cc" = Some (join ", " (map rcpt_address recipients)) /\
       dict_get hdrs "To" = None /\
       recip_adds = map rcpt_address recipients)
  end.
Proof.
  split; [apply envelope_python3 |].
  destruct (envelope E self event recipients)
    as [[[from_header hdrs] recip_adds]|e] eqn:Henv;
    [| by apply envelope_Raise in Henv].
  destruct (envelope_Return _ _ _ _ _ Henv) as [Hpy _].
  split; [exact Hpy |]. revert Henv. unfold envelope.
  destruct (_message_id E self (realm event)) as [id|e]; [| done].
  destruct (use_public_cc self).
  - intros [= <- <- <-]. split; [by exists id |]. repeat split; reflexivity.
  - destruct (to self =? to_default)%string; intros [= <- <- <-];
      (split; [by exists id |]); repeat split; try reflexivity; discriminate.
Qed.

Lemma envelope_header_set_witness :
  let self := Sample.component [Sample.plain]
                (Sample.with_public_cc true Sample.opts) in
  match envelope Sample.E self Sample.ticket [Sample.alice; Sample.bob] with
  | Return (from_header, hdrs, recip_adds) =>
      dict_get hdrs "Cc" = Some "alice@example.com, bob@example.com" /\
      dict_get hdrs "To" = None /\
      recip_adds = ["alice@example.com"; "bob@example.com"]
  | Raise _ => False
  end.
Proof.
  intros self.
  destruct (envelope_header_set Sample.E self Sample.ticket
              [Sample.alice; Sample.bob])
    as (_ & _ & _ & _ & _ & _ & _ & _ & Hcc).
  exact (Hcc eq_refl).
Defined.

(** ** Messages without crypto *)

(** Without a mode or without keys, [_do_send] calls no crypto operation:
    it renders the primary body, asks the formatter for an alternative
    style and renders the alternative if one is offered.  Either it hands
    nothing over, which with a normal return means that the envelope has
    no address and nothing was done; or these calls are followed by the
    decorators and by the delivery, to the addresses of the envelope, of
    the message assembled from the headers of the envelope and the
    formatter's output as it is: when an alternative style is offered and
    its rendering is not empty, one multipart/alternative with the
    alternative first and the primary body last, and a single text part
    otherwise. *)
Theorem _do_send_without_keys E (self : EmailDistributor) transport event fmt
    recipients formatter pubkey_ids w l :
  crypto self = "" \/ default [] pubkey_ids = [] ->
  heap w !! decorators self = Some l ->
  let output := format formatter transport (realm event) fmt event in
  let alternate_style :=
    alternative_style_for formatter transport (realm event) fmt in
  let alternate_output := format formatter transport (realm event)
                                 alternate_style event in
  let rendering :=
    [CallFormat (formatter_name formatter) fmt;
     CallAlternativeStyleFor (formatter_name formatter) fmt] ++
    (if truthy alternate_style
     then [CallFormat (formatter_name formatter) alternate_style] else []) in
  let body :=
    if (truthy alternate_style && text_truthy alternate_output)%bool
    then PartMultipart "alternative"
           [text_part self alternate_style alternate_output;
            text_part self fmt output]
    else PartText (text_part self fmt output) in
  let run := _do_send E self transport event fmt recipients formatter
               pubkey_ids w in
  exists calls,
    trace (snd run) = trace w ++ calls /\
    calls_of is_crypto_call calls = [] /\
    ((calls_of is_delivery_call calls = [] /\
      (calls = [] \/ calls = rendering) /\
      (fst run = Return tt ->
       exists from_header hdrs,
         envelope E self event recipients = Return (from_header, hdrs, []) /\
         snd run = w)) \/
     exists from_header hdrs recip_adds dcalls,
       envelope E self event recipients
         = Return (from_header, hdrs, recip_adds) /\
       recip_adds <> [] /\
       let item := (from_header, recip_adds,
                    message_text E event l hdrs [body]) in
       calls = rendering ++ dcalls ++ [delivery_call self item] /\
       forallb is_decorate_call dcalls = true /\
       fst run = delivery_answer E self item).
Proof.
  intros Hplain Hl output alternate_style alternate_output rendering body run.
  pose proof (_do_send_cases E self transport event fmt recipients formatter
                pubkey_ids w) as Hcases.
  cbn zeta in Hcases. fold run in Hcases. rewrite Hl in Hcases.
  change (default [] (Some l)) with l in Hcases.
  assert (forallb is_render_call rendering = true) as Hrendering.
  { subst rendering. by destruct (truthy alternate_style). }
  assert (calls_of is_crypto_call rendering = []) as Hnocrypto.
  { subst rendering. by destruct (truthy alternate_style). }
  assert (body_part self fmt output alternate_style
            (if truthy alternate_style then Some alternate_output else None)
          = body) as Hbody.
  { subst body. unfold body_part. destruct (truthy alternate_style); [| done].
    cbn [andb]. by destruct (text_truthy alternate_output). }
  destruct (envelope E self event recipients)
    as [[[from_header hdrs] recip_adds]|e] eqn:Henv.
  - destruct Hcases as [Hpy Hcases].
    destruct recip_adds as [|a recip_adds].
    { exists []. rewrite Hcases. cbn [fst snd].
      split; [by rewrite app_nil_r |]. split; [done |].
      left. split; [done |]. split; [by left |].
      intros _. by exists from_header, hdrs. }
    rewrite (render_plain E self transport event fmt formatter
               (default [] pubkey_ids) w Hplain) in Hcases.
    fold output alternate_style alternate_output rendering in Hcases.
    rewrite Hbody in Hcases.
    destruct Hcases as [[e Hrun]|(w' & dcalls & Hrun & Htrace & Hdcalls & _)].
    + exists rendering. rewrite Hrun. cbn [fst snd recorded trace].
      split; [done |]. split; [exact Hnocrypto |].
      left. split; [by apply render_calls_not_delivery |].
      split; [by right | done].
    + exists (rendering ++ dcalls ++
              [delivery_call self (from_header, a :: recip_adds,
                                   message_text E event l hdrs [body])]).
      rewrite Hrun. cbn [fst snd]. split.
      { rewrite Htrace. cbn [recorded trace]. by rewrite <- !app_assoc. }
      split.
      { destruct (delivery_call_kind self
                    (from_header, a :: recip_adds,
                     message_text E event l hdrs [body])) as (_ & _ & Hdc).
        rewrite !calls_of_app, Hnocrypto, calls_of_cons, Hdc.
        rewrite (calls_of_none is_decorate_call is_crypto_call dcalls Hdcalls)
          by (by intros []).
        reflexivity. }
      right. exists from_header, hdrs, (a :: recip_adds), dcalls.
      split; [reflexivity |]. split; [done |]. cbn zeta.
      split; [reflexivity |]. split; [exact Hdcalls | reflexivity].
  - exists []. rewrite Hcases. cbn [fst snd].
    split; [by rewrite app_nil_r |]. split; [done |].
    left. split; [done |]. split; [by left | done].
Qed.

Lemma _do_send_without_keys_witness :
  let self := Sample.component [Sample.html] Sample.opts in
  let w := initial_world [] in
  exists calls,
    trace (snd (_do_send Sample.E self "email" Sample.ticket "text/html"
                  [Sample.alice] Sample.html None w)) = trace w ++ calls /\
    calls_of is_crypto_call calls = [].
Proof.
  intros self w.
  destruct (_do_send_without_keys Sample.E self "email" Sample.ticket
              "text/html" [Sample.alice] Sample.html None w []
              (or_introl eq_refl) eq_refl)
    as (calls & Htrace & Hcrypto & _).
  exists calls. split; [exact Htrace | exact Hcrypto].
Defined.

(** ** Deliveries *)

Lemma _do_send_delivered E self transport event fmt recipients formatter
    pubkey_ids w :
  let run := _do_send E self transport event fmt recipients formatter
               pubkey_ids w in
  (delivered (snd run) = delivered w /\
   (fst run = Return tt ->
    exists from_header hdrs,
      envelope E self event recipients = Return (from_header, hdrs, []) /\
      snd run = w)) \/
  exists from_header hdrs recip_adds message,
    envelope E self event recipients = Return (from_header, hdrs, recip_adds) /\
    recip_adds <> [] /\
    let item := (from_header, recip_adds, message) in
    delivered (snd run)
      = (queue_after self item (delivery_queue w),
         calls_of is_delivery_call (trace w) ++ [delivery_call self item]) /\
    last (trace (snd run)) = Some (delivery_call self item) /\
    fst run = delivery_answer E self item.
Proof.
  intros run.
  pose proof (_do_send_outcome E self transport event fmt recipients formatter
                pubkey_ids w) as Hout.
  cbn zeta in Hout. fold run in Hout.
  destruct Hout as [(calls & Htrace & Hcalls & Hqueue & Hreturn)
                   |(f & h & a & output & style & alt & rcalls & dcalls & Henv
                     & Hne & _ & Htrace & Hrcalls & Hdcalls & _ & Hanswer
                     & Hqueue)].
  - left. split; [| exact Hreturn].
    unfold delivered. rewrite Hqueue, Htrace, calls_of_app.
    by rewrite (render_calls_not_delivery _ Hcalls), app_nil_r.
  - right. eexists f, h, a, _. split; [exact Henv |]. split; [exact Hne |].
    cbn zeta. split; [| split; [| exact Hanswer]].
    + unfold delivered. rewrite Hqueue, Htrace, calls_of_app.
      by rewrite (delivery_calls_of _ _ _ _ Hrcalls Hdcalls).
    + rewrite Htrace, !app_assoc. apply last_snoc.
Qed.

(** A call of [_do_send] delivers at most once, as its last call.  Either
    nothing has been handed to the sender or to the queue by it, and a
    normal return then means that the envelope has no address and nothing
    was done; or exactly one package, for exactly the addresses of the
    envelope, has been delivered as the last call, appended to the queue
    under threaded delivery and sent with the queue untouched otherwise,
    and the call ends as the delivery does: normally under threaded
    delivery, with the answer of the sender otherwise, which is an
    exception when the sender fails, the package having been handed to
    it. *)
Theorem _do_send_delivers_once E self transport event fmt recipients formatter
    pubkey_ids w :
  let run := _do_send E self transport event fmt recipients formatter
               pubkey_ids w in
  (delivered (snd run) = delivered w /\
   (fst run = Return tt ->
    exists from_header hdrs,
      envelope E self event recipients = Return (from_header, hdrs, []) /\
      snd run = w)) \/
  exists from_header hdrs recip_adds message,
    envelope E self event recipients = Return (from_header, hdrs, recip_adds) /\
    recip_adds <> [] /\
    let item := (from_header, recip_adds, message) in
    delivered (snd run)
      = (queue_after self item (delivery_queue w),
         calls_of is_delivery_call (trace w) ++ [delivery_call self item]) /\
    last (trace (snd run)) = Some (delivery_call self item) /\
    fst run = delivery_answer E self item.
Proof. apply _do_send_delivered. Qed.

Lemma _do_send_delivers_once_witness :
  let self := Sample.component [Sample.plain] Sample.opts in
  let run := _do_send (Sample.with_sender Sample.bounce_bob Sample.E) self
               "email" Sample.ticket "text/plain" [Sample.bob] Sample.plain
               None (initial_world []) in
  fst run = Raise (TracError "connection refused") /\
  exists message,
    last (trace (snd run))
    = Some (CallSend "My Project <trac@localhost>" ["bob@example.com"] message).
Proof.
  intros self run.
  destruct (_do_send_delivers_once (Sample.with_sender Sample.bounce_bob Sample.E)
              self "email" Sample.ticket "text/plain" [Sample.bob] Sample.plain
              None (initial_world []))
    as [[Hnothing _]|(f & h & a & message & Henv & _ & _ & Hlast & Hanswer)].
  - vm_compute in Hnothing. discriminate.
  - vm_compute in Henv. injection Henv as <- <- <-. fold run in Hlast, Hanswer.
    split; [by rewrite Hanswer |].
    eexists. rewrite Hlast. reflexivity.
Defined.

Lemma _do_send_delivery_count E self transport event fmt recipients formatter
    pubkey_ids w :
  length (calls_of is_delivery_call
            (trace (snd (_do_send E self transport event fmt recipients
                           formatter pubkey_ids w))))
  <= S (length (calls_of is_delivery_call (trace w))).
Proof.
  destruct (_do_send_delivered E self transport event fmt recipients formatter
              pubkey_ids w)
    as [[Hnothing _]|(f & h & a & message & _ & _ & Hdelivered & _)];
    unfold delivered in *.
  - injection Hnothing as _ ->. lia.
  - injection Hdelivered as _ ->. rewrite length_app. simpl. lia.
Qed.

Lemma for_each_delivery_count {A} (l : list A) (body : A -> M unit) :
  (forall x w,
     length (calls_of is_delivery_call (trace (snd (body x w))))
     <= S (length (calls_of is_delivery_call (trace w)))) ->
  forall w,
    length (calls_of is_delivery_call (trace (snd (for_each l body w))))
    <= length l + length (calls_of is_delivery_call (trace w)).
Proof.
  intros Hbody. induction l as [|x l IH]; intros w; simpl; [lia |].
  unfold bind. specialize (Hbody x w).
  destruct (body x w) as [[[]|e] w1]; cbn [snd] in *.
  - specialize (IH w1). lia.
  - lia.
Qed.

(** A distribution hands over at most one package for every format of the
    plain group and one for every format of the encrypt group, however
    many recipients the groups hold. *)
Theorem distribute_one_package_per_group E self transport recipients event w :
  let g := classify_all E self
             (formats (formatters self) transport (realm event)) transport
             event recipients in
  length (calls_of is_delivery_call
            (trace (snd (distribute E self transport recipients event w))))
  <= length (msgdict g) + length (msgdict_encrypt g)
     + length (calls_of is_delivery_call (trace w)).
Proof.
  intros g. unfold distribute.
  destruct (negb (enabled self) || negb _)%bool; [cbn [snd ret]; lia |].
  fold g.
  destruct (formats (formatters self) transport (realm event))
    as [|entry catalog] eqn:Hcatalog; [cbn [snd ret]; lia |].
  unfold bind at 1.
  assert (forall w0 : world, exists w1,
            (if negb (crypto self =? "")%string then set_enigma else ret tt) w0
              = (Return tt, w1) /\ trace w1 = trace w0) as Hsetup.
  { intros w0. destruct (negb _); eexists; split; reflexivity. }
  destruct (Hsetup w) as (w1 & -> & Hw1).
  unfold bind at 1, lift.
  destruct (classify_outcome E self (entry :: catalog) transport event recipients)
    as [[]|e]; [| cbn [snd]; rewrite Hw1; lia].
  assert (forall pubkey_ids (kv : string * list recipient) w0,
            length (calls_of is_delivery_call
                      (trace (snd ((let '(k, v) := kv in
                                    match v, dict_get (entry :: catalog) k with
                                    | _ :: _, Some fmt =>
                                        _do_send E self transport event k v fmt
                                                 pubkey_ids
                                    | _, _ => ret tt
                                    end) w0))))
            <= S (length (calls_of is_delivery_call (trace w0)))) as Hbody.
  { intros pubkey_ids [k v] w0. destruct v; [cbn [snd ret]; lia |].
    destruct (dict_get _ k); [apply _do_send_delivery_count |].
    cbn [snd ret]. lia. }
  unfold bind.
  pose proof (for_each_delivery_count (msgdict g) _ (Hbody None) w1) as Hplain.
  destruct (for_each (msgdict g) _ w1) as [[[]|e] w2]; cbn [snd] in *.
  - pose proof (for_each_delivery_count (msgdict_encrypt g) _
                  (Hbody (Some (msg_pubkey_ids g))) w2) as Henc.
    rewrite Hw1 in Hplain. eapply Nat.le_trans; [apply Henc |]. lia.
  - rewrite Hw1 in Hplain. lia.
Qed.

(** ** A message from rendering to the sender *)

Lemma decorators_called_none calls :
  calls_of is_decorate_call calls = [] -> decorators_called calls = [].
Proof.
  induction calls as [|c calls IH]; [done |].
  rewrite calls_of_cons. destruct c; cbn; try done; apply IH.
Qed.

(** What [_do_send] hands over is the decorated message.  On Python 3 it
    hands nothing over: the call ends with the [TypeError] of the message
    identifier, the state as it was.  Every delivery the call makes is its
    last call and the only one; it is made after the envelope and the
    rendering of the bodies, and after the chain of the registered
    decorators, last registered first, ended only by a decorator that does
    not go on; the package holds the from-header and the addresses of the
    envelope and the text of the message assembled from the headers of
    the envelope and the rendered bodies, as the chain left it; and the
    call ends as the delivery does.  A normal return means that the
    envelope has no address and nothing was done, or that the delivery
    was made. *)
Theorem _do_send_sends_decorated_message E (self : EmailDistributor) transport
    event fmt recipients formatter pubkey_ids w l :
  heap w !! decorators self = Some l ->
  let run := _do_send E self transport event fmt recipients formatter
               pubkey_ids w in
  let calls := new_calls (_do_send E self transport event fmt recipients
                            formatter pubkey_ids) w in
  (python E = Python3 ->
   run = (Raise (TypeError "Strings must be encoded before hashing"), w)) /\
  (forall c,
     c ∈ calls -> is_delivery_call c = true ->
     exists from_header hdrs recip_adds output style alt,
       envelope E self event recipients
         = Return (from_header, hdrs, recip_adds) /\
       fst (render E self transport event fmt formatter
              (default [] pubkey_ids) w) = Return (output, style, alt) /\
       let item :=
         (from_header, recip_adds,
          as_string E
            (decorated event (rev l)
               (assembled hdrs [body_part self fmt output style alt]))) in
       c = delivery_call self item /\
       last calls = Some c /\
       calls_of is_delivery_call calls = [c] /\
       decorators_called calls = chain_of (rev l) /\
       fst run = delivery_answer E self item) /\
  (fst run = Return tt ->
   (exists from_header hdrs,
      envelope E self event recipients = Return (from_header, hdrs, []) /\
      snd run = w) \/
   exists c, last calls = Some c /\ is_delivery_call c = true).
Proof.
  intros Hl run calls.
  split; [intros Hpy; by apply _do_send_python3 |].
  pose proof (_do_send_outcome E self transport event fmt recipients formatter
                pubkey_ids w) as Hout.
  cbn zeta in Hout. fold run in Hout. rewrite Hl in Hout.
  change (default [] (Some l)) with l in Hout.
  destruct Hout as [(calls' & Htrace & Hcalls & _ & Hreturn)
                   |(f & h & a & output & style & alt & rcalls & dcalls & Henv
                     & Hne & Hrender & Htrace & Hrcalls & Hdcalls & Hchain
                     & Hanswer & _)];
    subst calls; rewrite (new_calls_app _ _ _ Htrace).
  - split.
    + intros c Hc Hkind. apply (forallb_elem_of _ _ _ Hcalls) in Hc.
      by destruct c.
    + intros Hrun. left. by apply Hreturn.
  - split.
    + intros c Hc Hkind.
      pose proof (delivery_call_among _ _ _ _ Hrcalls Hdcalls Hc Hkind) as ->.
      exists f, h, a, output, style, alt.
      split; [exact Henv |]. split; [exact Hrender |]. cbn zeta.
      split; [reflexivity |].
      split; [rewrite !app_assoc; apply last_snoc |].
      split; [by apply delivery_calls_of |].
      split; [| exact Hanswer].
      rewrite !decorators_called_app, Hchain.
      rewrite (decorators_called_none rcalls).
      * unfold delivery_call, send_call. cbn.
        destruct (use_threaded_delivery self); cbn; apply app_nil_r.
      * apply (calls_of_none is_render_call); [done |]. by intros [].
    + intros _. right. eexists. split; [rewrite !app_assoc; apply last_snoc |].
      apply is_delivery_call_delivery_call.
Qed.

Lemma _do_send_sends_decorated_message_witness :
  let self := Sample.component [Sample.plain] Sample.opts in
  let w := initial_world [Sample.subject; Sample.threading] in
  let run := _do_send Sample.E self "email" Sample.ticket "text/plain"
               [Sample.alice] Sample.plain None w in
  fst run = Return tt /\
  exists c,
    last (new_calls (_do_send Sample.E self "email" Sample.ticket "text/plain"
                       [Sample.alice] Sample.plain None) w) = Some c /\
    is_delivery_call c = true.
Proof.
  intros self w run.
  assert (fst run = Return tt) as Hrun by (vm_compute; reflexivity).
  split; [exact Hrun |].
  destruct (_do_send_sends_decorated_message Sample.E self "email" Sample.ticket
              "text/plain" [Sample.alice] Sample.plain None w
              [Sample.subject; Sample.threading] eq_refl)
    as (_ & _ & Hreturn).
  destruct (Hreturn Hrun) as [(f & h & Henv & _)|Hlast]; [| exact Hlast].
  vm_compute in Henv. discriminate.
Defined.

(** ** The delivery thread *)

(** The worker on a queue: it hands the packages to the sender oldest
    first, and the first failure of the sender ends it. *)
Lemma run_drains E fuel :
  forall q w,
    delivery_queue w = Some q ->
    length q <= fuel ->
    run E fuel w =
    (worker_end E q,
     {| heap := heap w; enigma := enigma w;
        delivery_queue := Some (left_behind E q);
        trace := trace w ++ map send_call (handed_over E q) |}).
Proof.
  induction fuel as [|fuel IH]; intros q w Hq Hlen.
  - destruct q; [| simpl in Hlen; lia]. simpl. unfold ret.
    destruct w. simpl in *. by rewrite Hq, app_nil_r.
  - cbn [run]. unfold bind at 1, get. rewrite Hq.
    destruct q as [|[[from_addr recipients] message] q].
    + unfold ret. destruct w. simpl in *. by rewrite Hq, app_nil_r.
    + unfold bind at 1, send, bind, record, lift.
      cbn [heap enigma delivery_queue trace handed_over left_behind worker_end
           sender_answer].
      destruct (email_sender_send E from_addr recipients
                  (crlf_join_split message)) as [[]|e].
      * rewrite (IH q); [| done | simpl in Hlen; lia].
        cbn [heap enigma delivery_queue trace map send_call].
        by rewrite <- app_assoc.
      * reflexivity.
Qed.

Lemma worker_all_sent E q :
  Forall (fun item => sender_answer E item = Return tt) q ->
  handed_over E q = q /\ left_behind E q = [] /\ worker_end E q = Return tt.
Proof.
  induction 1 as [|item q Hitem Hq (IH1 & IH2 & IH3)]; [done |].
  cbn [handed_over left_behind worker_end]. rewrite Hitem.
  by rewrite IH1, IH2, IH3.
Qed.

Lemma worker_first_failure E before item after e :
  Forall (fun i => sender_answer E i = Return tt) before ->
  sender_answer E item = Raise e ->
  handed_over E (before ++ item :: after) = before ++ [item] /\
  left_behind E (before ++ item :: after) = after /\
  worker_end E (before ++ item :: after) = Raise e.
Proof.
  intros Hbefore Hitem.
  induction Hbefore as [|i before Hi Hbefore (IH1 & IH2 & IH3)];
    cbn [app handed_over left_behind worker_end].
  - by rewrite Hitem.
  - by rewrite Hi, IH1, IH2, IH3.
Qed.

(** A package put on the queue by a threaded delivery is handed to the
    sender by the worker after those queued before it, with CRLF line
    ends, by the same call a direct delivery makes.  The worker hands the
    queued packages to the sender oldest first.  When the sender accepts
    all of them, the queue is left empty; at the first package the sender
    fails on, the worker ends with the exception of the sender, that
    package handed over and the later ones left on the queue. *)
Theorem worker_sends_in_arrival_order E (self : EmailDistributor) item q w fuel :
  use_threaded_delivery self = true ->
  delivery_queue w = Some q ->
  length q < fuel ->
  let queue := q ++ [item] in
  exists w',
    bind (deliver E self item) (fun _ => run E fuel) w
      = (worker_end E queue, w') /\
    delivery_queue w' = Some (left_behind E queue) /\
    trace w' = trace w ++ [CallPut item] ++ map send_call (handed_over E queue) /\
    (Forall (fun i => sender_answer E i = Return tt) queue ->
     handed_over E queue = queue /\ left_behind E queue = [] /\
     worker_end E queue = Return tt) /\
    (forall before failing after e,
       queue = before ++ failing :: after ->
       Forall (fun i => sender_answer E i = Return tt) before ->
       sender_answer E failing = Raise e ->
       handed_over E queue = before ++ [failing] /\
       left_behind E queue = after /\
       worker_end E queue = Raise e).
Proof.
  intros Hthreaded Hq Hfuel queue.
  destruct item as [[from_header recip_adds] message].
  unfold deliver. rewrite Hthreaded.
  unfold bind at 1 2, get_delivery_queue, put. rewrite Hq.
  cbn [heap enigma delivery_queue trace default].
  eexists. split.
  - apply run_drains with (q := queue).
    + cbn [delivery_queue]. by rewrite Hq.
    + subst queue. rewrite length_app. simpl. lia.
  - cbn [delivery_queue trace]. split; [done |].
    split; [by rewrite <- app_assoc |].
    split; [apply worker_all_sent |].
    intros before failing after e ->. apply worker_first_failure.
Qed.

Lemma worker_sends_in_arrival_order_witness :
  let E := Sample.with_sender Sample.bounce_bob Sample.E in
  let self := Sample.component [Sample.plain]
                (Sample.with_threaded_delivery true Sample.opts) in
  let first := ("trac@localhost", ["alice@example.com"], "first") in
  let second := ("trac@localhost", ["bob@example.com"], "second") in
  let third := ("trac@localhost", ["carol@intra.example.com"], "third") in
  let w := {| heap := ∅; enigma := false;
              delivery_queue := Some [first; second]; trace := [] |} in
  exists w',
    bind (deliver E self third) (fun _ => run E 3) w
      = (Raise (TracError "connection refused"), w') /\
    delivery_queue w' = Some [third] /\
    trace w' = [CallPut third; send_call first; send_call second].
Proof.
  intros E self first second third w.
  destruct (worker_sends_in_arrival_order E self third [first; second] w 3)
    as (w' & Hrun & Hqueue & Htrace & _ & Hfailure).
  - reflexivity.
  - reflexivity.
  - simpl. lia.
  - destruct (Hfailure [first] second [third] (TracError "connection refused"))
      as (Hhanded & Hleft & Hend).
    + reflexivity.
    + by repeat constructor.
    + reflexivity.
    + exists w'. rewrite Hend in Hrun. rewrite Hleft in Hqueue.
      rewrite Hhanded in Htrace. by repeat split.
Defined.

(** ** Line ends *)

Lemma crlf_join_split_cases c rest :
  (c = LF /\
   crlf_join_split (String c rest) = String CR (String LF (crlf_join_split rest))) \/
  (c = CR /\ exists rest',
     rest = String LF rest' /\
     crlf_join_split (String c rest)
       = String CR (String LF (crlf_join_split rest'))) \/
  (c <> LF /\ (c = CR -> forall rest', rest <> String LF rest') /\
   crlf_join_split (String c rest) = String c (crlf_join_split rest)).
Proof.
  cbn [crlf_join_split].
  destruct (Ascii.eqb_spec c LF) as [->|Hlf]; [by left |].
  destruct (Ascii.eqb_spec c CR) as [->|Hcr].
  - destruct rest as [|c' rest']; [right; right; by repeat split |].
    destruct (Ascii.eqb_spec c' LF) as [->|Hlf'].
    + right; left. split; [done |]. by exists rest'.
    + right; right. repeat split; try done. intros _ t [= ? ?]. done.
  - right; right. by repeat split.
Qed.

Lemma crlf_join_split_head s t : crlf_join_split s <> String LF t.
Proof.
  destruct s as [|c rest]; [done |].
  destruct (crlf_join_split_cases c rest)
    as [[_ ->]|[(_ & rest' & _ & ->)|(Hc & _ & ->)]]; try done.
  intros [= ? ?]. done.
Qed.

Lemma crlf_join_split_clean n :
  forall s after_cr,
    String.length s <= n -> bare_lf after_cr (crlf_join_split s) = false.
Proof.
  induction n as [|n IH]; intros s after_cr Hlen.
  - destruct s; [done | simpl in Hlen; lia].
  - destruct s as [|c rest]; [done |]. simpl in Hlen.
    destruct (crlf_join_split_cases c rest)
      as [[_ ->]|[(_ & rest' & -> & ->)|(Hc & _ & ->)]].
    + cbn. apply IH. lia.
    + cbn. apply IH. simpl in Hlen. lia.
    + cbn [bare_lf]. destruct (Ascii.eqb_spec c LF) as [?|_]; [done |].
      cbn [andb orb]. apply IH. lia.
Qed.

Lemma crlf_join_split_again n :
  forall s,
    String.length s <= n ->
    crlf_join_split (crlf_join_split s) = crlf_join_split s.
Proof.
  induction n as [|n IH]; intros s Hlen.
  - destruct s; [done | simpl in Hlen; lia].
  - destruct s as [|c rest]; [done |]. simpl in Hlen.
    destruct (crlf_join_split_cases c rest)
      as [[_ ->]|[(_ & rest' & -> & ->)|(Hc & _ & ->)]].
    + change (String CR (String LF (crlf_join_split (crlf_join_split rest)))
              = String CR (String LF (crlf_join_split rest))).
      rewrite IH; [done | lia].
    + change (String CR (String LF (crlf_join_split (crlf_join_split rest')))
              = String CR (String LF (crlf_join_split rest'))).
      rewrite IH; [done | simpl in Hlen; lia].
    + destruct (crlf_join_split_cases c (crlf_join_split rest))
        as [[? _]|[(_ & rest' & Hhead & _)|(_ & _ & ->)]]; [done | |].
      * by apply crlf_join_split_head in Hhead.
      * rewrite IH; [done | lia].
Qed.

(** What [send] hands to the sender has no line feed without a carriage
    return before it, and making the line ends CRLF a second time changes
    nothing. *)
Theorem crlf_join_split_line_ends message :
  bare_lf false (crlf_join_split message) = false /\
  crlf_join_split (crlf_join_split message) = crlf_join_split message.
Proof.
  split.
  - by apply (crlf_join_split_clean (String.length message)).
  - by apply (crlf_join_split_again (String.length message)).
Qed.

(** ** The message identifier *)

Lemma find_char_append c local rest :
  find_char c local = None ->
  find_char c (local +:+ String c rest) = Some (String.length local).
Proof.
  induction local as [|c' local IH]; simpl.
  - by rewrite Ascii.eqb_refl.
  - destruct (c' =? c)%char; [done |].
    destruct (find_char c local); [done |]. intros _. by rewrite IH.
Qed.

Lemma slice_from_append c local rest :
  slice_from (S (String.length local)) (local +:+ String c rest) = rest.
Proof. induction local as [|c' local IH]; simpl; [by destruct rest | done]. Qed.

Lemma encode_ascii_ignore_is_ascii s :
  string_is_ascii (encode_ascii_ignore s) = true.
Proof.
  induction s as [|c s IH]; [done |]. cbn [encode_ascii_ignore].
  destruct (nat_of_ascii c <? 128)%nat eqn:Hc; [| exact IH].
  cbn [string_is_ascii]. by rewrite Hc, IH.
Qed.

(** The message identifier is made from the project URL, the time, a
    random number and the realm with the characters outside ASCII left
    out.  On Python 3 its generation always raises the [TypeError] of the
    digest; on Python 2 it raises the encode error when the string has a
    character outside ASCII, which then is one of the project URL, and
    otherwise the identifier is the length of the string and its digest
    before ['@'], and the host and ['>'] after it.  The host is what
    follows the first ['@'] of the sender address, and the whole address
    when it has none. *)
Theorem message_id_host_of_sender E (self : EmailDistributor) realm :
  let s := project_url E +:+ "." +:+ decimal (modtime E) +:+ "." +:+
           decimal (rand E) +:+ "." +:+
           percent_s_bytes (python E) (encode_ascii_ignore realm) in
  (python E = Python3 ->
   _message_id E self realm
   = Raise (TypeError "Strings must be encoded before hashing")) /\
  (python E = Python2 -> string_is_ascii s = false ->
   _message_id E self realm = Raise UnicodeEncodeError) /\
  (python E = Python2 -> string_is_ascii s = true ->
   _message_id E self realm
   = Return ("<" +:+ decimal3 (String.length s) +:+ "." +:+
             md5_hexdigest E s +:+ "@" +:+
             message_id_host (email_from self) +:+ ">")) /\
  string_is_ascii (encode_ascii_ignore realm) = true /\
  (forall local host,
     email_from self = local +:+ "@" +:+ host ->
     find_char "@" local = None ->
     message_id_host (email_from self) = host) /\
  (find_char "@" (email_from self) = None ->
   message_id_host (email_from self) = email_from self).
Proof.
  intros s.
  split; [apply _message_id_python3 |].
  split.
  { intros Hpy Hs. unfold _message_id, hashlib_md5. fold s. by rewrite Hpy, Hs. }
  split.
  { intros Hpy Hs. unfold _message_id, hashlib_md5. fold s. by rewrite Hpy, Hs. }
  split; [apply encode_ascii_ignore_is_ascii |].
  split.
  - intros local host -> Hlocal. unfold message_id_host.
    change (local +:+ "@" +:+ host) with (local +:+ String "@" host).
    rewrite (find_char_append "@" local host Hlocal).
    apply slice_from_append.
  - intros Hnone. unfold message_id_host. by rewrite Hnone.
Qed.

Lemma message_id_host_of_sender_witness :
  _message_id Sample.E (Sample.component [Sample.plain] Sample.opts) "ticket"
  = Return "<044.d41d8cd98f00b204e9800998ecf8427e@localhost>".
Proof.
  destruct (message_id_host_of_sender Sample.E
              (Sample.component [Sample.plain] Sample.opts) "ticket")
    as (_ & _ & Hid & _).
  rewrite Hid; reflexivity.
Defined.

(** The identifier is not generated for a project URL with a character
    outside ASCII, nor on Python 3. *)
Example message_id_not_generated :
  let self := Sample.component [Sample.plain] Sample.opts in
  _message_id (Sample.at_url Sample.umlaut_url Sample.E) self "ticket"
    = Raise UnicodeEncodeError /\
  _message_id (Sample.on Python3 Sample.E) self "ticket"
    = Raise (TypeError "Strings must be encoded before hashing").
Proof. split; reflexivity. Qed.
